(** * A character-level transformer language model

    Shallow embedding of [bigram_llm.py] and proofs of its specified
    properties.

    - Floats are real numbers and float arithmetic is exact; the one
      non-finite value the program writes, [float('-inf')], is kept apart
      ([float_inf]).
    - Tensors are nested lists; tensors whose shape the program reads carry
      the shape.  Everything runs on one device.
    - A Python exception is an [Err] result of the error monad [result].
    - Dictionaries are finite maps, the set of characters is a finite set,
      text is a [string].
    - The hyperparameters of lines 7-17 are the fields of [config]; the
      script's values are [script_config].
    - The random draws of [torch.multinomial] come from a sampler that is a
      parameter of [generate], with the state of the generator threaded. *)

From Stdlib Require Import Reals Lra Lia List ZArith Ascii String.
From stdpp Require Import gmap strings sorting.
Import ListNotations.

(** ** Exceptions *)

Inductive error : Type :=
  | IndexError          (* index out of range: embedding lookup, [t[:, -1, :]] *)
  | KeyError            (* missing dictionary key *)
  | ValueError          (* batch sizes of logits and targets differ *)
  | RuntimeError.       (* tensor shapes that do not fit *)

Inductive result (A : Type) : Type :=
  | Ok (a : A)
  | Err (e : error).
Arguments Ok {A} a.
Arguments Err {A} e.

Definition result_bind {A B} (f : A → result B) (r : result A) : result B :=
  match r with
  | Ok a => f a
  | Err e => Err e
  end.

#[global] Instance result_mbind : MBind result := @result_bind.
#[global] Instance result_mret : MRet result := @Ok.

(** A list comprehension whose body may raise: left to right, the first
    exception aborts the whole comprehension. *)
Fixpoint comprehension {A B} (f : A → result B) (l : list A) : result (list B) :=
  match l with
  | [] => Ok []
  | a :: l' => b ← f a; bs ← comprehension f l'; Ok (b :: bs)
  end.

(** ** Vocabulary codec (lines 28-36) *)

Module Codec.

(** Characters are ordered by code point, as Python orders [str]. *)
Definition char_le (a b : ascii) : Prop := nat_of_ascii a ≤ nat_of_ascii b.

#[global] Instance char_le_dec : RelDecision char_le :=
  λ a b, decide (nat_of_ascii a ≤ nat_of_ascii b).

(** [enumerate(l)], with Python's optional [start]. *)
Fixpoint enumerate_from {A} (start : Z) (l : list A) : list (Z * A) :=
  match l with
  | [] => []
  | x :: l' => (start, x) :: enumerate_from (start + 1) l'
  end.

Definition enumerate {A} (l : list A) : list (Z * A) := enumerate_from 0 l.

(** A dictionary comprehension [{ key(x) : val(x) for x in items }]: bindings
    are stored in iteration order, a later binding of a key replaces the
    earlier one. *)
Definition dict_comprehension `{Countable K} {X V}
    (key : X → K) (val : X → V) (items : list X) : gmap K V :=
  fold_left (λ d x, <[key x := val x]> d) items ∅.

Section Vocabulary.
Variable text : string.            (* the contents of input.txt *)

(** [characters = sorted(list(set(text)))] *)
Definition characters : list ascii :=
  merge_sort char_le
    (elements (list_to_set (list_ascii_of_string text) : gset ascii)).

(** [vocab_size = len(characters)] *)
Definition vocab_size : nat := length characters.

(** [s_to_i = { ch:i for i,ch in enumerate(characters)}] *)
Definition s_to_i : gmap ascii Z :=
  dict_comprehension snd fst (enumerate characters).

(** [i_to_s = { i:ch for i,ch in enumerate(characters)}] *)
Definition i_to_s : gmap Z ascii :=
  dict_comprehension fst snd (enumerate characters).

(** [d[k]]: a missing key raises [KeyError]. *)
Definition getitem `{Countable K} {V} (d : gmap K V) (k : K) : result V :=
  match d !! k with
  | Some v => Ok v
  | None => Err KeyError
  end.

(** [encode = lambda s: [s_to_i[c] for c in s]] *)
Definition encode (s : string) : result (list Z) :=
  comprehension (getitem s_to_i) (list_ascii_of_string s).

(** [decode = lambda n : ''.join([i_to_s[i] for i in n])] *)
Definition decode (n : list Z) : result string :=
  cs ← comprehension (getitem i_to_s) n; Ok (string_of_list_ascii cs).

End Vocabulary.

End Codec.

(** ** Tensors

    A float tensor is a nested list of reals: a [vec] is one position, of
    shape (C,); a [matrix] is one sequence, of shape (T, C); a batch is a list
    of matrices, of shape (B, T, C).  The layers below are given as the
    function of one batch element: every operation of the source acts on the
    batch axis element by element.  Where the source reads a shape that a
    nested list cannot hold (the (B, T) of the token ids, the shape of the
    returned logits), the tensor carries it.  [nn.Linear] and [nn.LayerNorm]
    raise RuntimeError on an input whose width is not the one they were
    constructed with; the layers below are defined on inputs of that width
    only, and the theorems assume it: parameters as the constructors shape
    them ([init_shape]), heads that fill the embedding width
    ([valid_config]), and inputs of [n_embd] features. *)

Abbreviation vec := (list R).
Abbreviation matrix := (list (list R)).

(** A float that may be [float('-inf')]. *)
Inductive float_inf : Type :=
  | neg_inf
  | finite (r : R).

(** A tensor of token ids with its shape (B, T). *)
Record LongTensor : Type := {
  shape : nat * nat;
  rows : list (list Z)
}.

Definition well_shaped (idx : LongTensor) : Prop :=
  length (rows idx) = (shape idx).1 ∧
  Forall (λ r, length r = (shape idx).2) (rows idx).

(** The logits a forward pass returns: rank 3 or rank 2, with the shape. *)
Inductive Tensor : Type :=
  | Tensor3 (shape3 : nat * nat * nat) (data : list matrix)
  | Tensor2 (shape2 : nat * nat) (data : matrix).

Definition Rsum (v : vec) : R := fold_right Rplus 0%R v.
Definition dot (a b : vec) : R := Rsum (zip_with Rmult a b).
Definition vadd (a b : vec) : vec := zip_with Rplus a b.
Definition madd (A B : matrix) : matrix := zip_with vadd A B.
Definition mscale (A : matrix) (c : R) : matrix := (λ r : vec, (λ a, a * c)%R <$> r) <$> A.

Definition width (A : matrix) : nat :=
  match A with
  | [] => 0
  | r :: _ => length r
  end.

Definition column (c : nat) (A : matrix) : vec := (λ r, nth c r 0%R) <$> A.

(** [A.transpose(-2, -1)] *)
Definition transpose (A : matrix) : matrix :=
  (λ c, column c A) <$> seq 0 (width A).

(** [A @ B] *)
Definition matmul (A B : matrix) : matrix :=
  (λ a, dot a <$> transpose B) <$> A.

(** ** The parts of torch the model calls *)

Module torch.

(** [torch.ones(n, m)]; the mask buffer only ever holds 1.0 and 0.0 and is
    only tested against 0, so its entries are kept as integers. *)
Definition ones (n m : nat) : list (list nat) := replicate n (replicate m 1).

(** [torch.tril(M)]: entries above the diagonal become 0. *)
Definition tril (M : list (list nat)) : list (list nat) :=
  imap (λ i row, imap (λ j a, if j <=? i then a else 0) row) M.

(** [torch.arange(T)] *)
Definition arange (T : nat) : list Z := Z.of_nat <$> seq 0 T.

(** [M[:T, :T]] *)
Definition slice2 {A} (T : nat) (M : list (list A)) : list (list A) :=
  take T (take T <$> M).

(** [M == 0] *)
Definition eq_zero (M : list (list nat)) : list (list bool) :=
  (λ r : list nat, (λ a, a =? 0) <$> r) <$> M.

(** [wei.masked_fill(mask, float('-inf'))] for a square [wei] of T rows and a
    square [mask].  The mask has to broadcast to the shape of [wei]: equal
    sizes, or a mask of size 1. *)
Definition fill (w : R) (b : bool) : float_inf :=
  if b then neg_inf else finite w.

Definition masked_fill (wei : matrix) (mask : list (list bool)) :
    result (list (list float_inf)) :=
  if length mask =? length wei then
    Ok (zip_with (zip_with fill) wei mask)
  else if length mask =? 1 then
    Ok ((λ r : vec, (λ w, fill w (nth 0 (nth 0 mask []) false)) <$> r) <$> wei)
  else Err RuntimeError.

(** [torch.cat(ms, dim=-1)] of matrices with equal numbers of rows; an empty
    list of tensors is refused. *)
Fixpoint cat_rows (ms : list matrix) : matrix :=
  match ms with
  | [] => []
  | [m] => m
  | m :: ms' => zip_with app m (cat_rows ms')
  end.

Definition cat_last (ms : list matrix) : result matrix :=
  match ms with
  | [] => Err RuntimeError
  | _ => Ok (cat_rows ms)
  end.

End torch.

Module F.

Definition exp_inf (x : float_inf) : R :=
  match x with
  | neg_inf => 0%R
  | finite r => exp r
  end.

(** [F.softmax(row, dim=-1)] on one row: exp(x_j) / sum_k exp(x_k). *)
Definition softmax (row : list float_inf) : vec :=
  let e := exp_inf <$> row in
  (λ a, a / Rsum e)%R <$> e.

(** [F.cross_entropy(logits, targets)] with logits of shape (N, C) and N
    class indices, under the defaults [reduction='mean'] and
    [ignore_index=-100]: a sample whose target is [ignore_index] is skipped,
    any other target outside [0, C) is refused, and the result is the mean,
    over the samples that are kept, of -log softmax(logits_n) at the target
    class.  With no sample kept the library returns nan, a value the reals
    do not have: the quotient below is the loss only when a sample is
    kept. *)
Definition ignore_index : Z := (-100)%Z.

Definition nll (logits : vec) (target : Z) : result (option R) :=
  if (target =? ignore_index)%Z then Ok None
  else if ((0 <=? target)%Z && (target <? Z.of_nat (length logits))%Z)%bool
  then Ok (Some (- ln (nth (Z.to_nat target) (softmax (finite <$> logits)) 0%R))%R)
  else Err IndexError.

Definition cross_entropy (logits : matrix) (targets : list Z) : result R :=
  if length logits =? length targets then
    losses ← comprehension (λ lt : vec * Z, nll lt.1 lt.2) (zip logits targets);
    let kept := omap (λ o : option R, o) losses in
    Ok (Rsum kept / INR (length kept))%R
  else Err ValueError.

End F.

(** [nn.Dropout(dropout)] with [dropout = 0.0] (line 17): no element is
    dropped and the scale is 1, in training and in evaluation mode. *)
Definition dropout : R := 0%R.
Definition Dropout {A} (x : A) : A := x.

(** [nn.Linear]: y = x W^T + b on every position, for positions of
    [in_features] entries. *)
Module Linear.

Record t : Type := {
  weight : matrix;             (* (out_features, in_features) *)
  bias : option vec            (* (out_features,), or bias=False *)
}.

Definition apply (l : t) (x : vec) : vec :=
  let y := dot x <$> weight l in
  match bias l with
  | Some b => vadd y b
  | None => y
  end.

Definition forward (l : t) (x : matrix) : matrix := apply l <$> x.

Definition init_shape (in_features out_features : nat) (with_bias : bool)
    (l : t) : Prop :=
  length (weight l) = out_features ∧
  Forall (λ r, length r = in_features) (weight l) ∧
  match bias l with
  | Some b => with_bias = true ∧ length b = out_features
  | None => with_bias = false
  end.

End Linear.

(** [nn.LayerNorm(n)]: every position, of [n] features, is normalised over
    its features with the biased variance, then scaled and shifted. *)
Module LayerNorm.

Record t : Type := {
  weight : vec;
  bias : vec
}.

Definition eps : R := 1e-5%R.

Definition mean (x : vec) : R := (Rsum x / INR (length x))%R.

Definition var (x : vec) : R :=
  (Rsum ((λ a, (a - mean x) * (a - mean x)) <$> x) / INR (length x))%R.

Definition apply (ln : t) (x : vec) : vec :=
  let xhat := (λ a, (a - mean x) / sqrt (var x + eps))%R <$> x in
  vadd (zip_with Rmult xhat (weight ln)) (bias ln).

Definition forward (ln : t) (x : matrix) : matrix := apply ln <$> x.

Definition init_shape (n : nat) (ln : t) : Prop :=
  length (weight ln) = n ∧ length (bias ln) = n.

End LayerNorm.

(** [nn.Embedding]: a row lookup; an id outside the table raises. *)
Module Embedding.

Abbreviation t := (list (list R)).

Definition lookup (table : t) (i : Z) : result vec :=
  if ((0 <=? i)%Z && (i <? Z.of_nat (length table))%Z)%bool
  then Ok (nth (Z.to_nat i) table [])
  else Err IndexError.

Definition forward (table : t) (ids : list Z) : result matrix :=
  comprehension (lookup table) ids.

Definition init_shape (num_embeddings embedding_dim : nat) (table : t) : Prop :=
  length table = num_embeddings ∧
  Forall (λ r, length r = embedding_dim) table.

End Embedding.

(** ** Hyperparameters (lines 6-17, 30) *)

Record config : Type := {
  blocksize : nat;
  n_embd : nat;
  n_head : nat;
  n_layer : nat;
  vocab_size : nat
}.

(** The values of the script, for the vocabulary of a training text. *)
Definition script_config (text : string) : config :=
  {| blocksize := 32; n_embd := 64; n_head := 4; n_layer := 4;
     vocab_size := Codec.vocab_size text |}.

(** The configurations the constructors accept and the forward pass runs on:
    [n_embd // n_head] is defined, the heads together fill the embedding
    width that [proj] expects, and [C ** -0.5] is defined. *)
Definition valid_config (cfg : config) : Prop :=
  0 < n_embd cfg ∧ 0 < n_head cfg ∧
  n_head cfg * (n_embd cfg / n_head cfg) = n_embd cfg.

(** ** One head of self-attention (lines 74-97) *)

Module Head.

Record t : Type := {
  key : Linear.t;
  query : Linear.t;
  value : Linear.t;
  tril : list (list nat)
}.

Definition forward (h : t) (x : matrix) : result matrix :=
  let T := length x in
  let C := width x in
  let k := Linear.forward (key h) x in
  let q := Linear.forward (query h) x in
  let wei := mscale (matmul q (transpose k)) (Rpower (INR C) (-0.5)) in
  wei ← torch.masked_fill wei (torch.eq_zero (torch.slice2 T (tril h)));
  let wei := F.softmax <$> wei in
  let wei := Dropout wei in
  let v := Linear.forward (value h) x in
  let out := matmul wei v in
  Ok out.

(** The values of [wei] along [forward]: after line 90 (raw affinities),
    after line 91 (masked) and after lines 92-93 (attention weights). *)
Definition affinity (h : t) (x : matrix) : matrix :=
  let C := width x in
  let k := Linear.forward (key h) x in
  let q := Linear.forward (query h) x in
  mscale (matmul q (transpose k)) (Rpower (INR C) (-0.5)).

Definition masked_affinity (h : t) (x : matrix) : result (list (list float_inf)) :=
  let T := length x in
  torch.masked_fill (affinity h x) (torch.eq_zero (torch.slice2 T (tril h))).

Definition attention (h : t) (x : matrix) : result matrix :=
  wei ← masked_affinity h x;
  Ok (Dropout (F.softmax <$> (wei : list (list float_inf)))).

Definition init_shape (cfg : config) (head_size : nat) (h : t) : Prop :=
  Linear.init_shape (n_embd cfg) head_size false (key h) ∧
  Linear.init_shape (n_embd cfg) head_size false (query h) ∧
  Linear.init_shape (n_embd cfg) head_size false (value h) ∧
  tril h = torch.tril (torch.ones (blocksize cfg) (blocksize cfg)).

End Head.

(** ** Multi-head self-attention (lines 100-111) *)

Module MultiHeadAttention.

Record t : Type := {
  heads : list Head.t;
  proj : Linear.t
}.

Definition forward (a : t) (x : matrix) : result matrix :=
  outs ← comprehension (λ h, Head.forward h x) (heads a);
  out ← torch.cat_last outs;
  let out := Dropout (Linear.forward (proj a) out) in
  Ok out.

Definition init_shape (cfg : config) (num_heads head_size : nat) (a : t) : Prop :=
  length (heads a) = num_heads ∧
  Forall (Head.init_shape cfg head_size) (heads a) ∧
  Linear.init_shape (n_embd cfg) (n_embd cfg) true (proj a).

End MultiHeadAttention.

(** ** Feed-forward (lines 114-126) *)

Module FeedFoward.

(** [net = nn.Sequential(Linear, ReLU, Linear, Dropout)] *)
Record t : Type := {
  net_0 : Linear.t;
  net_2 : Linear.t
}.

Definition ReLU (x : matrix) : matrix := (λ r : vec, Rmax 0 <$> r) <$> x.

Definition forward (f : t) (x : matrix) : matrix :=
  Dropout (Linear.forward (net_2 f) (ReLU (Linear.forward (net_0 f) x))).

Definition init_shape (n_embd : nat) (f : t) : Prop :=
  Linear.init_shape n_embd (4 * n_embd) true (net_0 f) ∧
  Linear.init_shape (4 * n_embd) n_embd true (net_2 f).

End FeedFoward.

(** ** Transformer block (lines 129-142) *)

Module Block.

Record t : Type := {
  sa : MultiHeadAttention.t;
  ffwd : FeedFoward.t;
  ln1 : LayerNorm.t;
  ln2 : LayerNorm.t
}.

Definition forward (b : t) (x : matrix) : result matrix :=
  a ← MultiHeadAttention.forward (sa b) (LayerNorm.forward (ln1 b) x);
  let x := madd x a in
  let x := madd x (FeedFoward.forward (ffwd b) (LayerNorm.forward (ln2 b) x)) in
  Ok x.

Definition init_shape (cfg : config) (b : t) : Prop :=
  let head_size := n_embd cfg / n_head cfg in
  MultiHeadAttention.init_shape cfg (n_head cfg) head_size (sa b) ∧
  FeedFoward.init_shape (n_embd cfg) (ffwd b) ∧
  LayerNorm.init_shape (n_embd cfg) (ln1 b) ∧
  LayerNorm.init_shape (n_embd cfg) (ln2 b).

End Block.

(** ** The language model (lines 147-199) *)

Module Bigram_Language_Model.

Record t : Type := {
  token_embedding_table : Embedding.t;
  position_embedding_table : Embedding.t;
  blocks : list Block.t;
  ln_f : LayerNorm.t;
  lm_head : Linear.t
}.

(** [nn.Sequential] over the list of blocks *)
Fixpoint Sequential (bs : list Block.t) (x : matrix) : result matrix :=
  match bs with
  | [] => Ok x
  | b :: bs' => y ← Block.forward b x; Sequential bs' y
  end.

(** [targets.view(n)]: the ids in row-major order, when there are [n]. *)
Definition view1 (targets : LongTensor) (n : nat) : result (list Z) :=
  if (shape targets).1 * (shape targets).2 =? n
  then Ok (concat (rows targets))
  else Err RuntimeError.

Definition forward (m : t) (idx : LongTensor) (targets : option LongTensor) :
    result (Tensor * option R) :=
  let '(B, T) := shape idx in
  token_embd ← comprehension (Embedding.forward (token_embedding_table m)) (rows idx);
  position_embd ← Embedding.forward (position_embedding_table m) (torch.arange T);
  let x := (λ e, madd e position_embd) <$> token_embd in
  x ← comprehension (Sequential (blocks m)) x;
  let x := LayerNorm.forward (ln_f m) <$> x in
  let logits := Linear.forward (lm_head m) <$> x in
  let logits_shape := (B, T, length (Linear.weight (lm_head m))) in
  match targets with
  | None =>
      let loss := None in
      Ok (Tensor3 logits_shape logits, loss)
  | Some targets =>
      let '(B, T, C) := logits_shape in
      let logits := concat logits in
      targets ← view1 targets (B * T);
      loss ← F.cross_entropy logits targets;
      Ok (Tensor2 (B * T, C) logits, Some loss)
  end.

(** The value of [logits] after line 172, before the loss is looked at. *)
Definition logits_3d (m : t) (idx : LongTensor) : result (list matrix) :=
  let T := (shape idx).2 in
  token_embd ← comprehension (Embedding.forward (token_embedding_table m)) (rows idx);
  position_embd ← Embedding.forward (position_embedding_table m) (torch.arange T);
  let x := (λ e, madd e position_embd) <$> (token_embd : list matrix) in
  x ← comprehension (Sequential (blocks m)) x;
  let x := LayerNorm.forward (ln_f m) <$> (x : list matrix) in
  Ok (Linear.forward (lm_head m) <$> x).

(** [idx[:, -blocksize:]]; with [blocksize = 0] the slice [-0:] is all of it. *)
Definition crop (blocksize : nat) (idx : LongTensor) : LongTensor :=
  let '(B, T) := shape idx in
  if blocksize =? 0 then idx
  else {| shape := (B, T `min` blocksize);
          rows := drop (T - blocksize) <$> rows idx |}.

(** [logits[:, -1, :]] *)
Definition last_step (logits : Tensor) : result matrix :=
  match logits with
  | Tensor3 (B, T, C) data =>
      if T =? 0 then Err IndexError else Ok ((λ x, List.last x []) <$> data)
  | Tensor2 _ _ => Err IndexError
  end.

(** [torch.cat((idx, idx_next), dim=1)] with [idx_next] of shape (B, 1). *)
Definition cat_next (idx : LongTensor) (idx_next : list Z) : LongTensor :=
  {| shape := ((shape idx).1, (shape idx).2 + 1);
     rows := zip_with (λ r t, r ++ [t]) (rows idx) idx_next |}.

Section Sampling.

(** [torch.multinomial(probs, num_samples=1)] draws from the global random
    generator: the generator state is threaded, the sampler is a parameter. *)
Variable rng : Type.
Variable multinomial : matrix → rng → list Z * rng.

Fixpoint generate (cfg : config) (m : t) (idx : LongTensor)
    (max_new_tokens : nat) (g : rng) : result LongTensor :=
  match max_new_tokens with
  | 0 => Ok idx
  | S n =>
      let idx_cond := crop (blocksize cfg) idx in
      out ← forward m idx_cond None;
      logits ← last_step out.1;
      let probs := (λ l, F.softmax (finite <$> l)) <$> logits in
      let '(idx_next, g) := multinomial probs g in
      let idx := cat_next idx idx_next in
      generate cfg m idx n g
  end.

(** What the library promises of the sampler: one class index per row of
    probabilities. *)
Definition multinomial_contract : Prop :=
  ∀ probs g,
    Forall2 (λ (p : vec) (c : Z), p ≠ [] → (0 ≤ c < Z.of_nat (length p))%Z)
      probs (multinomial probs g).1.

End Sampling.

Definition init_shape (cfg : config) (m : t) : Prop :=
  Embedding.init_shape (vocab_size cfg) (n_embd cfg) (token_embedding_table m) ∧
  Embedding.init_shape (blocksize cfg) (n_embd cfg) (position_embedding_table m) ∧
  length (blocks m) = n_layer cfg ∧
  Forall (Block.init_shape cfg) (blocks m) ∧
  LayerNorm.init_shape (n_embd cfg) (ln_f m) ∧
  Linear.init_shape (n_embd cfg) (vocab_size cfg) true (lm_head m).

End Bigram_Language_Model.

(** ** The script around the model: data, batches, evaluation, sampling
    (lines 38-69 and 226-227) *)

Module Script.

(** [data = torch.tensor(encode(text), dtype=torch.long)] *)
Definition data (text : string) : result (list Z) := Codec.encode text text.

(** [n = int(0.9*len(data))], in exact arithmetic the integer part of nine
    tenths of the length. *)
Definition split_point (len : nat) : nat := 9 * len / 10.

(** [train = data[:n]] and [test = data[n:]] *)
Definition train (data : list Z) : list Z := take (split_point (length data)) data.
Definition test (data : list Z) : list Z := drop (split_point (length data)) data.

(** [data[i:j]] of a one-dimensional tensor: the slice is clipped to the
    tensor. *)
Definition slice {A} (l : list A) (i j : nat) : list A := drop i (take j l).

(** [torch.stack(rs)] of one-dimensional tensors: refused for an empty list
    and for tensors of different lengths. *)
Definition stack (rs : list (list Z)) : result LongTensor :=
  match rs with
  | [] => Err RuntimeError
  | r :: rs' =>
      if forallb (λ r', length r' =? length r) rs'
      then Ok {| shape := (length rs, length r); rows := rs |}
      else Err RuntimeError
  end.

(** [loss.item()]; a loss of [None] has no [item] (the forward pass with
    targets never returns it). *)
Definition item (loss : option R) : result R :=
  match loss with
  | Some l => Ok l
  | None => Err RuntimeError
  end.

(** [losses.mean()] *)
Definition mean (losses : list R) : R := (Rsum losses / INR (length losses))%R.

(** [context = torch.zeros((1, 1), dtype=torch.long)] *)
Definition context : LongTensor := {| shape := (1, 1); rows := [[0%Z]] |}.

(** [t[0]] of a two-dimensional tensor *)
Definition first_row (t : LongTensor) : result (list Z) :=
  match rows t with
  | r :: _ => Ok r
  | [] => Err IndexError
  end.

Section Random.

(** The random generator is global in the script; its state is threaded
    here, and the two library samplers are parameters. *)
Variable rng : Type.
Variable randint : nat → nat → rng → list nat * rng.
Variable multinomial : matrix → rng → list Z * rng.

(** [torch.randint(high, (size,))]: an empty range is refused. *)
Definition torch_randint (high : Z) (size : nat) (g : rng) :
    result (list nat * rng) :=
  if (0 <? high)%Z then Ok (randint (Z.to_nat high) size g)
  else Err RuntimeError.

(** What the library promises of [randint]: [size] integers below [high]. *)
Definition randint_contract : Prop :=
  ∀ high size g,
    0 < high →
    length (randint high size g).1 = size ∧
    Forall (λ i, i < high) (randint high size g).1.

Section Globals.
Variable cfg : config.
Variable batchsize : nat.
Variable eval_iters : nat.
Variable train_data test_data : list Z.
Variable model : Bigram_Language_Model.t.

(** lines 47-54 *)
Definition get_batch (split : string) (g : rng) :
    result (LongTensor * LongTensor * rng) :=
  let data := if String.eqb split "train" then train_data else test_data in
  ig ← torch_randint (Z.of_nat (length data) - Z.of_nat (blocksize cfg))
         batchsize g;
  let ix := ig.1 in
  x ← stack ((λ i, slice data i (i + blocksize cfg)) <$> ix);
  y ← stack ((λ i, slice data (i + 1) (i + blocksize cfg + 1)) <$> ix);
  Ok (x, y, ig.2).

(** lines 62-66: the losses of [k] batches of one split, in order. *)
Fixpoint eval_losses (k : nat) (split : string) (g : rng) :
    result (list R * rng) :=
  match k with
  | 0 => Ok ([], g)
  | S k' =>
      b ← get_batch split g;
      let '(X, Y, g) := b in
      out ← Bigram_Language_Model.forward model X (Some Y);
      loss ← item out.2;
      rest ← eval_losses k' split g;
      Ok (loss :: rest.1, rest.2)
  end.

(** lines 61-67: the loop over the splits, filling the dictionary [out]. *)
Fixpoint estimate_splits (splits : list string) (out : gmap string R)
    (g : rng) : result (gmap string R * rng) :=
  match splits with
  | [] => Ok (out, g)
  | split :: splits' =>
      lg ← eval_losses eval_iters split g;
      estimate_splits splits' (<[split := mean lg.1]> out) lg.2
  end.

(** lines 57-69; [model.eval()] and [model.train()] only switch dropout,
    which is the identity for [dropout = 0.0]. *)
Definition estimate_loss (g : rng) : result (gmap string R * rng) :=
  estimate_splits ["train"; "test"]%string ∅ g.

(** lines 226-227, up to the [print]:
    [decode(model.generate(context, max_new_tokens)[0].tolist())] *)
Definition sample_text (text : string) (max_new_tokens : nat) (g : rng) :
    result string :=
  out ← Bigram_Language_Model.generate rng multinomial cfg model context
          max_new_tokens g;
  row ← first_row out;
  Codec.decode text row.

End Globals.

End Random.

End Script.

(** ** Closed forms used in the statements

    On inputs within the context length no layer raises; these are the
    values the layers then return, written without the error monad. *)

(** Row [i] of the affinities after the causal mask of a sequence of length
    [T]: the keys after position [i] are at minus infinity. *)
Definition masked (i T : nat) (r : vec) : list float_inf :=
  zip_with torch.fill r ((λ j, negb (j <=? i)) <$> seq 0 T).

Definition causal_mask (T : nat) : list (list bool) :=
  (λ i, (λ j, negb (j <=? i)) <$> seq 0 T) <$> seq 0 T.

Definition Head_weights (h : Head.t) (x : matrix) : matrix :=
  imap (λ i r, F.softmax (masked i (length x) r)) (Head.affinity h x).

Definition Head_out (h : Head.t) (x : matrix) : matrix :=
  matmul (Head_weights h x) (Linear.forward (Head.value h) x).

Definition MultiHeadAttention_out (a : MultiHeadAttention.t) (x : matrix) : matrix :=
  Linear.forward (MultiHeadAttention.proj a)
    (torch.cat_rows ((λ h, Head_out h x) <$> MultiHeadAttention.heads a)).

Definition Block_out (b : Block.t) (x : matrix) : matrix :=
  let x1 := madd x (MultiHeadAttention_out (Block.sa b)
                      (LayerNorm.forward (Block.ln1 b) x)) in
  madd x1 (FeedFoward.forward (Block.ffwd b) (LayerNorm.forward (Block.ln2 b) x1)).

Definition Sequential_out (bs : list Block.t) (x : matrix) : matrix :=
  fold_left (λ x b, Block_out b x) bs x.

(** The embedding of one row of token ids and the logits of that row. *)
Definition embed (m : Bigram_Language_Model.t) (ids : list Z) : matrix :=
  madd ((λ i, nth (Z.to_nat i) (Bigram_Language_Model.token_embedding_table m) [])
          <$> ids)
       ((λ p, nth p (Bigram_Language_Model.position_embedding_table m) [])
          <$> seq 0 (length ids)).

Definition row_logits (m : Bigram_Language_Model.t) (ids : list Z) : matrix :=
  Linear.forward (Bigram_Language_Model.lm_head m)
    (LayerNorm.forward (Bigram_Language_Model.ln_f m)
       (Sequential_out (Bigram_Language_Model.blocks m) (embed m ids))).

(** ** Valid inputs *)

Definition in_vocab (cfg : config) (t : Z) : Prop :=
  (0 ≤ t < Z.of_nat (vocab_size cfg))%Z.

(** A batch of token ids the forward pass is specified on: rectangular, no
    longer than the context length, every id in the vocabulary. *)
Definition valid_input (cfg : config) (idx : LongTensor) : Prop :=
  well_shaped idx ∧
  (shape idx).2 ≤ blocksize cfg ∧
  Forall (Forall (in_vocab cfg)) (rows idx).

(** ** The loss in the words of the specification

    The cross-entropy of one position is minus the logarithm of the
    probability the softmax of its logits gives to its target; the loss is
    the mean of it over the B*T positions of the batch. *)

Definition position_loss (logits : vec) (target : Z) : R :=
  (- ln (nth (Z.to_nat target) (F.softmax (finite <$> logits)) 0))%R.

Definition mean_cross_entropy (B T : nat) (logits : list matrix)
    (targets : list (list Z)) : R :=
  (Rsum (zip_with (λ l t, Rsum (zip_with position_loss l t)) logits targets)
   / INR (B * T))%R.


(** ** A small instance

    Two characters, embedding width 4, one head, one block and a context of
    two positions, with constant parameters. *)

Definition tiny_cfg : config :=
  {| blocksize := 2; n_embd := 4; n_head := 1; n_layer := 1; vocab_size := 2 |}.

Definition constant_linear (in_features out_features : nat) (with_bias : bool)
    (c : R) : Linear.t :=
  {| Linear.weight := replicate out_features (replicate in_features c);
     Linear.bias := if with_bias then Some (replicate out_features c) else None |}.

Definition unit_norm (n : nat) : LayerNorm.t :=
  {| LayerNorm.weight := replicate n 1%R; LayerNorm.bias := replicate n 0%R |}.

Definition tiny_head : Head.t :=
  {| Head.key := constant_linear 4 4 false 1;
     Head.query := constant_linear 4 4 false 1;
     Head.value := constant_linear 4 4 false 1;
     Head.tril := torch.tril (torch.ones 2 2) |}.

Definition tiny_block : Block.t :=
  {| Block.sa := {| MultiHeadAttention.heads := [tiny_head];
                    MultiHeadAttention.proj := constant_linear 4 4 true 1 |};
     Block.ffwd := {| FeedFoward.net_0 := constant_linear 4 16 true 1;
                      FeedFoward.net_2 := constant_linear 16 4 true 1 |};
     Block.ln1 := unit_norm 4;
     Block.ln2 := unit_norm 4 |}.

Definition tiny_model : Bigram_Language_Model.t :=
  {| Bigram_Language_Model.token_embedding_table := replicate 2 (replicate 4 1%R);
     Bigram_Language_Model.position_embedding_table := replicate 2 (replicate 4 1%R);
     Bigram_Language_Model.blocks := [tiny_block];
     Bigram_Language_Model.ln_f := unit_norm 4;
     Bigram_Language_Model.lm_head := constant_linear 4 2 true 1 |}.

Definition tiny_idx : LongTensor := {| shape := (1, 2); rows := [[0; 1]%Z] |}.
Definition tiny_idx' : LongTensor := {| shape := (1, 2); rows := [[0; 0]%Z] |}.
Definition tiny_targets : LongTensor := {| shape := (1, 2); rows := [[1; 0]%Z] |}.

(** A second instance with two heads of two features each, which differ in
    their parameters, and the block around them. *)

Definition duo_cfg : config :=
  {| blocksize := 2; n_embd := 4; n_head := 2; n_layer := 1; vocab_size := 2 |}.

Definition duo_head (c : R) : Head.t :=
  {| Head.key := constant_linear 4 2 false c;
     Head.query := constant_linear 4 2 false c;
     Head.value := constant_linear 4 2 false c;
     Head.tril := torch.tril (torch.ones 2 2) |}.

Definition duo_attention : MultiHeadAttention.t :=
  {| MultiHeadAttention.heads := [duo_head 1; duo_head 2];
     MultiHeadAttention.proj := constant_linear 4 4 true 1 |}.

Definition duo_block : Block.t :=
  {| Block.sa := duo_attention;
     Block.ffwd := Block.ffwd tiny_block;
     Block.ln1 := unit_norm 4;
     Block.ln2 := unit_norm 4 |}.

(** The small model with token embeddings and an output layer that tell
    the two tokens apart, and a batch of two different rows. *)

Definition keyed_model : Bigram_Language_Model.t :=
  {| Bigram_Language_Model.token_embedding_table :=
       [[1; 0; 0; 0]; [0; 1; 0; 0]]%R;
     Bigram_Language_Model.position_embedding_table :=
       Bigram_Language_Model.position_embedding_table tiny_model;
     Bigram_Language_Model.blocks := Bigram_Language_Model.blocks tiny_model;
     Bigram_Language_Model.ln_f := Bigram_Language_Model.ln_f tiny_model;
     Bigram_Language_Model.lm_head :=
       {| Linear.weight := [[1; 0; 0; 0]; [0; 1; 0; 0]]%R;
          Linear.bias := Some [0; 0]%R |} |}.

Definition tiny_batch : LongTensor :=
  {| shape := (2, 2); rows := [[0; 1]; [1; 0]]%Z |}.

(** ** The scaling of the affinities in the words of the specification

    The score of a query against a key is their dot product times
    1/sqrt(head_size). *)

Definition scaled_dot_product (head_size : nat) (q k : vec) : R :=
  (dot q k * / sqrt (INR head_size))%R.

(** A head of the script's sizes ([n_embd = 64], [head_size = 64 // 4 = 16])
    whose key and query projections keep the first feature only, and a
    sequence of one position. *)

Definition one_hot (n : nat) : vec := 1%R :: replicate (n - 1) 0%R.

Definition first_feature (in_features out_features : nat) : Linear.t :=
  {| Linear.weight :=
       one_hot in_features :: replicate (out_features - 1) (replicate in_features 0%R);
     Linear.bias := None |}.

Definition script_head : Head.t :=
  {| Head.key := first_feature 64 16;
     Head.query := first_feature 64 16;
     Head.value := first_feature 64 16;
     Head.tril := torch.tril (torch.ones 32 32) |}.

Definition script_x : matrix := [one_hot 64].

(** The shape predicates are decidable: they only count rows and entries. *)

#[global] Instance Linear_init_shape_dec i o b l :
  Decision (Linear.init_shape i o b l).
Proof. unfold Linear.init_shape. destruct (Linear.bias l); apply _. Defined.

#[global] Instance LayerNorm_init_shape_dec n l :
  Decision (LayerNorm.init_shape n l).
Proof. unfold LayerNorm.init_shape. apply _. Defined.

#[global] Instance Embedding_init_shape_dec n d (table : matrix) :
  Decision (Embedding.init_shape n d table).
Proof. unfold Embedding.init_shape. apply _. Defined.

#[global] Instance Head_init_shape_dec cfg hs h :
  Decision (Head.init_shape cfg hs h).
Proof. unfold Head.init_shape. apply _. Defined.

#[global] Instance MultiHeadAttention_init_shape_dec cfg nh hs a :
  Decision (MultiHeadAttention.init_shape cfg nh hs a).
Proof. unfold MultiHeadAttention.init_shape. apply _. Defined.

#[global] Instance FeedFoward_init_shape_dec n f :
  Decision (FeedFoward.init_shape n f).
Proof. unfold FeedFoward.init_shape. apply _. Defined.

#[global] Instance Block_init_shape_dec cfg b : Decision (Block.init_shape cfg b).
Proof. unfold Block.init_shape. apply _. Defined.

#[global] Instance Bigram_Language_Model_init_shape_dec cfg m :
  Decision (Bigram_Language_Model.init_shape cfg m).
Proof. unfold Bigram_Language_Model.init_shape. apply _. Defined.

#[global] Instance valid_config_dec cfg : Decision (valid_config cfg).
Proof. unfold valid_config. apply _. Defined.

#[global] Instance in_vocab_dec cfg t : Decision (in_vocab cfg t).
Proof. unfold in_vocab. apply _. Defined.

#[global] Instance well_shaped_dec idx : Decision (well_shaped idx).
Proof. unfold well_shaped. apply _. Defined.

#[global] Instance valid_input_dec cfg idx : Decision (valid_input cfg idx).
Proof. unfold valid_input. apply _. Defined.

(** ** Seeds of generation *)

(** A seed the generation loop is specified on: a rectangular batch of at
    least one row, every row holding at least one token, all in the
    vocabulary. *)
Definition valid_seed (cfg : config) (idx : LongTensor) : Prop :=
  well_shaped idx ∧
  0 < (shape idx).1 ∧ 0 < (shape idx).2 ∧
  Forall (Forall (in_vocab cfg)) (rows idx).

#[global] Instance valid_seed_dec cfg idx : Decision (valid_seed cfg idx).
Proof. unfold valid_seed. apply _. Defined.

(** A sampler without randomness, for the instances: it draws class 0 in
    every row and leaves the generator state, which is trivial, alone. *)
Definition first_class (probs : matrix) (g : unit) : list Z * unit :=
  ((λ _, 0%Z) <$> probs, g).

(** The probabilities the sampler is given in one iteration on [idx]: for
    every row, the softmax of the logits of the last of the positions kept
    by the crop. *)
Definition generate_probs (cfg : config) (m : Bigram_Language_Model.t)
    (idx : LongTensor) : matrix :=
  (λ M : matrix, F.softmax (finite <$> List.last M [])) <$>
  (row_logits m <$> rows (Bigram_Language_Model.crop (blocksize cfg) idx)).


(** A sampler of window starts without randomness, for the instances: it
    always draws the last admissible start. *)
Definition last_start (high size : nat) (g : unit) : list nat * unit :=
  (replicate size (high - 1), g).

(** [idx[:, :n]]: the first [n] columns of a batch of token ids. *)
Definition first_columns (n : nat) (idx : LongTensor) : LongTensor :=
  {| shape := ((shape idx).1, n `min` (shape idx).2);
     rows := take n <$> rows idx |}.

(** [idx[b:b+1]]: row [b] of a batch as a batch of one row. *)
Definition single_row (T : nat) (r : list Z) : LongTensor :=
  {| shape := (1, T); rows := [r] |}.

(** The small model with a head that ignores its input: all logits are 0. *)
Definition uniform_model : Bigram_Language_Model.t :=
  {| Bigram_Language_Model.token_embedding_table :=
       Bigram_Language_Model.token_embedding_table tiny_model;
     Bigram_Language_Model.position_embedding_table :=
       Bigram_Language_Model.position_embedding_table tiny_model;
     Bigram_Language_Model.blocks := Bigram_Language_Model.blocks tiny_model;
     Bigram_Language_Model.ln_f := Bigram_Language_Model.ln_f tiny_model;
     Bigram_Language_Model.lm_head := constant_linear 4 2 true 0 |}.

(** * Properties *)

(** ** Lists, sums and the error monad *)

Section Toolkit.

Lemma bind_Ok {A B} (f : A → result B) (r : result A) b :
  r ≫= f = Ok b ↔ ∃ a, r = Ok a ∧ f a = Ok b.
Proof.
  destruct r as [a|e]; simpl; split.
  - eauto.
  - by intros [a' [[= <-] Hf]].
  - discriminate.
  - by intros [a' [[=] _]].
Qed.

Lemma comprehension_fmap {A B} (f : A → B) (l : list A) :
  comprehension (λ a, Ok (f a)) l = Ok (f <$> l).
Proof. induction l as [|a l IH]; simpl; [done|]. by rewrite IH. Qed.

Lemma comprehension_ext {A B} (f g : A → result B) (l : list A) :
  Forall (λ a, f a = g a) l → comprehension f l = comprehension g l.
Proof.
  induction 1 as [|a l Ha _ IH]; simpl; [done|]. by rewrite Ha, IH.
Qed.

Lemma comprehension_Forall2 {A B} (f : A → result B) l bs :
  comprehension f l = Ok bs ↔ Forall2 (λ a b, f a = Ok b) l bs.
Proof.
  revert bs; induction l as [|a l IH]; intros bs; simpl.
  - split; [intros [= <-]; constructor | by inversion 1].
  - split.
    + destruct (f a) as [b|e] eqn:Hfa; simpl; [|discriminate].
      destruct (comprehension f l) as [bs'|e] eqn:Hl; simpl; [|discriminate].
      intros [= <-]. constructor; [done|]. by apply IH.
    + inversion 1 as [|? b ? bs' Hb Hbs]; subst. rewrite Hb; simpl.
      apply IH in Hbs. by rewrite Hbs.
Qed.

Lemma comprehension_take {A B} (f : A → result B) l bs n :
  comprehension f l = Ok bs → comprehension f (take n l) = Ok (take n bs).
Proof.
  rewrite !comprehension_Forall2. apply Forall2_take.
Qed.

Lemma comprehension_all_Ok {A B} (f : A → result B) (g : A → B) l :
  Forall (λ a, f a = Ok (g a)) l → comprehension f l = Ok (g <$> l).
Proof.
  intros Hall. rewrite <- comprehension_fmap. by apply comprehension_ext.
Qed.

Lemma Rsum_app (a b : vec) : Rsum (a ++ b) = (Rsum a + Rsum b)%R.
Proof. induction a as [|x a IH]; simpl; [lra|]. rewrite IH. lra. Qed.

Lemma Rsum_zeros (a : vec) : Forall (λ x, x = 0%R) a → Rsum a = 0%R.
Proof. induction 1 as [|x a -> _ IH]; simpl; [done|]. rewrite IH. lra. Qed.

Lemma Rsum_nonneg (a : vec) : Forall (λ x, (0 <= x)%R) a → (0 <= Rsum a)%R.
Proof. induction 1 as [|x a Hx _ IH]; simpl; lra. Qed.

Lemma Rsum_div (a : vec) (s : R) :
  Rsum ((λ x, x / s)%R <$> a) = (Rsum a / s)%R.
Proof.
  induction a as [|x a IH]; csimpl; [unfold Rdiv; lra|].
  rewrite IH. unfold Rdiv. lra.
Qed.

Lemma Rsum_take_zeros (a : vec) n :
  Forall (λ x, x = 0%R) (drop n a) → Rsum (take n a) = Rsum a.
Proof.
  intros Hz. rewrite <- (take_drop n a) at 2.
  rewrite Rsum_app, (Rsum_zeros _ Hz). lra.
Qed.

Lemma dot_take (a b : vec) n :
  Forall (λ x, x = 0%R) (drop n a) → dot (take n a) (take n b) = dot a b.
Proof.
  intros Hz. unfold dot. rewrite <- zip_with_take.
  apply Rsum_take_zeros.
  rewrite Forall_lookup in Hz. apply Forall_lookup. intros i z.
  rewrite lookup_drop, lookup_zip_with.
  destruct (a !! (n + i)) as [x|] eqn:Hx; simpl; [|done].
  destruct (b !! (n + i)) as [y|]; simpl; [|done].
  intros [= <-]. rewrite (Hz i x); [lra|]. by rewrite lookup_drop.
Qed.

Lemma take_imap {A B} (f : nat → A → B) (l : list A) n :
  take n (imap f l) = imap f (take n l).
Proof.
  apply list_eq. intros i.
  rewrite lookup_take, !list_lookup_imap, lookup_take.
  by destruct (decide (i < n)).
Qed.

Lemma imap_take_ext {A B} (f g : nat → A → B) (l : list A) n :
  (∀ i x, i < n → l !! i = Some x → f i x = g i x) →
  take n (imap f l) = take n (imap g l).
Proof.
  intros Hfg. rewrite !take_imap. apply imap_ext.
  intros i x Hi. apply lookup_take_Some in Hi as [Hx Hlt]. by apply Hfg.
Qed.

Lemma zip_with_seq_imap {A B C} (f : A → B → C) (g : nat → B) (l : list A) T :
  length l ≤ T →
  zip_with f l (g <$> seq 0 T) = imap (λ j a, f a (g j)) l.
Proof.
  intros Hlen. apply list_eq. intros i.
  rewrite lookup_zip_with, list_lookup_imap, list_lookup_fmap.
  destruct (l !! i) as [a|] eqn:Ha; simpl; [|done].
  apply lookup_lt_Some in Ha. rewrite lookup_seq_lt by lia. done.
Qed.

Lemma imap_replicate {A B} (f : nat → A → B) (n : nat) (x : A) :
  imap f (replicate n x) = (λ j, f j x) <$> seq 0 n.
Proof.
  apply list_eq. intros i.
  rewrite list_lookup_imap, list_lookup_fmap.
  destruct (decide (i < n)) as [Hi|Hi].
  - rewrite lookup_replicate_2, lookup_seq_lt by lia. done.
  - rewrite (proj1 (lookup_replicate_None n x i)) by lia.
    rewrite lookup_seq_ge by lia. done.
Qed.

End Toolkit.

(** ** The codec *)

Section CodecFacts.
Import Codec.

Lemma comprehension_length {A B} (f : A → result B) l bs :
  comprehension f l = Ok bs → length bs = length l.
Proof.
  revert bs; induction l as [|a l IH]; intros bs; simpl.
  - intros [= <-]; reflexivity.
  - destruct (f a) as [b|e]; simpl; [|discriminate].
    destruct (comprehension f l) as [bs'|e]; simpl; [|discriminate].
    intros [= <-]; simpl; f_equal; auto.
Qed.

Lemma comprehension_Ok_iff {A B} (f : A → result B) l :
  (∃ bs, comprehension f l = Ok bs) ↔ Forall (λ a, ∃ b, f a = Ok b) l.
Proof.
  induction l as [|a l IH]; simpl.
  - split; [constructor | eauto].
  - split.
    + intros [bs Hbs]. destruct (f a) as [b|e] eqn:Hfa; simpl in Hbs; [|discriminate].
      destruct (comprehension f l) as [bs'|e] eqn:Hl; simpl in Hbs; [|discriminate].
      constructor; [eauto | apply IH; eauto].
    + intros Hall. apply Forall_cons_1 in Hall as [[b Hb] Hl].
      apply IH in Hl as [bs Hbs]. rewrite Hb, Hbs; simpl; eauto.
Qed.

Lemma dict_fold_notin `{Countable K} {X V} (key : X → K) (val : X → V) items
    (d : gmap K V) k :
  k ∉ key <$> items →
  fold_left (λ d x, <[key x := val x]> d) items d !! k = d !! k.
Proof.
  revert d; induction items as [|x items IH]; intros d Hk; simpl in *; [done|].
  apply not_elem_of_cons in Hk as [Hne Hk].
  rewrite IH by done. by rewrite lookup_insert_ne.
Qed.

Lemma dict_fold_in `{Countable K} {X V} (key : X → K) (val : X → V) items
    (d : gmap K V) x :
  NoDup (key <$> items) → x ∈ items →
  fold_left (λ d x, <[key x := val x]> d) items d !! key x = Some (val x).
Proof.
  revert d; induction items as [|y items IH]; intros d Hnd Hin; simpl in *.
  - by apply elem_of_nil in Hin.
  - apply NoDup_cons in Hnd as [Hy Hnd].
    apply elem_of_cons in Hin as [->|Hin].
    + rewrite dict_fold_notin by done. by rewrite lookup_insert_eq.
    + by apply IH.
Qed.

Lemma dict_comprehension_in `{Countable K} {X V} (key : X → K) (val : X → V) items x :
  NoDup (key <$> items) → x ∈ items →
  dict_comprehension key val items !! key x = Some (val x).
Proof. apply dict_fold_in. Qed.

Lemma dict_comprehension_notin `{Countable K} {X V} (key : X → K) (val : X → V) items k :
  k ∉ key <$> items → dict_comprehension key val items !! k = None.
Proof. intros Hk. unfold dict_comprehension. by rewrite dict_fold_notin. Qed.

Example characters_hello_world :
  characters "hello world" = [" "; "d"; "e"; "h"; "l"; "o"; "r"; "w"]%char.
Proof. vm_compute. reflexivity. Qed.

Example encode_lower :
  encode "hello world" "lower" = Ok [4; 5; 7; 2; 6]%Z.
Proof. vm_compute. reflexivity. Qed.

Example encode_unknown_character :
  encode "hello world" "lowers" = Err KeyError.
Proof. vm_compute. reflexivity. Qed.

Example decode_lower :
  decode "hello world" [4; 5; 7; 2; 6]%Z = Ok "lower"%string.
Proof. vm_compute. reflexivity. Qed.

Example decode_unknown_id :
  decode "hello world" [4; 5; 8]%Z = Err KeyError.
Proof. vm_compute. reflexivity. Qed.

Lemma enumerate_from_lower {A} (l : list A) k i c :
  (i, c) ∈ enumerate_from k l → (k ≤ i)%Z.
Proof.
  revert k; induction l as [|x l IH]; intros k Hin; simpl in Hin.
  - by apply elem_of_nil in Hin.
  - apply elem_of_cons in Hin as [[= -> ->]|Hin]; [lia|].
    apply IH in Hin. lia.
Qed.

Lemma enumerate_from_keys_NoDup {A} (l : list A) k :
  NoDup (enumerate_from k l).*1.
Proof.
  revert k; induction l as [|x l IH]; intros k; simpl; constructor; [|apply IH].
  intros Hin. apply list_elem_of_fmap in Hin as [[i c] [Hi Hin]]; simpl in Hi; subst i.
  apply enumerate_from_lower in Hin. lia.
Qed.

Lemma enumerate_from_values {A} (l : list A) k :
  (enumerate_from k l).*2 = l.
Proof. revert k; induction l as [|x l IH]; intros k; simpl; [done|]. by rewrite IH. Qed.

Lemma characters_NoDup text : NoDup (characters text).
Proof.
  unfold characters. rewrite merge_sort_Permutation. apply NoDup_elements.
Qed.

Lemma characters_spec text c :
  c ∈ characters text ↔ In c (list_ascii_of_string text).
Proof.
  unfold characters. rewrite merge_sort_Permutation, elem_of_elements.
  rewrite elem_of_list_to_set. apply list_elem_of_In.
Qed.

(** The two dictionaries hold exactly the pairs of [enumerate(characters)]. *)
Lemma s_to_i_lookup text c i :
  s_to_i text !! c = Some i ↔ (i, c) ∈ enumerate (characters text).
Proof.
  unfold s_to_i.
  assert (Hnd : NoDup (enumerate (characters text)).*2).
  { unfold enumerate. rewrite enumerate_from_values. apply characters_NoDup. }
  split.
  - intros Hl. destruct (decide (c ∈ (enumerate (characters text)).*2)) as [Hin|Hnin].
    + apply list_elem_of_fmap in Hin as [[j c'] [Hc Hin]]; simpl in Hc; subst c'.
      rewrite (dict_comprehension_in snd fst _ (j, c) Hnd Hin) in Hl.
      simpl in Hl. by injection Hl as <-.
    + rewrite dict_comprehension_notin in Hl by done. discriminate.
  - intros Hin. apply (dict_comprehension_in snd fst _ (i, c) Hnd Hin).
Qed.

Lemma i_to_s_lookup text c i :
  i_to_s text !! i = Some c ↔ (i, c) ∈ enumerate (characters text).
Proof.
  unfold i_to_s, enumerate.
  pose proof (enumerate_from_keys_NoDup (characters text) 0) as Hnd.
  split.
  - intros Hl. destruct (decide (i ∈ (enumerate_from 0 (characters text)).*1)) as [Hin|Hnin].
    + apply list_elem_of_fmap in Hin as [[i' c'] [Hi Hin]]; simpl in Hi; subst i'.
      rewrite (dict_comprehension_in fst snd _ (i, c') Hnd Hin) in Hl.
      simpl in Hl. by injection Hl as <-.
    + rewrite dict_comprehension_notin in Hl by done. discriminate.
  - intros Hin. apply (dict_comprehension_in fst snd _ (i, c) Hnd Hin).
Qed.

Lemma s_to_i_is_Some text c :
  is_Some (s_to_i text !! c) ↔ c ∈ characters text.
Proof.
  split.
  - intros [i Hi]. apply s_to_i_lookup in Hi.
    apply (list_elem_of_fmap_2 snd) in Hi. unfold enumerate in Hi.
    by rewrite enumerate_from_values in Hi.
  - intros Hin. unfold enumerate.
    rewrite <- (enumerate_from_values (characters text) 0) in Hin.
    apply list_elem_of_fmap in Hin as [[i c'] [Hc Hin]]; simpl in Hc; subst c'.
    exists i. by apply s_to_i_lookup.
Qed.

End CodecFacts.

Section CodecClaims.
Import Codec.

Lemma getitem_Ok `{Countable K} {V} (d : gmap K V) k v :
  getitem d k = Ok v ↔ d !! k = Some v.
Proof. unfold getitem. destruct (d !! k); split; congruence. Qed.

Lemma getitem_Err `{Countable K} {V} (d : gmap K V) k e :
  getitem d k = Err e ↔ d !! k = None ∧ e = KeyError.
Proof.
  unfold getitem. destruct (d !! k); split.
  - discriminate.
  - intros [Hk _]; discriminate.
  - intros [= <-]; done.
  - intros [_ ->]; done.
Qed.

Lemma comprehension_Err {A B} (f : A → result B) l e :
  comprehension f l = Err e → ∃ a, In a l ∧ f a = Err e.
Proof.
  induction l as [|a l IH]; simpl; [discriminate|].
  destruct (f a) as [b|e'] eqn:Hfa; simpl.
  - destruct (comprehension f l) as [bs|e'']; simpl; [discriminate|].
    intros [= ->]. destruct (IH eq_refl) as [a' [Hin Ha']]; eauto.
  - intros [= ->]. eauto.
Qed.

Lemma comprehension_nth {A B} (f : A → result B) l bs k a :
  comprehension f l = Ok bs → nth_error l k = Some a →
  ∃ b, nth_error bs k = Some b ∧ f a = Ok b.
Proof.
  revert bs k; induction l as [|x l IH]; intros bs k; simpl.
  - intros _ Hk. destruct k; discriminate.
  - destruct (f x) as [b|e] eqn:Hfx; simpl; [|discriminate].
    destruct (comprehension f l) as [bs'|e]; simpl; [|discriminate].
    intros [= <-]. destruct k as [|k]; simpl.
    + intros [= <-]. eauto.
    + intros Hk. eapply IH; eauto.
Qed.

Lemma decode_after_encode text cs ids :
  comprehension (getitem (s_to_i text)) cs = Ok ids →
  comprehension (getitem (i_to_s text)) ids = Ok cs.
Proof.
  revert ids; induction cs as [|c cs IH]; intros ids; simpl.
  - by intros [= <-].
  - destruct (getitem (s_to_i text) c) as [i|e] eqn:Hc; simpl; [|discriminate].
    destruct (comprehension (getitem (s_to_i text)) cs) as [is'|e]; simpl; [|discriminate].
    intros [= <-]. simpl.
    apply getitem_Ok, s_to_i_lookup, i_to_s_lookup, getitem_Ok in Hc.
    rewrite Hc; simpl. by rewrite (IH is').
Qed.

(** C9. Codec round trip: a text made of characters of the trained vocabulary
    only is encoded without error, and decoding the ids gives the text back. *)
Theorem codec_round_trip (text s : string) :
  Forall (λ c, c ∈ characters text) (list_ascii_of_string s) →
  ∃ ids, encode text s = Ok ids ∧ decode text ids = Ok s.
Proof.
  intros Hvocab.
  assert (Henc : ∃ ids, encode text s = Ok ids).
  { apply comprehension_Ok_iff. eapply Forall_impl; [exact Hvocab|].
    intros c Hc. apply s_to_i_is_Some in Hc as [i Hi].
    exists i. by apply getitem_Ok. }
  destruct Henc as [ids Hids]. exists ids. split; [done|].
  unfold decode. rewrite (decode_after_encode text _ ids Hids). simpl.
  by rewrite string_of_list_ascii_of_string.
Qed.

Lemma codec_round_trip_witness :
  Forall (λ c, c ∈ characters "hello world") (list_ascii_of_string "lower") ∧
  ∃ ids, encode "hello world" "lower" = Ok ids ∧
         decode "hello world" ids = Ok "lower"%string.
Proof.
  assert (H : Forall (λ c, c ∈ characters "hello world")
                (list_ascii_of_string "lower")).
  { simpl.
    repeat (constructor;
      [apply characters_spec; simpl; repeat (first [left; reflexivity | right])|]).
    constructor. }
  split; [exact H | exact (codec_round_trip "hello world" "lower" H)].
Defined.

(** C10. [encode] is partial: it raises [KeyError], and nothing else, exactly
    on the strings that hold a character outside the vocabulary; it returns
    exactly on the strings over the vocabulary, and then with one id per
    character, in order, each the id of its character. *)
Theorem encode_partial (text s : string) :
  (∀ e, encode text s = Err e ↔
        e = KeyError ∧ ∃ c, In c (list_ascii_of_string s) ∧ c ∉ characters text) ∧
  ((∃ ids, encode text s = Ok ids) ↔
        Forall (λ c, c ∈ characters text) (list_ascii_of_string s)) ∧
  (∀ ids, encode text s = Ok ids →
        length ids = String.length s ∧
        ∀ k c, nth_error (list_ascii_of_string s) k = Some c →
               ∃ i, nth_error ids k = Some i ∧ s_to_i text !! c = Some i).
Proof.
  assert (Hok : (∃ ids, encode text s = Ok ids) ↔
                Forall (λ c, c ∈ characters text) (list_ascii_of_string s)).
  { unfold encode. rewrite comprehension_Ok_iff. apply Forall_iff. intros c.
    rewrite <- s_to_i_is_Some. unfold is_Some.
    split; intros [i Hi]; exists i; by apply getitem_Ok. }
  split; [|split; [exact Hok|]].
  - intros e. split.
    + intros Herr. apply comprehension_Err in Herr as [c [Hin Hc]].
      apply getitem_Err in Hc as [Hnone ->]. split; [done|].
      exists c. split; [done|]. rewrite <- s_to_i_is_Some, Hnone.
      by intros [? ?].
    + intros [-> [c [Hin Hc]]].
      destruct (encode text s) as [ids|e] eqn:Henc.
      * exfalso. apply Hc.
        assert (Hall : Forall (λ c, c ∈ characters text) (list_ascii_of_string s))
          by (apply Hok; eauto).
        rewrite Forall_forall in Hall. apply Hall. by apply list_elem_of_In.
      * apply comprehension_Err in Henc as [c' [_ Hc']].
        apply getitem_Err in Hc' as [_ ->]. done.
  - intros ids Henc. split.
    + rewrite (comprehension_length _ _ _ Henc).
      clear. induction s; simpl; auto.
    + intros k c Hk.
      destruct (comprehension_nth _ _ _ k c Henc Hk) as [i [Hi Hget]].
      exists i. split; [done|]. by apply getitem_Ok.
Qed.

End CodecClaims.
(** ** One head of attention *)

Section HeadFacts.

Lemma Head_forward_stages (h : Head.t) (x : matrix) :
  Head.forward h x =
  wei ← Head.attention h x; Ok (matmul wei (Linear.forward (Head.value h) x)).
Proof.
  unfold Head.forward, Head.attention, Head.masked_affinity, Head.affinity.
  by destruct (torch.masked_fill _ _).
Qed.

Lemma eq_zero_slice_tril (bs T : nat) :
  T ≤ bs →
  torch.eq_zero (torch.slice2 T (torch.tril (torch.ones bs bs))) = causal_mask T.
Proof.
  intros HT. unfold torch.eq_zero, torch.slice2, torch.tril, torch.ones, causal_mask.
  rewrite imap_replicate, <- list_fmap_compose, <- fmap_take, take_seq.
  rewrite <- list_fmap_compose. replace (T `min` bs) with T by lia.
  apply list_fmap_ext. intros _ i _. simpl.
  rewrite imap_replicate, <- fmap_take, take_seq, <- list_fmap_compose.
  replace (T `min` bs) with T by lia.
  apply list_fmap_ext. intros _ j _. simpl. by destruct (j <=? i).
Qed.

Lemma causal_mask_length T : length (causal_mask T) = T.
Proof. unfold causal_mask. by rewrite length_fmap, length_seq. Qed.

Lemma masked_fill_causal (wei : matrix) (T : nat) :
  length wei = T →
  torch.masked_fill wei (causal_mask T) = Ok (imap (λ i r, masked i T r) wei).
Proof.
  intros Hlen. unfold torch.masked_fill.
  rewrite causal_mask_length, Hlen, Nat.eqb_refl. f_equal.
  unfold causal_mask. rewrite zip_with_seq_imap by lia. done.
Qed.

Lemma affinity_length (h : Head.t) (x : matrix) :
  length (Head.affinity h x) = length x.
Proof.
  unfold Head.affinity, mscale, matmul, Linear.forward.
  by rewrite !length_fmap.
Qed.

Lemma Head_forward_Ok cfg hs (h : Head.t) (x : matrix) :
  Head.init_shape cfg hs h → length x ≤ blocksize cfg →
  Head.masked_affinity h x =
    Ok (imap (λ i r, masked i (length x) r) (Head.affinity h x)) ∧
  Head.attention h x = Ok (Head_weights h x) ∧
  Head.forward h x = Ok (Head_out h x).
Proof.
  intros (_ & _ & _ & Htril) HT.
  assert (Hm : Head.masked_affinity h x =
    Ok (imap (λ i r, masked i (length x) r) (Head.affinity h x))).
  { unfold Head.masked_affinity. rewrite Htril, eq_zero_slice_tril by done.
    apply masked_fill_causal, affinity_length. }
  assert (Ha : Head.attention h x = Ok (Head_weights h x)).
  { unfold Head.attention. rewrite Hm. simpl. unfold Dropout, Head_weights.
    by rewrite fmap_imap. }
  split; [done|]. split; [done|].
  rewrite Head_forward_stages, Ha. done.
Qed.

Lemma Head_out_length (h : Head.t) (x : matrix) :
  length (Head_out h x) = length x.
Proof.
  unfold Head_out, Head_weights, matmul.
  by rewrite length_fmap, length_imap, affinity_length.
Qed.

End HeadFacts.

(** ** Truncating the sequence commutes with a head *)

Section HeadPrefix.

Lemma nth_take {A} (l : list A) (c n : nat) (d : A) :
  c < n → nth c (take n l) d = nth c l d.
Proof. intros Hc. by rewrite !nth_lookup, lookup_take_lt. Qed.

Lemma width_take (A : matrix) n : 0 < n → width (take n A) = width A.
Proof. intros Hn. destruct A, n; simpl; done || lia. Qed.

Lemma column_take (A : matrix) c n : column c (take n A) = take n (column c A).
Proof. unfold column. by rewrite fmap_take. Qed.

Lemma transpose_take (A : matrix) n :
  0 < n → transpose (take n A) = take n <$> transpose A.
Proof.
  intros Hn. unfold transpose. rewrite width_take by done.
  rewrite <- list_fmap_compose. apply list_fmap_ext. intros _ c _. simpl.
  apply column_take.
Qed.

Lemma transpose_fmap_take (M : matrix) n :
  transpose (take n <$> M) = take n (transpose M).
Proof.
  unfold transpose. rewrite <- fmap_take, take_seq.
  assert (Hw : width (take n <$> M) = n `min` width M).
  { destruct M as [|r M]; simpl; [lia|]. by rewrite length_take. }
  rewrite Hw. apply list_fmap_ext. intros k c Hc.
  apply lookup_seq in Hc as [Hc Hk]. simpl in Hc. subst c. simpl.
  unfold column. rewrite <- list_fmap_compose.
  apply list_fmap_ext. intros _ r _. simpl. apply nth_take. lia.
Qed.

Lemma Linear_forward_take (l : Linear.t) (x : matrix) n :
  Linear.forward l (take n x) = take n (Linear.forward l x).
Proof. unfold Linear.forward. by rewrite fmap_take. Qed.

Lemma mscale_take (M : matrix) s n :
  mscale (take n (take n <$> M)) s = take n (take n <$> mscale M s).
Proof.
  unfold mscale. rewrite fmap_take, <- !list_fmap_compose. f_equal.
  apply list_fmap_ext. intros _ r _. simpl. by rewrite fmap_take.
Qed.

Lemma affinity_take (h : Head.t) (x : matrix) n :
  0 < n →
  Head.affinity h (take n x) = take n (take n <$> Head.affinity h x).
Proof.
  intros Hn. unfold Head.affinity. rewrite width_take by done.
  rewrite <- mscale_take. f_equal.
  rewrite !Linear_forward_take. unfold matmul.
  rewrite transpose_take, transpose_fmap_take by done.
  rewrite fmap_take, <- list_fmap_compose. f_equal.
  apply list_fmap_ext. intros _ a _. simpl. by rewrite fmap_take.
Qed.

Lemma masked_take (i T n : nat) (r : vec) :
  masked i (n `min` T) (take n r) = take n (masked i T r).
Proof. unfold masked. by rewrite zip_with_take, <- fmap_take, take_seq. Qed.

Lemma masked_lookup (i T j : nat) (r : vec) (a : float_inf) :
  masked i T r !! j = Some a →
  ∃ w, r !! j = Some w ∧ j < T ∧ a = if j <=? i then finite w else neg_inf.
Proof.
  unfold masked. rewrite lookup_zip_with, list_lookup_fmap.
  destruct (r !! j) as [w|]; simpl; [|done].
  destruct (seq 0 T !! j) as [j'|] eqn:Hj; simpl; [|done].
  apply lookup_seq in Hj as [Hj' Hj]. simpl in Hj'. subst j'. intros [= <-].
  exists w. split; [done|]. split; [done|]. by destruct (j <=? i).
Qed.

Lemma masked_tail (i T n : nat) (r : vec) :
  i < n → Forall (λ a, a = neg_inf) (drop n (masked i T r)).
Proof.
  intros Hi. apply Forall_lookup. intros j a. rewrite lookup_drop.
  intros Ha. apply masked_lookup in Ha as (w & _ & _ & ->).
  destruct (n + j <=? i) eqn:Hle; [|done].
  apply Nat.leb_le in Hle. lia.
Qed.

Lemma exp_inf_tail (row : list float_inf) n :
  Forall (λ a, a = neg_inf) (drop n row) →
  Forall (λ x, x = 0%R) (drop n (F.exp_inf <$> row)).
Proof.
  intros Hrow. rewrite <- fmap_drop. apply Forall_fmap.
  eapply Forall_impl; [exact Hrow|]. by intros a ->.
Qed.

Lemma softmax_length (row : list float_inf) :
  length (F.softmax row) = length row.
Proof. unfold F.softmax. by rewrite !length_fmap. Qed.

Lemma softmax_take (row : list float_inf) n :
  Forall (λ a, a = neg_inf) (drop n row) →
  F.softmax (take n row) = take n (F.softmax row).
Proof.
  intros Hrow. unfold F.softmax. rewrite !fmap_take.
  rewrite (Rsum_take_zeros _ n (exp_inf_tail _ _ Hrow)). done.
Qed.

Lemma softmax_tail (row : list float_inf) n :
  Forall (λ a, a = neg_inf) (drop n row) →
  Forall (λ x, x = 0%R) (drop n (F.softmax row)).
Proof.
  intros Hrow. unfold F.softmax. rewrite <- fmap_drop. apply Forall_fmap.
  eapply Forall_impl; [exact (exp_inf_tail _ _ Hrow)|].
  intros a ->. simpl. unfold Rdiv. apply Rmult_0_l.
Qed.

Lemma Head_out_take (h : Head.t) (x : matrix) n :
  Head_out h (take n x) = take n (Head_out h x).
Proof.
  destruct n as [|n]; [done|].
  unfold Head_out, Head_weights, matmul.
  rewrite affinity_take, Linear_forward_take, length_take by lia.
  rewrite transpose_take by lia.
  rewrite <- take_imap, imap_fmap, fmap_take, !fmap_imap.
  apply imap_take_ext. intros i r Hi Hr. cbv [compose].
  rewrite masked_take, softmax_take by (apply masked_tail; lia).
  rewrite <- list_fmap_compose. apply list_fmap_ext. intros _ col _. simpl.
  apply dot_take, softmax_tail, masked_tail. lia.
Qed.

End HeadPrefix.

(** ** Multi-head attention, blocks and the stack *)

Section LayerFacts.

Lemma cat_rows_take (ms : list matrix) n :
  torch.cat_rows (take n <$> ms) = take n (torch.cat_rows ms).
Proof.
  induction ms as [|m ms IH]; [by destruct n|].
  destruct ms as [|m' ms]; [done|].
  change (zip_with app (take n m) (torch.cat_rows (take n <$> m' :: ms)) =
          take n (zip_with app m (torch.cat_rows (m' :: ms)))).
  by rewrite IH, zip_with_take.
Qed.

Lemma cat_rows_length (ms : list matrix) T :
  ms ≠ [] → Forall (λ m, length m = T) ms → length (torch.cat_rows ms) = T.
Proof.
  intros Hne Hall. induction Hall as [|m ms Hm Hms IH]; [done|].
  destruct ms as [|m' ms]; [done|].
  change (length (zip_with app m (torch.cat_rows (m' :: ms))) = T).
  rewrite length_zip_with, IH by done. lia.
Qed.

Lemma LayerNorm_forward_take (ln : LayerNorm.t) (x : matrix) n :
  LayerNorm.forward ln (take n x) = take n (LayerNorm.forward ln x).
Proof. unfold LayerNorm.forward. by rewrite fmap_take. Qed.

Lemma LayerNorm_forward_length (ln : LayerNorm.t) (x : matrix) :
  length (LayerNorm.forward ln x) = length x.
Proof. unfold LayerNorm.forward. by rewrite length_fmap. Qed.

Lemma Linear_forward_length (l : Linear.t) (x : matrix) :
  length (Linear.forward l x) = length x.
Proof. unfold Linear.forward. by rewrite length_fmap. Qed.

Lemma FeedFoward_forward_take (f : FeedFoward.t) (x : matrix) n :
  FeedFoward.forward f (take n x) = take n (FeedFoward.forward f x).
Proof.
  unfold FeedFoward.forward, Dropout, FeedFoward.ReLU.
  by rewrite Linear_forward_take, fmap_take, Linear_forward_take.
Qed.

Lemma FeedFoward_forward_length (f : FeedFoward.t) (x : matrix) :
  length (FeedFoward.forward f x) = length x.
Proof.
  unfold FeedFoward.forward, Dropout, FeedFoward.ReLU.
  by rewrite Linear_forward_length, length_fmap, Linear_forward_length.
Qed.

Lemma madd_take (A B : matrix) n : madd (take n A) (take n B) = take n (madd A B).
Proof. unfold madd. by rewrite zip_with_take. Qed.

Lemma madd_length (A B : matrix) :
  length B = length A → length (madd A B) = length A.
Proof. intros HB. unfold madd. rewrite length_zip_with. lia. Qed.

Section OneAttention.
Context (cfg : config) (nh hs : nat) (a : MultiHeadAttention.t).
Hypothesis Hinit : MultiHeadAttention.init_shape cfg nh hs a.
Hypothesis Hnh : 0 < nh.

Lemma MultiHeadAttention_heads_nonempty : MultiHeadAttention.heads a ≠ [].
Proof using Hinit Hnh.
  destruct Hinit as (Hlen & _). intros Hnil. rewrite Hnil in Hlen. simpl in Hlen. lia.
Qed.

Lemma MultiHeadAttention_forward_Ok (x : matrix) :
  length x ≤ blocksize cfg →
  MultiHeadAttention.forward a x = Ok (MultiHeadAttention_out a x).
Proof using Hinit Hnh.
  intros HT. unfold MultiHeadAttention.forward, MultiHeadAttention_out.
  destruct Hinit as (Hlen & Hheads & _).
  rewrite (comprehension_all_Ok _ (λ h, Head_out h x)).
  2:{ eapply Forall_impl; [exact Hheads|]. intros h Hh.
      by apply (Head_forward_Ok cfg hs h x Hh HT). }
  simpl. pose proof MultiHeadAttention_heads_nonempty as Hne.
  destruct (MultiHeadAttention.heads a) as [|h0 hs0]; [done|]. done.
Qed.

Lemma MultiHeadAttention_out_length (x : matrix) :
  length (MultiHeadAttention_out a x) = length x.
Proof using Hinit Hnh.
  unfold MultiHeadAttention_out. rewrite Linear_forward_length.
  apply cat_rows_length.
  - pose proof MultiHeadAttention_heads_nonempty as Hne.
    by destruct (MultiHeadAttention.heads a).
  - apply Forall_fmap, Forall_forall. intros h _. apply Head_out_length.
Qed.

End OneAttention.

Lemma MultiHeadAttention_out_take (a : MultiHeadAttention.t) (x : matrix) n :
  MultiHeadAttention_out a (take n x) = take n (MultiHeadAttention_out a x).
Proof.
  unfold MultiHeadAttention_out.
  rewrite <- Linear_forward_take, <- cat_rows_take, <- list_fmap_compose.
  do 2 f_equal. apply list_fmap_ext. intros _ h _. apply Head_out_take.
Qed.

Lemma Block_out_take (b : Block.t) (x : matrix) n :
  Block_out b (take n x) = take n (Block_out b x).
Proof.
  unfold Block_out.
  rewrite !LayerNorm_forward_take, MultiHeadAttention_out_take, madd_take.
  by rewrite LayerNorm_forward_take, FeedFoward_forward_take, madd_take.
Qed.

Lemma Sequential_out_take (bs : list Block.t) (x : matrix) n :
  Sequential_out bs (take n x) = take n (Sequential_out bs x).
Proof.
  revert x. induction bs as [|b bs IH]; intros x; [done|]. simpl.
  by rewrite Block_out_take, IH.
Qed.

Section Stack.
Context (cfg : config).
Hypothesis Hnh : 0 < n_head cfg.

Lemma Block_out_length (b : Block.t) (x : matrix) :
  Block.init_shape cfg b → length (Block_out b x) = length x.
Proof using Hnh.
  intros (Hsa & _). unfold Block_out.
  rewrite !madd_length; try done.
  - by rewrite (MultiHeadAttention_out_length cfg _ _ _ Hsa Hnh),
      LayerNorm_forward_length.
  - rewrite FeedFoward_forward_length, LayerNorm_forward_length, madd_length; [done|].
    by rewrite (MultiHeadAttention_out_length cfg _ _ _ Hsa Hnh),
      LayerNorm_forward_length.
Qed.

Lemma Block_forward_Ok (b : Block.t) (x : matrix) :
  Block.init_shape cfg b → length x ≤ blocksize cfg →
  Block.forward b x = Ok (Block_out b x).
Proof using Hnh.
  intros (Hsa & _) HT. unfold Block.forward, Block_out.
  rewrite (MultiHeadAttention_forward_Ok cfg _ _ _ Hsa Hnh)
    by (by rewrite LayerNorm_forward_length).
  done.
Qed.

Lemma Sequential_out_length (bs : list Block.t) (x : matrix) :
  Forall (Block.init_shape cfg) bs → length (Sequential_out bs x) = length x.
Proof using Hnh.
  intros Hall. revert x. induction Hall as [|b bs Hb _ IH]; intros x; [done|].
  simpl. by rewrite IH, Block_out_length.
Qed.

Lemma Sequential_Ok (bs : list Block.t) (x : matrix) :
  Forall (Block.init_shape cfg) bs → length x ≤ blocksize cfg →
  Bigram_Language_Model.Sequential bs x = Ok (Sequential_out bs x).
Proof using Hnh.
  intros Hall. revert x. induction Hall as [|b bs Hb _ IH]; intros x HT; [done|].
  simpl. rewrite Block_forward_Ok by done. simpl.
  apply IH. by rewrite Block_out_length.
Qed.

End Stack.

End LayerFacts.

(** ** The forward pass of the model *)

Section ForwardFacts.
Context (cfg : config) (m : Bigram_Language_Model.t).
Hypothesis Hinit : Bigram_Language_Model.init_shape cfg m.

Lemma lookup_Ok (table : matrix) (i : Z) :
  (0 ≤ i < Z.of_nat (length table))%Z →
  Embedding.lookup table i = Ok (nth (Z.to_nat i) table []).
Proof.
  intros Hi. unfold Embedding.lookup.
  destruct (Z.leb_spec 0 i); [|lia].
  destruct (Z.ltb_spec i (Z.of_nat (length table))); [|lia]. done.
Qed.

Lemma lookup_Err (table : matrix) (i : Z) :
  ¬ (0 ≤ i < Z.of_nat (length table))%Z →
  Embedding.lookup table i = Err IndexError.
Proof.
  intros Hi. unfold Embedding.lookup.
  destruct (Z.leb_spec 0 i); [|done].
  destruct (Z.ltb_spec i (Z.of_nat (length table))); [lia|done].
Qed.

Lemma lookup_Err_inv (table : matrix) (i : Z) e :
  Embedding.lookup table i = Err e →
  e = IndexError ∧ ¬ (0 ≤ i < Z.of_nat (length table))%Z.
Proof.
  unfold Embedding.lookup.
  destruct (Z.leb_spec 0 i); simpl.
  - destruct (Z.ltb_spec i (Z.of_nat (length table))); [done|].
    intros [= <-]. split; [done|lia].
  - intros [= <-]. split; [done|lia].
Qed.

Lemma token_embedding_Ok (ids : list Z) :
  Forall (in_vocab cfg) ids →
  Embedding.forward (Bigram_Language_Model.token_embedding_table m) ids =
  Ok ((λ i, nth (Z.to_nat i) (Bigram_Language_Model.token_embedding_table m) [])
        <$> ids).
Proof using Hinit.
  intros Hids. destruct Hinit as ((Hlen & _) & _).
  apply comprehension_all_Ok. eapply Forall_impl; [exact Hids|].
  intros i Hi. apply lookup_Ok. rewrite Hlen. exact Hi.
Qed.

Lemma position_embedding_Ok (T : nat) :
  T ≤ blocksize cfg →
  Embedding.forward (Bigram_Language_Model.position_embedding_table m)
    (torch.arange T) =
  Ok ((λ p, nth p (Bigram_Language_Model.position_embedding_table m) [])
        <$> seq 0 T).
Proof using Hinit.
  intros HT. destruct Hinit as (_ & (Hlen & _) & _).
  unfold Embedding.forward, torch.arange.
  rewrite (comprehension_all_Ok _
    (λ i, nth (Z.to_nat i) (Bigram_Language_Model.position_embedding_table m) [])).
  - rewrite <- list_fmap_compose. f_equal. apply list_fmap_ext.
    intros _ p _. simpl. by rewrite Nat2Z.id.
  - apply Forall_fmap, Forall_forall. intros p Hp. simpl.
    apply elem_of_seq in Hp. apply lookup_Ok. lia.
Qed.

Lemma embed_length (ids : list Z) : length (embed m ids) = length ids.
Proof.
  unfold embed, madd. rewrite length_zip_with, !length_fmap, length_seq. lia.
Qed.

Lemma embed_take (ids : list Z) n : embed m (take n ids) = take n (embed m ids).
Proof.
  unfold embed. rewrite <- madd_take, <- !fmap_take, take_seq, length_take. done.
Qed.

Lemma row_logits_take (ids : list Z) n :
  row_logits m (take n ids) = take n (row_logits m ids).
Proof.
  unfold row_logits.
  by rewrite embed_take, Sequential_out_take, LayerNorm_forward_take,
    Linear_forward_take.
Qed.

Lemma Linear_apply_length (l : Linear.t) i o b (x : vec) :
  Linear.init_shape i o b l → length (Linear.apply l x) = o.
Proof.
  intros (Hw & _ & Hb). unfold Linear.apply.
  destruct (Linear.bias l) as [bv|].
  - destruct Hb as [_ Hb]. unfold vadd.
    rewrite length_zip_with, length_fmap. lia.
  - by rewrite length_fmap.
Qed.

Lemma forward_stages (idx : LongTensor) (targets : option LongTensor) :
  Bigram_Language_Model.forward m idx targets =
  logits ← Bigram_Language_Model.logits_3d m idx;
  let '(B, T) := shape idx in
  let C := length (Linear.weight (Bigram_Language_Model.lm_head m)) in
  match targets with
  | None => Ok (Tensor3 (B, T, C) logits, None)
  | Some targets =>
      targets ← Bigram_Language_Model.view1 targets (B * T);
      loss ← F.cross_entropy (concat logits) targets;
      Ok (Tensor2 (B * T, C) (concat logits), Some loss)
  end.
Proof.
  unfold Bigram_Language_Model.forward, Bigram_Language_Model.logits_3d.
  destruct (shape idx) as [B T].
  destruct (comprehension (Embedding.forward _) (rows idx)) as [te|e]; [|done].
  simpl.
  destruct (Embedding.forward _ (torch.arange T)) as [pe|e]; [|done].
  simpl.
  by destruct (comprehension (Bigram_Language_Model.Sequential _) _) as [x|e].
Qed.

Section ValidConfig.
Hypothesis Hcfg : valid_config cfg.

Lemma row_logits_length (ids : list Z) :
  length (row_logits m ids) = length ids.
Proof using Hinit Hcfg.
  destruct Hinit as (_ & _ & _ & Hblocks & _). destruct Hcfg as (_ & Hnh & _).
  unfold row_logits.
  rewrite Linear_forward_length, LayerNorm_forward_length.
  rewrite (Sequential_out_length cfg Hnh) by done. apply embed_length.
Qed.

Lemma row_logits_width (ids : list Z) :
  Forall (λ v : vec, length v = vocab_size cfg) (row_logits m ids).
Proof using Hinit.
  destruct Hinit as (_ & _ & _ & _ & _ & Hhead).
  unfold row_logits, Linear.forward. apply Forall_fmap, Forall_forall.
  intros v _. simpl. by eapply Linear_apply_length.
Qed.

(** On a valid batch the layers up to the logits return, with the logits of
    every row. *)
Lemma logits_3d_Ok (idx : LongTensor) :
  valid_input cfg idx →
  Bigram_Language_Model.logits_3d m idx = Ok (row_logits m <$> rows idx).
Proof using Hinit Hcfg.
  intros ((HB & HT) & Hbs & Hvocab). unfold Bigram_Language_Model.logits_3d.
  rewrite (comprehension_all_Ok _
    (λ r, (λ i, nth (Z.to_nat i) (Bigram_Language_Model.token_embedding_table m) [])
            <$> r)).
  2:{ eapply Forall_impl; [exact Hvocab|]. intros r Hr. by apply token_embedding_Ok. }
  simpl. rewrite position_embedding_Ok by done. simpl.
  rewrite <- list_fmap_compose.
  destruct Hinit as (_ & _ & _ & Hblocks & _). destruct Hcfg as (_ & Hnh & _).
  rewrite (comprehension_all_Ok _
    (Sequential_out (Bigram_Language_Model.blocks m))).
  2:{ apply Forall_fmap, Forall_forall. intros r Hr. simpl.
      apply (Sequential_Ok cfg Hnh); [done|].
      unfold madd. rewrite length_zip_with, !length_fmap, length_seq. lia. }
  simpl. rewrite <- !list_fmap_compose. f_equal.
  apply Forall_fmap_ext. rewrite Forall_forall in HT |- *.
  intros r Hr. simpl. unfold row_logits, embed. by rewrite (HT r Hr).
Qed.

End ValidConfig.

End ForwardFacts.

(** ** The small instance is well formed *)

Section Instance.

Example causal_mask_of_two :
  torch.eq_zero (torch.slice2 2 (torch.tril (torch.ones 3 3))) =
  [[false; true]; [false; false]].
Proof. reflexivity. Qed.

Example crop_keeps_the_last_tokens :
  Bigram_Language_Model.crop 2 {| shape := (1, 3); rows := [[0; 1; 0]%Z] |} =
  {| shape := (1, 2); rows := [[1; 0]%Z] |}.
Proof. reflexivity. Qed.

Lemma constant_linear_init_shape i o b c :
  Linear.init_shape i o b (constant_linear i o b c).
Proof.
  unfold Linear.init_shape, constant_linear; simpl.
  rewrite length_replicate. split; [done|]. split.
  - apply Forall_replicate. by rewrite length_replicate.
  - destruct b; [|done]. by rewrite length_replicate.
Qed.

Lemma tiny_cfg_valid : valid_config tiny_cfg.
Proof. by apply (bool_decide_unpack _). Qed.

Lemma tiny_model_init_shape : Bigram_Language_Model.init_shape tiny_cfg tiny_model.
Proof.
  repeat split; simpl;
    repeat (first [ apply constant_linear_init_shape | done
                  | constructor ]).
Qed.

Lemma tiny_idx_valid : valid_input tiny_cfg tiny_idx.
Proof. by apply (bool_decide_unpack _). Qed.

Lemma tiny_idx'_valid : valid_input tiny_cfg tiny_idx'.
Proof.
  unfold valid_input, well_shaped, in_vocab; simpl.
  repeat split; repeat constructor; simpl; lia.
Qed.

Lemma tiny_targets_valid : valid_input tiny_cfg tiny_targets.
Proof.
  unfold valid_input, well_shaped, in_vocab; simpl.
  repeat split; repeat constructor; simpl; lia.
Qed.

End Instance.

(** ** Flattening and the loss *)

Section LossFacts.

Lemma concat_length_uniform {A} (ls : list (list A)) T :
  Forall (λ l, length l = T) ls → length (concat ls) = length ls * T.
Proof.
  induction 1 as [|l ls Hl _ IH]; simpl; [done|].
  rewrite length_app, IH, Hl. lia.
Qed.

Lemma Forall_concat {A} (P : A → Prop) (ls : list (list A)) :
  Forall (Forall P) ls → Forall P (concat ls).
Proof.
  induction 1 as [|l ls Hl _ IH]; simpl; [constructor|]. by apply Forall_app.
Qed.

Lemma Rsum_zip_with_concat {A B} (f : A → B → R) (L : list (list A))
    (K : list (list B)) :
  Forall2 (λ a b, length a = length b) L K →
  Rsum (zip_with f (concat L) (concat K)) =
  Rsum (zip_with (λ a b, Rsum (zip_with f a b)) L K).
Proof.
  induction 1 as [|a b L K Hab _ IH]; simpl; [done|].
  rewrite zip_with_app by done. by rewrite Rsum_app, IH.
Qed.

Lemma nll_Ok (l : vec) (t : Z) :
  (0 ≤ t < Z.of_nat (length l))%Z → F.nll l t = Ok (Some (position_loss l t)).
Proof.
  intros Ht. unfold F.nll, F.ignore_index.
  destruct (Z.eqb_spec t (-100)); [lia|].
  destruct (Z.leb_spec 0 t); [|lia].
  destruct (Z.ltb_spec t (Z.of_nat (length l))); [|lia]. done.
Qed.

Lemma omap_id_Some {A B} (f : A → B) (l : list A) :
  omap (λ o : option B, o) ((λ a, Some (f a)) <$> l) = f <$> l.
Proof. induction l as [|a l IH]; [done|]. csimpl. by rewrite IH. Qed.

Lemma cross_entropy_Ok (logits : matrix) (targets : list Z) V :
  length logits = length targets →
  Forall (λ l : vec, length l = V) logits →
  Forall (λ t, (0 ≤ t < Z.of_nat V)%Z) targets →
  F.cross_entropy logits targets =
  Ok (Rsum (zip_with position_loss logits targets) / INR (length logits))%R.
Proof.
  intros Hlen Hw Ht. unfold F.cross_entropy.
  rewrite Hlen, Nat.eqb_refl.
  rewrite (comprehension_all_Ok _
             (λ lt : vec * Z, Some (position_loss lt.1 lt.2))).
  - cbn [mbind result_mbind result_bind].
    rewrite (omap_id_Some (λ lt : vec * Z, position_loss lt.1 lt.2)).
    rewrite length_fmap, length_zip_with.
    replace (length logits `min` length targets) with (length targets) by lia.
    do 3 f_equal. clear. revert targets.
    induction logits as [|l logits IH]; intros [|t targets]; simpl; try done.
    by rewrite IH.
  - apply Forall_forall. intros [l t] Hin. simpl.
    apply elem_of_zip_with in Hin as (l' & t' & [= <- <-] & Hl & Htg).
    rewrite Forall_forall in Hw. rewrite Forall_forall in Ht.
    apply nll_Ok. rewrite (Hw l Hl). by apply Ht.
Qed.



End LossFacts.

(** ** The affinities of a head, entry by entry *)

Section AffinityFacts.

Lemma fmap_nth_seq {A} (l : list A) (d : A) :
  (λ c, nth c l d) <$> seq 0 (length l) = l.
Proof.
  apply list_eq. intros i. rewrite list_lookup_fmap.
  destruct (decide (i < length l)) as [Hi|Hi].
  - rewrite lookup_seq_lt by done. simpl.
    destruct (lookup_lt_is_Some_2 l i Hi) as [a Ha].
    by rewrite (nth_lookup_Some _ _ _ _ Ha), Ha.
  - rewrite lookup_seq_ge by lia. simpl. symmetry. apply lookup_ge_None. lia.
Qed.

Lemma transpose_length (M : matrix) : length (transpose M) = width M.
Proof. unfold transpose. by rewrite length_fmap, length_seq. Qed.

Lemma transpose_transpose (M : matrix) (w : nat) :
  0 < w → M ≠ [] → Forall (λ r, length r = w) M →
  transpose (transpose M) = M.
Proof.
  intros Hw Hne Hrect.
  assert (HwM : width M = w).
  { destruct M as [|r M]; [done|]. simpl. by apply Forall_inv in Hrect. }
  assert (Hwt : width (transpose M) = length M).
  { unfold transpose. rewrite HwM. destruct w as [|w]; [lia|]. simpl.
    unfold column. by rewrite length_fmap. }
  unfold transpose at 1. rewrite Hwt.
  transitivity ((λ c, nth c M []) <$> seq 0 (length M));
    [|apply fmap_nth_seq].
  apply list_fmap_ext. intros k i Hi.
  apply lookup_seq in Hi as [Hi Hk]. simpl in Hi. subst i.
  destruct (lookup_lt_is_Some_2 M k Hk) as [r Hr].
  rewrite (nth_lookup_Some _ _ _ _ Hr).
  rewrite Forall_lookup in Hrect. specialize (Hrect k r Hr).
  unfold column, transpose. rewrite <- list_fmap_compose, HwM.
  transitivity ((λ c, nth c r 0%R) <$> seq 0 (length r));
    [|apply fmap_nth_seq].
  rewrite Hrect. apply list_fmap_ext. intros _ c _. simpl.
  unfold column. rewrite nth_lookup, list_lookup_fmap, Hr. simpl. done.
Qed.

Lemma matmul_transpose (A K : matrix) (w : nat) :
  0 < w → K ≠ [] → Forall (λ r, length r = w) K →
  matmul A (transpose K) = (λ a, dot a <$> K) <$> A.
Proof.
  intros Hw Hne Hrect. unfold matmul.
  by rewrite (transpose_transpose K w).
Qed.

Lemma pow_neg_half (C : nat) :
  0 < C → Rpower (INR C) (-0.5) = (/ sqrt (INR C))%R.
Proof.
  intros HC. replace (-0.5)%R with (- / 2)%R by lra.
  rewrite Rpower_Ropp, Rpower_sqrt; [done|]. by apply lt_0_INR.
Qed.

(** What line 90 computes: the dot products of the queries with the keys,
    times [C ** -0.5] for the width [C] of the input [x]. *)
Lemma affinity_entries cfg hs (h : Head.t) (x : matrix) :
  Head.init_shape cfg hs h → 0 < hs → x ≠ [] →
  Head.affinity h x =
  (λ xi, (λ xj, dot (Linear.apply (Head.query h) xi) (Linear.apply (Head.key h) xj)
                * Rpower (INR (width x)) (-0.5))%R <$> x) <$> x.
Proof.
  intros (Hkey & _) Hhs Hne. unfold Head.affinity, mscale.
  rewrite (matmul_transpose _ _ hs); [| done | by destruct x |].
  - unfold Linear.forward. rewrite <- !list_fmap_compose.
    apply list_fmap_ext. intros _ xi _. simpl.
    rewrite <- !list_fmap_compose. done.
  - unfold Linear.forward. apply Forall_fmap, Forall_forall.
    intros xj _. simpl. by eapply Linear_apply_length.
Qed.

Lemma affinity_row_length cfg hs (h : Head.t) (x : matrix) (r : vec) i :
  Head.init_shape cfg hs h → 0 < hs →
  Head.affinity h x !! i = Some r → length r = length x.
Proof.
  intros Hh Hhs Hr. destruct x as [|x0 x]; [done|].
  rewrite (affinity_entries cfg hs h (x0 :: x) Hh Hhs) in Hr by done.
  rewrite list_lookup_fmap in Hr.
  apply fmap_Some in Hr as (xi & _ & ->). by rewrite length_fmap.
Qed.

End AffinityFacts.

(** ** Results of the forward pass *)

Section ForwardResults.
Context (cfg : config) (m : Bigram_Language_Model.t).
Hypothesis Hinit : Bigram_Language_Model.init_shape cfg m.
Hypothesis Hcfg : valid_config cfg.

Lemma forward_None_Ok (idx : LongTensor) :
  valid_input cfg idx →
  Bigram_Language_Model.forward m idx None =
  Ok (Tensor3 ((shape idx).1, (shape idx).2, vocab_size cfg)
        (row_logits m <$> rows idx), None).
Proof using Hinit Hcfg.
  intros Hvalid. rewrite forward_stages.
  rewrite (logits_3d_Ok cfg m Hinit Hcfg idx Hvalid). simpl.
  destruct (shape idx) as [B T]. simpl.
  destruct Hinit as (_ & _ & _ & _ & _ & (Hw & _)). by rewrite Hw.
Qed.

Lemma row_logits_shape (idx : LongTensor) :
  valid_input cfg idx →
  length (row_logits m <$> rows idx) = (shape idx).1 ∧
  Forall (λ M : matrix, length M = (shape idx).2 ∧
                        Forall (λ v : vec, length v = vocab_size cfg) M)
    (row_logits m <$> rows idx).
Proof using Hinit Hcfg.
  intros ((HB & HT) & _). rewrite length_fmap. split; [done|].
  apply Forall_fmap. eapply Forall_impl; [exact HT|].
  intros r Hr. simpl. split.
  - by rewrite (row_logits_length cfg m Hinit Hcfg).
  - by apply (row_logits_width cfg m Hinit).
Qed.

Lemma forward_Some_Ok (idx targets : LongTensor) :
  valid_input cfg idx → valid_input cfg targets → shape targets = shape idx →
  Bigram_Language_Model.forward m idx (Some targets) =
  Ok (Tensor2 ((shape idx).1 * (shape idx).2, vocab_size cfg)
        (concat (row_logits m <$> rows idx)),
      Some (mean_cross_entropy (shape idx).1 (shape idx).2
              (row_logits m <$> rows idx) (rows targets))).
Proof using Hinit Hcfg.
  intros Hvalid Htargets Hshape. rewrite forward_stages.
  rewrite (logits_3d_Ok cfg m Hinit Hcfg idx Hvalid). simpl.
  destruct (row_logits_shape idx Hvalid) as (HlenL & HL).
  destruct Htargets as ((HBt & HTt) & _ & Hvocab). rewrite Hshape in HBt, HTt.
  destruct (shape idx) as [B T] eqn:Hidx. simpl in *.
  unfold Bigram_Language_Model.view1. rewrite Hshape. simpl.
  rewrite Nat.eqb_refl. simpl.
  assert (HlenC : length (concat (row_logits m <$> rows idx)) = B * T).
  { rewrite (concat_length_uniform _ T), HlenL; [done|].
    eapply Forall_impl; [exact HL|]. by intros M [HM _]. }
  rewrite (cross_entropy_Ok _ _ (vocab_size cfg)).
  - simpl. destruct Hinit as (_ & _ & _ & _ & _ & (Hw & _)). rewrite Hw.
    do 3 f_equal. unfold mean_cross_entropy. rewrite HlenC. f_equal.
    apply Rsum_zip_with_concat.
    apply Forall2_same_length_lookup_2; [lia|].
    intros i M ts HM Hts.
    rewrite Forall_lookup in HL. rewrite Forall_lookup in HTt.
    destruct (HL i M HM) as [-> _]. by rewrite (HTt i ts Hts).
  - rewrite HlenC. rewrite (concat_length_uniform _ T) by done. lia.
  - apply Forall_concat. eapply Forall_impl; [exact HL|]. by intros M [_ HM].
  - apply Forall_concat. exact Hvocab.
Qed.

End ForwardResults.

(** ** The generation loop *)

Section GenerateFacts.
Context (cfg : config).
Hypothesis Hbs : 0 < blocksize cfg.

Lemma crop_spec (idx : LongTensor) :
  Bigram_Language_Model.crop (blocksize cfg) idx =
  {| shape := ((shape idx).1, (shape idx).2 `min` blocksize cfg);
     rows := drop ((shape idx).2 - blocksize cfg) <$> rows idx |}.
Proof using Hbs.
  unfold Bigram_Language_Model.crop. destruct (shape idx) as [B T]. simpl.
  destruct (Nat.eqb_spec (blocksize cfg) 0); [lia|done].
Qed.

Lemma crop_valid (idx : LongTensor) :
  well_shaped idx → Forall (Forall (in_vocab cfg)) (rows idx) →
  valid_input cfg (Bigram_Language_Model.crop (blocksize cfg) idx).
Proof using Hbs.
  intros (HB & HT) Hvocab. rewrite crop_spec.
  unfold valid_input, well_shaped. simpl. repeat split.
  - by rewrite length_fmap.
  - apply Forall_fmap. eapply Forall_impl; [exact HT|].
    intros r Hr. simpl in Hr |- *. rewrite length_drop. lia.
  - lia.
  - apply Forall_fmap. eapply Forall_impl; [exact Hvocab|].
    intros r Hr. simpl. by apply Forall_drop.
Qed.

Lemma List_last_Forall {A} (P : A → Prop) (l : list A) (d : A) :
  l ≠ [] → Forall P l → P (List.last l d).
Proof.
  intros Hne Hall. induction Hall as [|a l Ha Hl IH]; [done|].
  destruct l as [|b l]; [done|]. apply IH. done.
Qed.

Lemma valid_seed_vocab_pos (idx : LongTensor) :
  valid_seed cfg idx → 0 < vocab_size cfg.
Proof using Type.
  clear Hbs. intros ((HB & HT) & HBpos & HTpos & Hvocab).
  destruct (rows idx) as [|r rs]; [simpl in HB; lia|].
  apply Forall_inv in HT. apply Forall_inv in Hvocab.
  destruct r as [|t r]; [simpl in HT; lia|].
  apply Forall_inv in Hvocab. unfold in_vocab in Hvocab. lia.
Qed.

Lemma cat_next_valid (idx : LongTensor) (idx_next : list Z) :
  valid_seed cfg idx →
  length idx_next = (shape idx).1 → Forall (in_vocab cfg) idx_next →
  valid_seed cfg (Bigram_Language_Model.cat_next idx idx_next) ∧
  Forall2 (λ seed r, take (shape idx).2 r = seed) (rows idx)
    (rows (Bigram_Language_Model.cat_next idx idx_next)).
Proof using Type.
  clear Hbs. intros ((HB & HT) & HBpos & HTpos & Hvocab) Hlen Hnext.
  unfold valid_seed, well_shaped, Bigram_Language_Model.cat_next. simpl.
  repeat split.
  - rewrite length_zip_with. lia.
  - rewrite Forall_lookup in HT.
    apply Forall_lookup. intros i r'. rewrite lookup_zip_with.
    destruct (rows idx !! i) as [r|] eqn:Hr; simpl; [|done].
    destruct (idx_next !! i) as [t|] eqn:Ht; simpl; [|done].
    intros [= <-]. rewrite length_app, (HT i r Hr). simpl. lia.
  - done.
  - lia.
  - rewrite Forall_lookup in Hvocab. rewrite Forall_lookup in Hnext.
    apply Forall_lookup. intros i r'. rewrite lookup_zip_with.
    destruct (rows idx !! i) as [r|] eqn:Hr; simpl; [|done].
    destruct (idx_next !! i) as [t|] eqn:Ht; simpl; [|done].
    intros [= <-]. apply Forall_app. split; [by eapply Hvocab|].
    constructor; [by eapply Hnext | constructor].
  - apply Forall2_same_length_lookup_2.
    + rewrite length_zip_with. lia.
    + intros i r r' Hr. rewrite lookup_zip_with, Hr. simpl.
      destruct (idx_next !! i) as [t|]; simpl; [|done].
      intros [= <-]. rewrite Forall_lookup in HT.
      rewrite <- (HT i r Hr). by rewrite take_app_length.
Qed.

End GenerateFacts.

Section GenerateLoop.
Context (rng : Type) (multinomial : matrix → rng → list Z * rng).
Context (cfg : config) (m : Bigram_Language_Model.t).
Hypothesis Hsampler : Bigram_Language_Model.multinomial_contract rng multinomial.
Hypothesis Hinit : Bigram_Language_Model.init_shape cfg m.
Hypothesis Hcfg : valid_config cfg.
Hypothesis Hbs : 0 < blocksize cfg.

Lemma generate_step (idx : LongTensor) (n : nat) (g : rng) :
  valid_seed cfg idx →
  Bigram_Language_Model.generate rng multinomial cfg m idx (S n) g =
  Bigram_Language_Model.generate rng multinomial cfg m
    (Bigram_Language_Model.cat_next idx (multinomial (generate_probs cfg m idx) g).1) n
    (multinomial (generate_probs cfg m idx) g).2.
Proof using Hinit Hcfg Hbs.
  intros (Hshape & HBpos & HTpos & Hvocab). unfold generate_probs.
  cbn [Bigram_Language_Model.generate].
  rewrite (forward_None_Ok cfg m Hinit Hcfg) by (by apply crop_valid).
  cbn [mbind result_mbind result_bind fst Bigram_Language_Model.last_step].
  rewrite (crop_spec cfg Hbs). cbn [shape rows fst snd].
  destruct (Nat.eqb_spec ((shape idx).2 `min` blocksize cfg) 0) as [Hz|_]; [lia|].
  cbn [mbind result_mbind result_bind].
  rewrite <- list_fmap_compose.
  by destruct (multinomial _ g) as [idx_next g'].
Qed.

Lemma generate_probs_shape (idx : LongTensor) :
  valid_seed cfg idx →
  length (generate_probs cfg m idx) = (shape idx).1 ∧
  Forall (λ p : vec, length p = vocab_size cfg) (generate_probs cfg m idx).
Proof using Hinit Hcfg Hbs.
  intros ((HB & HT) & HBpos & HTpos & Hvocab). unfold generate_probs.
  rewrite (crop_spec cfg Hbs). cbn [rows].
  rewrite !length_fmap. split; [done|].
  rewrite <- !list_fmap_compose. apply Forall_fmap.
  eapply Forall_impl; [exact HT|]. intros r Hr. simpl in Hr |- *.
  rewrite softmax_length, length_fmap.
  apply (List_last_Forall (λ v : vec, length v = vocab_size cfg)).
  - intros Hnil.
    pose proof (row_logits_length cfg m Hinit Hcfg
                  (drop ((shape idx).2 - blocksize cfg) r)) as Hlen.
    rewrite Hnil, length_drop in Hlen. simpl in Hlen. lia.
  - by apply row_logits_width.
Qed.

Lemma sampled_valid (idx : LongTensor) (g : rng) :
  valid_seed cfg idx →
  length (multinomial (generate_probs cfg m idx) g).1 = (shape idx).1 ∧
  Forall (in_vocab cfg) (multinomial (generate_probs cfg m idx) g).1.
Proof using Hsampler Hinit Hcfg Hbs.
  intros Hseed. destruct (generate_probs_shape idx Hseed) as (Hlen & Hw).
  pose proof (valid_seed_vocab_pos cfg idx Hseed) as HV.
  pose proof (Hsampler (generate_probs cfg m idx) g) as Hc. split.
  - by rewrite <- (Forall2_length _ _ _ Hc).
  - apply Forall_lookup. intros i c Hi.
    destruct (Forall2_lookup_r _ _ _ _ _ Hc Hi) as (p & Hp & Hpc).
    rewrite Forall_lookup in Hw. specialize (Hw i p Hp). simpl in Hw.
    unfold in_vocab. rewrite <- Hw. apply Hpc.
    intros ->. simpl in Hw. lia.
Qed.

Lemma generate_Ok (n : nat) : ∀ (idx : LongTensor) (g : rng),
  valid_seed cfg idx →
  ∃ out,
    Bigram_Language_Model.generate rng multinomial cfg m idx n g = Ok out ∧
    shape out = ((shape idx).1, (shape idx).2 + n) ∧
    valid_seed cfg out ∧
    Forall2 (λ seed r, take (shape idx).2 r = seed) (rows idx) (rows out).
Proof using Hsampler Hinit Hcfg Hbs.
  induction n as [|n IH]; intros idx g Hseed.
  - exists idx. split; [done|]. split.
    + destruct (shape idx) as [B T]. simpl. f_equal. lia.
    + split; [done|]. destruct Hseed as ((_ & HT) & _).
      apply Forall2_same_length_lookup_2; [done|].
      intros i r r' Hr Hr'. rewrite Hr in Hr'. injection Hr' as <-.
      rewrite Forall_lookup in HT. rewrite <- (HT i r Hr). apply firstn_all.
  - rewrite generate_step by done.
    destruct (sampled_valid idx g Hseed) as (Hlen & Hnext).
    destruct (cat_next_valid cfg idx _ Hseed Hlen Hnext) as (Hseed' & Hprefix).
    destruct (IH _ (multinomial (generate_probs cfg m idx) g).2 Hseed')
      as (out & Hout & Hshape & Hvalid & Hprefix').
    exists out. split; [done|]. split.
    + rewrite Hshape. simpl. f_equal. lia.
    + split; [done|].
      apply Forall2_same_length_lookup_2.
      * rewrite (Forall2_length _ _ _ Hprefix). by eapply Forall2_length.
      * intros i r r' Hr Hr'.
        destruct (Forall2_lookup_l _ _ _ _ _ Hprefix Hr) as (r1 & Hr1 & Hrr1).
        destruct (Forall2_lookup_l _ _ _ _ _ Hprefix' Hr1) as (r2 & Hr2 & Hr12).
        rewrite Hr' in Hr2. injection Hr2 as <-. simpl in Hr12, Hrr1.
        rewrite <- Hrr1, <- Hr12, take_take. f_equal. lia.
Qed.

End GenerateLoop.

(** ** Shape of the logits, loss, causality and rejected inputs *)

Section ForwardClaims.

(** C3 (as amended). For a valid batch of shape (B, T) the forward pass
    returns, without targets, logits of shape (B, T, vocab_size); with
    targets it returns the logits flattened to shape (B*T, vocab_size). *)
Theorem forward_logits_shape (cfg : config) (m : Bigram_Language_Model.t)
    (idx targets : LongTensor) :
  Bigram_Language_Model.init_shape cfg m → valid_config cfg →
  valid_input cfg idx → valid_input cfg targets → shape targets = shape idx →
  let B := (shape idx).1 in
  let T := (shape idx).2 in
  let V := vocab_size cfg in
  (∃ L, Bigram_Language_Model.forward m idx None = Ok (Tensor3 (B, T, V) L, None) ∧
        length L = B ∧
        Forall (λ M : matrix, length M = T ∧ Forall (λ v : vec, length v = V) M) L) ∧
  (∃ L loss,
        Bigram_Language_Model.forward m idx (Some targets) =
          Ok (Tensor2 (B * T, V) L, Some loss) ∧
        length L = B * T ∧ Forall (λ v : vec, length v = V) L).
Proof.
  intros Hinit Hcfg Hvalid Htargets Hshape B T V.
  destruct (row_logits_shape cfg m Hinit Hcfg idx Hvalid) as (HlenL & HL).
  split.
  - exists (row_logits m <$> rows idx). split; [|done].
    by apply forward_None_Ok.
  - eexists _, _. split; [by apply forward_Some_Ok|]. split.
    + rewrite (concat_length_uniform _ T), HlenL; [done|].
      eapply Forall_impl; [exact HL|]. by intros M [HM _].
    + apply Forall_concat. eapply Forall_impl; [exact HL|]. by intros M [_ HM].
Qed.

Lemma forward_logits_shape_witness :
  (∃ L, Bigram_Language_Model.forward tiny_model tiny_idx None =
          Ok (Tensor3 (1, 2, 2) L, None) ∧
        length L = 1 ∧
        Forall (λ M : matrix, length M = 2 ∧ Forall (λ v : vec, length v = 2) M) L) ∧
  (∃ L loss,
        Bigram_Language_Model.forward tiny_model tiny_idx (Some tiny_targets) =
          Ok (Tensor2 (2, 2) L, Some loss) ∧
        length L = 2 ∧ Forall (λ v : vec, length v = 2) L).
Proof.
  exact (forward_logits_shape tiny_cfg tiny_model tiny_idx tiny_targets
           tiny_model_init_shape tiny_cfg_valid tiny_idx_valid
           tiny_targets_valid eq_refl).
Defined.

(** With targets the returned logits are not of shape (B, T, vocab_size):
    they are a rank-2 tensor. *)
Lemma forward_logits_shape_with_targets_counterexample :
  ¬ ∃ L loss,
      Bigram_Language_Model.forward tiny_model tiny_idx (Some tiny_targets) =
      Ok (Tensor3 (1, 2, 2) L, loss).
Proof.
  intros (L & loss & Hfwd).
  rewrite (forward_Some_Ok tiny_cfg tiny_model tiny_model_init_shape
             tiny_cfg_valid tiny_idx tiny_targets tiny_idx_valid
             tiny_targets_valid eq_refl) in Hfwd.
  discriminate.
Qed.



(** C1. Causality: two valid batches of one shape whose rows agree on the
    positions 0..i give the same logits at position i, in every row; the
    tokens after position i have no influence on them. *)
Theorem forward_causal (cfg : config) (m : Bigram_Language_Model.t)
    (idx idx' : LongTensor) (i : nat) :
  Bigram_Language_Model.init_shape cfg m → valid_config cfg →
  valid_input cfg idx → valid_input cfg idx' → shape idx' = shape idx →
  Forall2 (λ r r', take (S i) r = take (S i) r') (rows idx) (rows idx') →
  ∃ L L',
    Bigram_Language_Model.forward m idx None =
      Ok (Tensor3 ((shape idx).1, (shape idx).2, vocab_size cfg) L, None) ∧
    Bigram_Language_Model.forward m idx' None =
      Ok (Tensor3 ((shape idx).1, (shape idx).2, vocab_size cfg) L', None) ∧
    Forall2 (λ l l' : matrix, l !! i = l' !! i) L L'.
Proof.
  intros Hinit Hcfg Hvalid Hvalid' Hshape Hprefix.
  exists (row_logits m <$> rows idx), (row_logits m <$> rows idx').
  split; [by apply forward_None_Ok|]. split.
  - rewrite <- Hshape. by apply forward_None_Ok.
  - apply Forall2_fmap. eapply Forall2_impl; [exact Hprefix|].
    intros r r' Hrr'. simpl.
    rewrite <- (lookup_take_lt (row_logits m r) (S i) i) by lia.
    rewrite <- (lookup_take_lt (row_logits m r') (S i) i) by lia.
    by rewrite <- !row_logits_take, Hrr'.
Qed.

Lemma forward_causal_witness :
  ∃ L L',
    Bigram_Language_Model.forward tiny_model tiny_idx None =
      Ok (Tensor3 (1, 2, 2) L, None) ∧
    Bigram_Language_Model.forward tiny_model tiny_idx' None =
      Ok (Tensor3 (1, 2, 2) L', None) ∧
    Forall2 (λ l l' : matrix, l !! 0 = l' !! 0) L L'.
Proof.
  refine (forward_causal tiny_cfg tiny_model tiny_idx tiny_idx' 0
            tiny_model_init_shape tiny_cfg_valid tiny_idx_valid
            tiny_idx'_valid eq_refl _).
  simpl. repeat constructor.
Defined.

End ForwardClaims.

(** ** Inputs the forward pass rejects *)

Section Rejection.

Lemma comprehension_Exists_Err {A B} (f : A → result B) (l : list A) e0 :
  (∀ a e, f a = Err e → e = e0) →
  Exists (λ a, ∃ e, f a = Err e) l →
  comprehension f l = Err e0.
Proof.
  intros Honly. induction 1 as [a l [e He]|a l Hex IH]; simpl.
  - rewrite He. simpl. by rewrite (Honly a e He).
  - destruct (f a) as [b|e] eqn:Hfa; simpl.
    + by rewrite IH.
    + by rewrite (Honly a e Hfa).
Qed.

Lemma Embedding_forward_Err_only (table : matrix) (ids : list Z) e :
  Embedding.forward table ids = Err e → e = IndexError.
Proof.
  intros Herr. apply comprehension_Err in Herr as (i & _ & Hi).
  by apply lookup_Err_inv in Hi as [-> _].
Qed.

(** C6. A forward pass on a sequence longer than the context length, or on a
    batch holding a token id outside [0, vocab_size), raises IndexError; it
    returns no logits, with or without targets. *)
Theorem forward_rejects (cfg : config) (m : Bigram_Language_Model.t)
    (idx : LongTensor) (targets : option LongTensor) :
  Bigram_Language_Model.init_shape cfg m →
  blocksize cfg < (shape idx).2 ∨
    Exists (Exists (λ t, ¬ in_vocab cfg t)) (rows idx) →
  Bigram_Language_Model.forward m idx targets = Err IndexError.
Proof.
  intros ((Htok & _) & (Hpos & _) & _) Hbad.
  rewrite forward_stages. unfold Bigram_Language_Model.logits_3d.
  destruct (comprehension (Embedding.forward _) (rows idx)) as [te|e] eqn:Hte; simpl.
  - destruct Hbad as [Hlong|Htoken].
    + unfold Embedding.forward at 1.
      rewrite (comprehension_Exists_Err _ _ IndexError); [done| |].
      * intros a e He. by apply lookup_Err_inv in He as [-> _].
      * apply Exists_exists. exists (Z.of_nat (blocksize cfg)). split.
        -- unfold torch.arange. apply list_elem_of_fmap.
           exists (blocksize cfg). split; [done|]. apply elem_of_seq. lia.
        -- exists IndexError. apply lookup_Err. rewrite Hpos. lia.
    + exfalso.
      rewrite (comprehension_Exists_Err _ _ IndexError) in Hte; [done| |].
      * apply Embedding_forward_Err_only.
      * eapply Exists_impl; [exact Htoken|]. intros r Hr. simpl in Hr.
        exists IndexError. apply comprehension_Exists_Err.
        -- intros a e He. by apply lookup_Err_inv in He as [-> _].
        -- eapply Exists_impl; [exact Hr|]. intros t Ht. simpl in Ht.
           exists IndexError. apply lookup_Err. by rewrite Htok.
  - apply comprehension_Err in Hte as (r & _ & Hr).
    by rewrite (Embedding_forward_Err_only _ _ _ Hr).
Qed.

Lemma forward_rejects_witness :
  Bigram_Language_Model.forward tiny_model
    {| shape := (1, 3); rows := [[0; 1; 0]%Z] |} None = Err IndexError ∧
  Bigram_Language_Model.forward tiny_model
    {| shape := (1, 1); rows := [[2]%Z] |} (Some tiny_targets) = Err IndexError ∧
  Bigram_Language_Model.forward tiny_model
    {| shape := (1, 1); rows := [[-1]%Z] |} None = Err IndexError.
Proof.
  split; [|split].
  - apply (forward_rejects tiny_cfg tiny_model _ None tiny_model_init_shape).
    left. simpl. lia.
  - apply (forward_rejects tiny_cfg tiny_model _ (Some tiny_targets)
             tiny_model_init_shape).
    right. simpl. do 2 constructor. unfold in_vocab. simpl. lia.
  - apply (forward_rejects tiny_cfg tiny_model _ None tiny_model_init_shape).
    right. simpl. do 2 constructor. unfold in_vocab. simpl. lia.
Defined.

End Rejection.

(** ** Attention weights *)

Section AttentionClaims.

Lemma masked_lookup_Some (i T j : nat) (r : vec) (a : R) :
  j < T → r !! j = Some a →
  masked i T r !! j = Some (if j <=? i then finite a else neg_inf).
Proof.
  intros Hj Ha. unfold masked.
  rewrite lookup_zip_with, Ha, list_lookup_fmap, lookup_seq_lt by done.
  simpl. by destruct (j <=? i).
Qed.

Lemma masked_length (i T : nat) (r : vec) :
  length r = T → length (masked i T r) = T.
Proof.
  intros Hr. unfold masked.
  rewrite length_zip_with, length_fmap, length_seq. lia.
Qed.

Lemma exp_inf_nonneg (a : float_inf) : (0 <= F.exp_inf a)%R.
Proof. destruct a as [|r]; simpl; [lra|]. left. apply exp_pos. Qed.

Lemma Rsum_pos_lookup (e : vec) (i : nat) (a : R) :
  Forall (λ x, (0 <= x)%R) e → e !! i = Some a → (0 < a)%R → (0 < Rsum e)%R.
Proof.
  intros Hnn Hi Ha. rewrite <- (take_drop_middle e i a Hi).
  rewrite Rsum_app. simpl.
  assert (0 <= Rsum (take i e))%R by (apply Rsum_nonneg; by apply Forall_take).
  assert (0 <= Rsum (drop (S i) e))%R by (apply Rsum_nonneg; by apply Forall_drop).
  lra.
Qed.

(** C5. On a sequence of [n_embd] features within the context length, the
    head computes masked affinities W (line 91) and attention weights
    A = softmax(W) (lines 92-93) and returns A @ value(x).  Row [i] of W is
    finite at the keys j <= i, so at j = i, and minus infinity after; row
    [i] of A is non-negative, sums to 1 over the keys j <= i, and is 0 on
    the masked keys. *)
Theorem attention_weights_normalised (cfg : config) (hs : nat) (h : Head.t)
    (x : matrix) (i : nat) :
  Head.init_shape cfg hs h → 0 < hs → 0 < n_embd cfg →
  Forall (λ r : vec, length r = n_embd cfg) x →
  length x ≤ blocksize cfg → i < length x →
  ∃ W A row w,
    Head.masked_affinity h x = Ok W ∧ Head.attention h x = Ok A ∧
    A = F.softmax <$> W ∧
    Head.forward h x = Ok (matmul A (Linear.forward (Head.value h) x)) ∧
    W !! i = Some row ∧ A !! i = Some w ∧
    length row = length x ∧ length w = length x ∧
    (∀ j, j ≤ i → ∃ r, row !! j = Some (finite r)) ∧
    (∀ j, i < j < length x → row !! j = Some neg_inf) ∧
    (∀ j p, w !! j = Some p → (0 <= p)%R) ∧
    Rsum (take (S i) w) = 1%R ∧
    (∀ j p, i < j → w !! j = Some p → p = 0%R).
Proof.
  intros Hh Hhs _ _ HT Hi.
  destruct (Head_forward_Ok cfg hs h x Hh HT) as (Hm & Ha & Hfwd).
  destruct (lookup_lt_is_Some_2 (Head.affinity h x) i) as [r Hr];
    [by rewrite affinity_length|].
  pose proof (affinity_row_length cfg hs h x r i Hh Hhs Hr) as Hlen.
  set (row := masked i (length x) r).
  assert (Hrowlen : length row = length x) by (by apply masked_length).
  assert (Hunmasked : ∀ j, j ≤ i → ∃ a, row !! j = Some (finite a)).
  { intros j Hj.
    destruct (lookup_lt_is_Some_2 r j) as [a Hja]; [lia|].
    exists a. unfold row. rewrite (masked_lookup_Some i _ j r a) by (done || lia).
    destruct (j <=? i) eqn:Hle; [done|]. apply Nat.leb_gt in Hle. lia. }
  assert (Htail : Forall (λ a, a = neg_inf) (drop (S i) row))
    by (apply masked_tail; lia).
  assert (Hnn : Forall (λ x, (0 <= x)%R) (F.exp_inf <$> row)).
  { apply Forall_fmap, Forall_forall. intros a _. apply exp_inf_nonneg. }
  assert (Hpos : (0 < Rsum (F.exp_inf <$> row))%R).
  { destruct (Hunmasked i) as [a Hia]; [done|].
    apply (Rsum_pos_lookup _ i (exp a) Hnn); [|apply exp_pos].
    by rewrite list_lookup_fmap, Hia. }
  exists (imap (λ i r, masked i (length x) r) (Head.affinity h x)),
    (Head_weights h x), row, (F.softmax row).
  split; [done|]. split; [done|]. split.
  { unfold Head_weights. by rewrite fmap_imap. }
  split; [done|]. split.
  { by rewrite list_lookup_imap, Hr. }
  split.
  { unfold Head_weights. by rewrite list_lookup_imap, Hr. }
  split; [done|]. split; [by rewrite softmax_length|].
  split; [done|]. split.
  { intros j [Hij Hj].
    destruct (lookup_lt_is_Some_2 r j) as [a Hja]; [lia|].
    unfold row. rewrite (masked_lookup_Some i _ j r a) by done.
    destruct (j <=? i) eqn:Hle; [|done]. apply Nat.leb_le in Hle. lia. }
  split.
  { intros j p Hp. unfold F.softmax in Hp. rewrite list_lookup_fmap in Hp.
    apply fmap_Some in Hp as (a & Ha' & ->).
    rewrite Forall_lookup in Hnn. specialize (Hnn j a Ha').
    apply Rmult_le_pos; [done|]. left. by apply Rinv_0_lt_compat. }
  split.
  { rewrite (Rsum_take_zeros _ _ (softmax_tail row (S i) Htail)).
    unfold F.softmax. rewrite Rsum_div. field. lra. }
  { intros j p Hij Hp. pose proof (softmax_tail row (S i) Htail) as Hz.
    rewrite Forall_lookup in Hz. apply (Hz (j - S i)).
    rewrite lookup_drop. by replace (S i + (j - S i)) with j by lia. }
Qed.

Lemma attention_weights_normalised_witness :
  ∃ W A row w,
    Head.masked_affinity tiny_head [[1; 2; 3; 4]; [4; 3; 2; 1]]%R = Ok W ∧
    Head.attention tiny_head [[1; 2; 3; 4]; [4; 3; 2; 1]]%R = Ok A ∧
    A = F.softmax <$> W ∧
    Head.forward tiny_head [[1; 2; 3; 4]; [4; 3; 2; 1]]%R =
      Ok (matmul A (Linear.forward (Head.value tiny_head)
                      [[1; 2; 3; 4]; [4; 3; 2; 1]]%R)) ∧
    W !! 0 = Some row ∧ A !! 0 = Some w ∧
    length row = 2 ∧ length w = 2 ∧
    (∀ j, j ≤ 0 → ∃ r, row !! j = Some (finite r)) ∧
    (∀ j, 0 < j < 2 → row !! j = Some neg_inf) ∧
    (∀ j p, w !! j = Some p → (0 <= p)%R) ∧
    Rsum (take 1 w) = 1%R ∧
    (∀ j p, 0 < j → w !! j = Some p → p = 0%R).
Proof.
  refine (attention_weights_normalised tiny_cfg 4 tiny_head
            [[1; 2; 3; 4]; [4; 3; 2; 1]]%R 0 _ _ _ _ _ _).
  - repeat split; apply constant_linear_init_shape.
  - lia.
  - simpl. lia.
  - by repeat constructor.
  - simpl. lia.
  - simpl. lia.
Defined.

End AttentionClaims.

(** ** The scale of the affinities *)

Section ScaleClaims.

Lemma dot_cons (a b : R) (l k : vec) :
  dot (a :: l) (b :: k) = (a * b + dot l k)%R.
Proof. done. Qed.

Lemma dot_zeros_l (n : nat) (k : vec) : dot (replicate n 0%R) k = 0%R.
Proof.
  revert k. induction n as [|n IH]; intros [|b k]; try done.
  simpl replicate. rewrite dot_cons, IH. lra.
Qed.

Lemma dot_one_hot (n m : nat) : dot (one_hot n) (one_hot m) = 1%R.
Proof. unfold one_hot. rewrite dot_cons, dot_zeros_l. lra. Qed.

Lemma dot_zeros_r (n : nat) (l : vec) : dot l (replicate n 0%R) = 0%R.
Proof.
  revert l. induction n as [|n IH]; intros [|a l]; try done.
  simpl replicate. rewrite dot_cons, IH. lra.
Qed.

Lemma first_feature_apply (i o : nat) :
  0 < o → Linear.apply (first_feature i o) (one_hot i) = one_hot o.
Proof.
  intros Ho. unfold Linear.apply, first_feature. simpl.
  rewrite fmap_replicate, dot_one_hot, dot_zeros_r. done.
Qed.

Lemma first_feature_init_shape (i o : nat) :
  0 < i → 0 < o → Linear.init_shape i o false (first_feature i o).
Proof.
  intros Hi Ho. unfold Linear.init_shape, first_feature, one_hot; simpl.
  rewrite !length_replicate. split; [lia|]. split; [|done].
  constructor; [simpl; rewrite length_replicate; lia|].
  apply Forall_replicate. by rewrite length_replicate.
Qed.

Lemma script_head_init_shape : Head.init_shape (script_config "") 16 script_head.
Proof.
  repeat split; try (apply first_feature_init_shape; simpl; lia).
Qed.

Lemma sqrt_64 : sqrt 64 = 8%R.
Proof. replace 64%R with (8 * 8)%R by lra. apply sqrt_square. lra. Qed.

Lemma sqrt_16 : sqrt 16 = 4%R.
Proof. replace 16%R with (4 * 4)%R by lra. apply sqrt_square. lra. Qed.

(** C2, at a failing input. For the head of the script's sizes and a sequence
    of one position whose query and key have dot product 1, line 90 gives
    the affinity 1/8 = 1/sqrt(n_embd), where the scaled dot product with
    1/sqrt(head_size) is 1/4. *)
Theorem affinity_scale_divergence :
  let q := Linear.apply (Head.query script_head) (one_hot 64) in
  let k := Linear.apply (Head.key script_head) (one_hot 64) in
  length q = 16 ∧ length k = 16 ∧
  Head.affinity script_head script_x = [[(/ 8)%R]] ∧
  scaled_dot_product 16 q k = (/ 4)%R ∧
  Head.affinity script_head script_x ≠ [[scaled_dot_product 16 q k]].
Proof.
  intros q k.
  assert (Hq : q = one_hot 16) by (apply first_feature_apply; lia).
  assert (Hk : k = one_hot 16) by (apply first_feature_apply; lia).
  assert (Haff : Head.affinity script_head script_x = [[(/ 8)%R]]).
  { transitivity [[(dot q k * Rpower (INR 64) (-0.5))%R]].
    - by rewrite (affinity_entries _ 16 _ _ script_head_init_shape)
        by (done || lia).
    - rewrite Hq, Hk, dot_one_hot, pow_neg_half by lia.
      replace (INR 64) with 64%R by (simpl; lra). rewrite sqrt_64.
      do 2 f_equal. lra. }
  assert (Hspec : scaled_dot_product 16 q k = (/ 4)%R).
  { unfold scaled_dot_product. rewrite Hq, Hk, dot_one_hot.
    replace (INR 16) with 16%R by (simpl; lra). rewrite sqrt_16. lra. }
  split; [by rewrite Hq|]. split; [by rewrite Hk|].
  split; [done|]. split; [done|].
  rewrite Haff, Hspec. intros [= H]. lra.
Qed.

End ScaleClaims.

(** ** Generation *)

Section GenerateClaims.

Lemma first_class_contract :
  Bigram_Language_Model.multinomial_contract unit first_class.
Proof.
  intros probs g. unfold first_class. simpl.
  apply Forall2_fmap_r, Forall_Forall2_diag, Forall_forall.
  intros p _ Hp. destruct p; [done|]. simpl. lia.
Qed.

Lemma tiny_idx_seed : valid_seed tiny_cfg tiny_idx.
Proof.
  unfold valid_seed, well_shaped, in_vocab; simpl.
  repeat split; repeat constructor; simpl; lia.
Qed.




End GenerateClaims.

(** * Further properties *)

(** ** The codec: ids, decoding and order *)

Section CodecMore.
Import Codec.

Lemma enumerate_from_lookup {A} (l : list A) (k i : Z) (c : A) :
  (i, c) ∈ enumerate_from k l ↔
  ∃ n : nat, i = (k + Z.of_nat n)%Z ∧ l !! n = Some c.
Proof.
  revert k. induction l as [|x l IH]; intros k; simpl.
  - split; [by intros ?%elem_of_nil | by intros (n & _ & ?)].
  - rewrite elem_of_cons, IH. split.
    + intros [[= -> ->]|(n & -> & Hn)].
      * exists 0. split; [lia|done].
      * exists (S n). split; [lia|done].
    + intros ([|n] & -> & Hn); simpl in Hn.
      * left. injection Hn as ->. f_equal. lia.
      * right. exists n. split; [lia|done].
Qed.

Lemma i_to_s_index text (i : Z) (c : ascii) :
  i_to_s text !! i = Some c ↔
  (0 ≤ i)%Z ∧ characters text !! Z.to_nat i = Some c.
Proof.
  rewrite i_to_s_lookup. unfold enumerate. rewrite enumerate_from_lookup. split.
  - intros (n & -> & Hn). split; [lia|]. by rewrite Z.add_0_l, Nat2Z.id.
  - intros [Hi Hc]. exists (Z.to_nat i). split; [lia|done].
Qed.

Lemma s_to_i_index text (i : Z) (c : ascii) :
  s_to_i text !! c = Some i ↔
  (0 ≤ i)%Z ∧ characters text !! Z.to_nat i = Some c.
Proof. by rewrite s_to_i_lookup, <- i_to_s_lookup, i_to_s_index. Qed.

Lemma i_to_s_is_Some text (i : Z) :
  is_Some (i_to_s text !! i) ↔ (0 ≤ i < Z.of_nat (vocab_size text))%Z.
Proof.
  unfold vocab_size. split.
  - intros [c Hc]. apply i_to_s_index in Hc as [Hi Hc].
    apply lookup_lt_Some in Hc. lia.
  - intros Hi. destruct (lookup_lt_is_Some_2 (characters text) (Z.to_nat i))
      as [c Hc]; [lia|].
    exists c. apply i_to_s_index. split; [lia|done].
Qed.

Lemma s_to_i_range text (c : ascii) (i : Z) :
  s_to_i text !! c = Some i → (0 ≤ i < Z.of_nat (vocab_size text))%Z.
Proof.
  intros Hc. apply i_to_s_is_Some. exists c.
  by apply i_to_s_lookup, s_to_i_lookup.
Qed.

Lemma encode_after_decode_list text ids cs :
  comprehension (getitem (i_to_s text)) ids = Ok cs →
  comprehension (getitem (s_to_i text)) cs = Ok ids.
Proof.
  revert cs; induction ids as [|i ids IH]; intros cs; simpl.
  - by intros [= <-].
  - destruct (getitem (i_to_s text) i) as [c|e] eqn:Hi; simpl; [|discriminate].
    destruct (comprehension (getitem (i_to_s text)) ids) as [cs'|e]; simpl;
      [|discriminate].
    intros [= <-]. simpl.
    apply getitem_Ok, i_to_s_lookup, s_to_i_lookup, getitem_Ok in Hi.
    rewrite Hi; simpl. by rewrite (IH cs').
Qed.

Lemma string_length_of_list (cs : list ascii) :
  String.length (string_of_list_ascii cs) = length cs.
Proof. induction cs; simpl; auto. Qed.

Lemma list_of_string_length (s : string) :
  length (list_ascii_of_string s) = String.length s.
Proof. induction s; simpl; auto. Qed.

Lemma decode_in_vocab text (ids : list Z) :
  Forall (λ i, (0 ≤ i < Z.of_nat (vocab_size text))%Z) ids →
  ∃ cs, decode text ids = Ok (string_of_list_ascii cs) ∧
        Forall2 (λ i c, characters text !! Z.to_nat i = Some c) ids cs.
Proof.
  intros Hall.
  assert (Hcs : ∃ cs, comprehension (getitem (i_to_s text)) ids = Ok cs).
  { apply comprehension_Ok_iff. eapply Forall_impl; [exact Hall|].
    intros i Hi. apply i_to_s_is_Some in Hi as [c Hc].
    exists c. by apply getitem_Ok. }
  destruct Hcs as [cs Hcs]. exists cs. split.
  - unfold decode. by rewrite Hcs.
  - apply comprehension_Forall2 in Hcs.
    eapply Forall2_impl; [exact Hcs|]. intros i c Hget. simpl in Hget.
    by apply getitem_Ok, i_to_s_index in Hget as [_ ?].
Qed.

(** X1. [decode] is partial in the same way as [encode]: it raises KeyError,
    and nothing else, exactly when some id lies outside [0, vocab_size), and
    otherwise returns one character per id. *)
Theorem decode_partial (text : string) (ids : list Z) :
  (∀ e, decode text ids = Err e ↔
        e = KeyError ∧
        Exists (λ i, ¬ (0 ≤ i < Z.of_nat (vocab_size text))%Z) ids) ∧
  ((∃ s, decode text ids = Ok s) ↔
        Forall (λ i, (0 ≤ i < Z.of_nat (vocab_size text))%Z) ids) ∧
  (∀ s, decode text ids = Ok s →
        String.length s = length ids ∧
        ∀ k i, ids !! k = Some i →
          ∃ c, list_ascii_of_string s !! k = Some c ∧
               characters text !! Z.to_nat i = Some c).
Proof.
  assert (Hok : (∃ s, decode text ids = Ok s) ↔
                Forall (λ i, (0 ≤ i < Z.of_nat (vocab_size text))%Z) ids).
  { unfold decode. split.
    - intros [s Hs].
      destruct (comprehension (getitem (i_to_s text)) ids) as [cs|e] eqn:Hcs;
        [|discriminate].
      assert (Hall : Forall (λ i, ∃ c, getitem (i_to_s text) i = Ok c) ids)
        by (apply comprehension_Ok_iff; eauto).
      eapply Forall_impl; [exact Hall|]. intros i [c Hc].
      apply i_to_s_is_Some. exists c. by apply getitem_Ok.
    - intros Hall.
      assert (Hcs : ∃ cs, comprehension (getitem (i_to_s text)) ids = Ok cs).
      { apply comprehension_Ok_iff. eapply Forall_impl; [exact Hall|].
        intros i Hi. apply i_to_s_is_Some in Hi as [c Hc].
        exists c. by apply getitem_Ok. }
      destruct Hcs as [cs ->]. simpl. eauto. }
  split; [|split; [exact Hok|]].
  - intros e. split.
    + intros Herr. unfold decode in Herr.
      destruct (comprehension (getitem (i_to_s text)) ids) as [cs|e'] eqn:Hcs;
        [discriminate|].
      simpl in Herr. injection Herr as ->.
      apply comprehension_Err in Hcs as (i & Hin & Hi).
      apply getitem_Err in Hi as [Hnone ->]. split; [done|].
      apply Exists_exists. exists i. split; [by apply list_elem_of_In|].
      rewrite <- i_to_s_is_Some, Hnone. by intros [? ?].
    + intros [-> Hex]. destruct (decode text ids) as [s|e] eqn:Hdec.
      * exfalso. apply Exists_exists in Hex as (i & Hin & Hi). apply Hi.
        assert (Hall : Forall (λ i, (0 ≤ i < Z.of_nat (vocab_size text))%Z) ids)
          by (apply Hok; eauto).
        rewrite Forall_forall in Hall. by apply Hall.
      * unfold decode in Hdec.
        destruct (comprehension (getitem (i_to_s text)) ids) as [cs|e'] eqn:Hcs;
          [discriminate|].
        simpl in Hdec. injection Hdec as <-.
        apply comprehension_Err in Hcs as (i & _ & Hi).
        by apply getitem_Err in Hi as [_ ->].
  - intros s Hdec. unfold decode in Hdec.
    destruct (comprehension (getitem (i_to_s text)) ids) as [cs|e] eqn:Hcs;
      [|discriminate].
    simpl in Hdec. injection Hdec as <-. split.
    + by rewrite string_length_of_list, (comprehension_length _ _ _ Hcs).
    + intros k i Hk. rewrite list_ascii_of_string_of_list_ascii.
      apply comprehension_Forall2 in Hcs.
      destruct (Forall2_lookup_l _ _ _ _ _ Hcs Hk) as (c & Hc & Hget).
      exists c. split; [done|]. by apply getitem_Ok, i_to_s_index in Hget as [_ ?].
Qed.

(** X2. The round trip in the other direction: ids in [0, vocab_size) decode
    to a text that encodes back to the same ids. *)
Theorem encode_after_decode (text : string) (ids : list Z) :
  Forall (λ i, (0 ≤ i < Z.of_nat (vocab_size text))%Z) ids →
  ∃ s, decode text ids = Ok s ∧ encode text s = Ok ids.
Proof.
  intros Hall.
  assert (Hcs : ∃ cs, comprehension (getitem (i_to_s text)) ids = Ok cs).
  { apply comprehension_Ok_iff. eapply Forall_impl; [exact Hall|].
    intros i Hi. apply i_to_s_is_Some in Hi as [c Hc].
    exists c. by apply getitem_Ok. }
  destruct Hcs as [cs Hcs]. exists (string_of_list_ascii cs). split.
  - unfold decode. by rewrite Hcs.
  - unfold encode. rewrite list_ascii_of_string_of_list_ascii.
    by apply encode_after_decode_list.
Qed.

Lemma encode_after_decode_witness :
  Forall (λ i, (0 ≤ i < Z.of_nat (vocab_size "hello world"))%Z) [4; 5; 7; 2; 6]%Z ∧
  ∃ s, decode "hello world" [4; 5; 7; 2; 6]%Z = Ok s ∧
       encode "hello world" s = Ok [4; 5; 7; 2; 6]%Z.
Proof.
  assert (H : Forall (λ i, (0 ≤ i < Z.of_nat (vocab_size "hello world"))%Z)
                [4; 5; 7; 2; 6]%Z).
  { replace (vocab_size "hello world") with 8 by (vm_compute; reflexivity).
    repeat constructor; lia. }
  split; [exact H | exact (encode_after_decode "hello world" _ H)].
Defined.

(** X3. [encode] only returns token ids of the vocabulary: every id lies in
    [0, vocab_size), the range of the token embedding table. *)
Theorem encode_in_vocab (text s : string) (ids : list Z) :
  encode text s = Ok ids →
  Forall (λ i, (0 ≤ i < Z.of_nat (vocab_size text))%Z) ids.
Proof.
  intros Henc. apply comprehension_Forall2 in Henc.
  apply Forall_lookup. intros k i Hk.
  destruct (Forall2_lookup_r _ _ _ _ _ Henc Hk) as (c & _ & Hc).
  apply getitem_Ok in Hc. by eapply s_to_i_range.
Qed.

Lemma encode_in_vocab_witness :
  encode "hello world" "lower" = Ok [4; 5; 7; 2; 6]%Z ∧
  Forall (λ i, (0 ≤ i < Z.of_nat (vocab_size "hello world"))%Z) [4; 5; 7; 2; 6]%Z.
Proof.
  assert (H : encode "hello world" "lower" = Ok [4; 5; 7; 2; 6]%Z)
    by (vm_compute; reflexivity).
  split; [exact H | exact (encode_in_vocab "hello world" "lower" _ H)].
Defined.

End CodecMore.

Section CodecOrder.
Import Codec.

#[local] Instance char_le_transitive : Transitive char_le.
Proof. intros a b c. unfold char_le. lia. Qed.

#[local] Instance char_le_total : Total char_le.
Proof. intros a b. unfold char_le. lia. Qed.

Lemma characters_sorted text : StronglySorted char_le (characters text).
Proof. unfold characters. apply StronglySorted_merge_sort; apply _. Qed.

Lemma StronglySorted_lookup_le {A} (R : relation A) (l : list A) i j x y :
  StronglySorted R l → i < j → l !! i = Some x → l !! j = Some y → R x y.
Proof.
  intros Hs. revert i j. induction Hs as [|a l Hs IH Hall]; intros i j Hij Hi Hj.
  - done.
  - destruct j as [|j]; [lia|]. simpl in Hj. destruct i as [|i]; simpl in Hi.
    + injection Hi as <-. rewrite Forall_lookup in Hall. by eapply Hall.
    + eapply IH; [|done..]. lia.
Qed.

Lemma nat_of_ascii_inj (a b : ascii) : nat_of_ascii a = nat_of_ascii b → a = b.
Proof.
  intros H. rewrite <- (ascii_nat_embedding a), <- (ascii_nat_embedding b).
  by rewrite H.
Qed.

Lemma characters_increasing text (n1 n2 : nat) (c1 c2 : ascii) :
  characters text !! n1 = Some c1 → characters text !! n2 = Some c2 →
  n1 < n2 → nat_of_ascii c1 < nat_of_ascii c2.
Proof.
  intros H1 H2 Hlt.
  pose proof (StronglySorted_lookup_le _ _ _ _ _ _ (characters_sorted text)
                Hlt H1 H2) as Hle.
  unfold char_le in Hle.
  destruct (decide (nat_of_ascii c1 = nat_of_ascii c2)) as [Heq|Hne]; [|lia].
  apply nat_of_ascii_inj in Heq. subst c2.
  pose proof (NoDup_lookup _ _ _ _ (characters_NoDup text) H1 H2). lia.
Qed.

(** X4. Ids follow the order of the characters: of two characters of the
    vocabulary, the one with the smaller code point has the smaller id. *)
Theorem s_to_i_monotone (text : string) (c1 c2 : ascii) (i1 i2 : Z) :
  s_to_i text !! c1 = Some i1 → s_to_i text !! c2 = Some i2 →
  (nat_of_ascii c1 < nat_of_ascii c2 ↔ (i1 < i2)%Z).
Proof.
  intros H1 H2.
  apply s_to_i_index in H1 as [Hi1 H1]. apply s_to_i_index in H2 as [Hi2 H2].
  split.
  - intros Hlt.
    destruct (decide (Z.to_nat i1 < Z.to_nat i2)) as [Hn|Hn]; [lia|].
    destruct (decide (Z.to_nat i1 = Z.to_nat i2)) as [Heq|Hne].
    + rewrite Heq in H1. rewrite H1 in H2. injection H2 as ->. lia.
    + assert (Hgt : Z.to_nat i2 < Z.to_nat i1) by lia.
      pose proof (characters_increasing text _ _ _ _ H2 H1 Hgt). lia.
  - intros Hlt. apply (characters_increasing text (Z.to_nat i1) (Z.to_nat i2));
      [done|done|lia].
Qed.

Lemma s_to_i_monotone_witness :
  s_to_i "hello world" !! "e"%char = Some 2%Z ∧
  s_to_i "hello world" !! "w"%char = Some 7%Z ∧
  (nat_of_ascii "e" < nat_of_ascii "w" ↔ (2 < 7)%Z).
Proof.
  assert (H1 : s_to_i "hello world" !! "e"%char = Some 2%Z)
    by (vm_compute; reflexivity).
  assert (H2 : s_to_i "hello world" !! "w"%char = Some 7%Z)
    by (vm_compute; reflexivity).
  split; [exact H1|]. split; [exact H2|].
  exact (s_to_i_monotone "hello world" "e" "w" 2 7 H1 H2).
Defined.

(** X5. The training text itself always encodes (line 39 cannot raise): it
    gives one id per character, every id lies in [0, vocab_size), and every
    id of that range occurs, so that every row of the token embedding table
    is used by the data. *)
Theorem training_text_encodes (text : string) :
  ∃ data,
    encode text text = Ok data ∧
    length data = String.length text ∧
    Forall (λ i, (0 ≤ i < Z.of_nat (vocab_size text))%Z) data ∧
    ∀ i, (0 ≤ i < Z.of_nat (vocab_size text))%Z → i ∈ data.
Proof.
  assert (Henc : ∃ data, encode text text = Ok data).
  { apply comprehension_Ok_iff, Forall_forall. intros c Hc.
    apply list_elem_of_In, characters_spec, s_to_i_is_Some in Hc as [i Hi].
    exists i. by apply getitem_Ok. }
  destruct Henc as [data Hdata]. exists data. split; [done|].
  pose proof Hdata as HF. apply comprehension_Forall2 in HF.
  split; [|split].
  - by rewrite (comprehension_length _ _ _ Hdata), list_of_string_length.
  - apply Forall_lookup. intros k i Hk.
    destruct (Forall2_lookup_r _ _ _ _ _ HF Hk) as (c & _ & Hc).
    apply getitem_Ok in Hc. by eapply s_to_i_range.
  - intros i Hi. apply i_to_s_is_Some in Hi as [c Hc].
    pose proof Hc as Hsi. apply i_to_s_lookup, s_to_i_lookup in Hsi.
    assert (Hin : c ∈ list_ascii_of_string text).
    { apply list_elem_of_In, characters_spec, s_to_i_is_Some. eauto. }
    apply list_elem_of_lookup in Hin as [k Hk].
    destruct (Forall2_lookup_l _ _ _ _ _ HF Hk) as (i' & Hi' & Hget).
    apply getitem_Ok in Hget. rewrite Hsi in Hget. injection Hget as <-.
    by eapply list_elem_of_lookup_2.
Qed.

End CodecOrder.

(** ** Batches *)

Section BatchFacts.

Lemma slice_length {A} (l : list A) (i j : nat) :
  i ≤ j → j ≤ length l → length (Script.slice l i j) = j - i.
Proof.
  intros Hij Hj. unfold Script.slice. rewrite length_drop, length_take. lia.
Qed.

Lemma slice_lookup {A} (l : list A) (i j t : nat) :
  i + t < j → Script.slice l i j !! t = l !! (i + t).
Proof.
  intros Ht. unfold Script.slice. by rewrite lookup_drop, lookup_take_lt.
Qed.

Lemma stack_Ok (rs : list (list Z)) (n : nat) :
  rs ≠ [] → Forall (λ r, length r = n) rs →
  Script.stack rs = Ok {| shape := (length rs, n); rows := rs |}.
Proof.
  intros Hne Hall. destruct rs as [|r rs]; [done|]. unfold Script.stack.
  apply Forall_cons in Hall as [Hr Hrs].
  assert (Hb : forallb (λ r', length r' =? length r) rs = true).
  { apply forallb_forall. intros r' Hr'. apply Nat.eqb_eq.
    rewrite Forall_forall in Hrs. rewrite (Hrs r'), Hr; [done|].
    by apply list_elem_of_In. }
  by rewrite Hb, Hr.
Qed.

Section OneBatch.
Context (rng : Type) (randint : nat → nat → rng → list nat * rng).
Context (cfg : config) (batchsize : nat) (train_data test_data : list Z).
Hypothesis Hrandint : Script.randint_contract rng randint.

Lemma get_batch_Ok (split : string) (g : rng) :
  let data := if String.eqb split "train" then train_data else test_data in
  let ix := (randint (length data - blocksize cfg) batchsize g).1 in
  0 < batchsize → blocksize cfg < length data →
  Script.get_batch rng randint cfg batchsize train_data test_data split g =
  Ok ({| shape := (batchsize, blocksize cfg);
         rows := (λ i, Script.slice data i (i + blocksize cfg)) <$> ix |},
      {| shape := (batchsize, blocksize cfg);
         rows := (λ i, Script.slice data (i + 1) (i + blocksize cfg + 1)) <$> ix |},
      (randint (length data - blocksize cfg) batchsize g).2) ∧
  length ix = batchsize ∧
  Forall (λ i, i + blocksize cfg < length data) ix.
Proof using Hrandint.
  intros data ix Hbatch Hlen.
  destruct (Hrandint (length data - blocksize cfg) batchsize g) as [Hix Hlt];
    [lia|].
  fold ix in Hix, Hlt.
  assert (Hwin : Forall (λ i, i + blocksize cfg < length data) ix).
  { eapply Forall_impl; [exact Hlt|]. intros i Hi. simpl in Hi. lia. }
  split; [|done].
  unfold Script.get_batch, Script.torch_randint. fold data.
  destruct (Z.ltb_spec 0 (Z.of_nat (length data) - Z.of_nat (blocksize cfg)));
    [|lia].
  replace (Z.to_nat (Z.of_nat (length data) - Z.of_nat (blocksize cfg)))
    with (length data - blocksize cfg) by lia.
  cbn [mbind result_mbind result_bind]. fold ix.
  rewrite (stack_Ok _ (blocksize cfg)).
  - cbn [mbind result_mbind result_bind].
    rewrite (stack_Ok _ (blocksize cfg)).
    + cbn [mbind result_mbind result_bind]. by rewrite !length_fmap, Hix.
    + intros Hnil. apply fmap_nil_inv in Hnil. rewrite Hnil in Hix. simpl in Hix. lia.
    + apply Forall_fmap. eapply Forall_impl; [exact Hwin|].
      intros i Hi. simpl in Hi |- *. rewrite slice_length; lia.
  - intros Hnil. apply fmap_nil_inv in Hnil. rewrite Hnil in Hix. simpl in Hix. lia.
  - apply Forall_fmap. eapply Forall_impl; [exact Hwin|].
    intros i Hi. simpl in Hi |- *. rewrite slice_length; lia.
Qed.

End OneBatch.

End BatchFacts.

Section BatchProperties.

Lemma last_start_contract : Script.randint_contract unit last_start.
Proof.
  intros high size g Hhigh. unfold last_start. simpl.
  rewrite length_replicate. split; [done|].
  apply Forall_replicate. lia.
Qed.

Lemma shifted_window {A} (data : list A) (i bs : nat) :
  drop 1 (Script.slice data i (i + bs)) =
  take (bs - 1) (Script.slice data (i + 1) (i + bs + 1)).
Proof.
  unfold Script.slice. rewrite drop_drop. apply list_eq. intros t.
  rewrite lookup_drop, !lookup_take, lookup_drop, lookup_take.
  repeat case_decide; try done; lia.
Qed.

(** X6. On a split of more than [blocksize] tokens, [get_batch] returns
    inputs and targets of shape (batchsize, blocksize); every row is a full
    window of the split, and the targets are the inputs one token later:
    target t is the token after input t. *)
Theorem get_batch_windows (rng : Type) (randint : nat → nat → rng → list nat * rng)
    (cfg : config) (batchsize : nat) (train_data test_data : list Z)
    (split : string) (g : rng) :
  let data := if String.eqb split "train" then train_data else test_data in
  Script.randint_contract rng randint →
  0 < batchsize → blocksize cfg < length data →
  ∃ x y g',
    Script.get_batch rng randint cfg batchsize train_data test_data split g =
      Ok (x, y, g') ∧
    shape x = (batchsize, blocksize cfg) ∧ shape y = (batchsize, blocksize cfg) ∧
    well_shaped x ∧ well_shaped y ∧
    Forall2 (λ xr yr,
        ∃ i, i + blocksize cfg < length data ∧
             (∀ t, t < blocksize cfg →
                   xr !! t = data !! (i + t) ∧ yr !! t = data !! (i + t + 1)) ∧
             drop 1 xr = take (blocksize cfg - 1) yr)
      (rows x) (rows y).
Proof.
  intros data Hrandint Hbatch Hlen.
  destruct (get_batch_Ok rng randint cfg batchsize train_data test_data
              Hrandint split g Hbatch Hlen) as (Hget & Hix & Hwin).
  fold data in Hget, Hix, Hwin.
  set (ix := (randint (length data - blocksize cfg) batchsize g).1) in *.
  eexists _, _, _. split; [exact Hget|]. simpl.
  split; [done|]. split; [done|]. split; [|split].
  - unfold well_shaped. simpl. rewrite length_fmap. split; [done|].
    apply Forall_fmap. eapply Forall_impl; [exact Hwin|].
    intros i Hi. simpl in Hi |- *. rewrite slice_length; lia.
  - unfold well_shaped. simpl. rewrite length_fmap. split; [done|].
    apply Forall_fmap. eapply Forall_impl; [exact Hwin|].
    intros i Hi. simpl in Hi |- *. rewrite slice_length; lia.
  - apply Forall2_fmap, Forall_Forall2_diag.
    eapply Forall_impl; [exact Hwin|]. intros i Hi. simpl in Hi |- *.
    exists i. split; [done|]. split; [|apply shifted_window].
    intros t Ht. rewrite !slice_lookup by lia.
    split; [done|]. f_equal. lia.
Qed.

Lemma get_batch_windows_witness :
  ∃ x y g',
    Script.get_batch unit last_start tiny_cfg 2 [0; 1; 0; 1; 1]%Z [1; 0; 1]%Z
      "train" tt = Ok (x, y, g') ∧
    shape x = (2, 2) ∧ shape y = (2, 2) ∧
    well_shaped x ∧ well_shaped y ∧
    Forall2 (λ xr yr,
        ∃ i, i + 2 < 5 ∧
             (∀ t, t < 2 →
                   xr !! t = [0; 1; 0; 1; 1]%Z !! (i + t) ∧
                   yr !! t = [0; 1; 0; 1; 1]%Z !! (i + t + 1)) ∧
             drop 1 xr = take 1 yr)
      (rows x) (rows y).
Proof.
  refine (get_batch_windows unit last_start tiny_cfg 2 [0; 1; 0; 1; 1]%Z
            [1; 0; 1]%Z "train" tt last_start_contract _ _); simpl; lia.
Defined.

(** X7. A split of at most [blocksize] tokens gives no batch: [get_batch]
    raises RuntimeError, also when the split has exactly [blocksize] tokens,
    since the targets need one token more. *)
Theorem get_batch_short_split (rng : Type)
    (randint : nat → nat → rng → list nat * rng)
    (cfg : config) (batchsize : nat) (train_data test_data : list Z)
    (split : string) (g : rng) :
  let data := if String.eqb split "train" then train_data else test_data in
  length data ≤ blocksize cfg →
  Script.get_batch rng randint cfg batchsize train_data test_data split g =
  Err RuntimeError.
Proof.
  intros data Hlen. unfold Script.get_batch, Script.torch_randint. fold data.
  destruct (Z.ltb_spec 0 (Z.of_nat (length data) - Z.of_nat (blocksize cfg)));
    [lia|done].
Qed.

Lemma get_batch_short_split_witness :
  Script.get_batch unit last_start tiny_cfg 2 [0; 1; 0; 1; 1]%Z [1; 0]%Z
    "test" tt = Err RuntimeError.
Proof.
  refine (get_batch_short_split unit last_start tiny_cfg 2 [0; 1; 0; 1; 1]%Z
            [1; 0]%Z "test" tt _). simpl. lia.
Defined.

(** X8. A batch of [get_batch] over data of the vocabulary is accepted by
    the forward pass with its targets: the forward call of the training
    step (line 220) and of [estimate_loss] (line 65) returns flattened
    logits and a loss, it does not raise. *)
Theorem forward_on_get_batch (rng : Type)
    (randint : nat → nat → rng → list nat * rng)
    (cfg : config) (m : Bigram_Language_Model.t) (batchsize : nat)
    (train_data test_data : list Z) (split : string) (g : rng) :
  let data := if String.eqb split "train" then train_data else test_data in
  Script.randint_contract rng randint →
  Bigram_Language_Model.init_shape cfg m → valid_config cfg →
  0 < batchsize → blocksize cfg < length data →
  Forall (in_vocab cfg) data →
  ∃ x y g' L loss,
    Script.get_batch rng randint cfg batchsize train_data test_data split g =
      Ok (x, y, g') ∧
    valid_input cfg x ∧ valid_input cfg y ∧
    Bigram_Language_Model.forward m x (Some y) =
      Ok (Tensor2 (batchsize * blocksize cfg, vocab_size cfg) L, Some loss).
Proof.
  intros data Hrandint Hinit Hcfg Hbatch Hlen Hvocab.
  destruct (get_batch_Ok rng randint cfg batchsize train_data test_data
              Hrandint split g Hbatch Hlen) as (Hget & Hix & Hwin).
  fold data in Hget, Hix, Hwin.
  set (ix := (randint (length data - blocksize cfg) batchsize g).1) in *.
  assert (Hvalid : ∀ (f : nat → list Z),
    (∀ i, i + blocksize cfg < length data →
          length (f i) = blocksize cfg ∧ Forall (in_vocab cfg) (f i)) →
    valid_input cfg {| shape := (batchsize, blocksize cfg); rows := f <$> ix |}).
  { intros f Hf. unfold valid_input, well_shaped. simpl.
    rewrite length_fmap. repeat split; [done| |lia|].
    - apply Forall_fmap. eapply Forall_impl; [exact Hwin|].
      intros i Hi. by apply Hf.
    - apply Forall_fmap. eapply Forall_impl; [exact Hwin|].
      intros i Hi. by apply Hf. }
  assert (Hx : valid_input cfg
    {| shape := (batchsize, blocksize cfg);
       rows := (λ i, Script.slice data i (i + blocksize cfg)) <$> ix |}).
  { apply Hvalid. intros i Hi. split; [rewrite slice_length; lia|].
    unfold Script.slice. by apply Forall_drop, Forall_take. }
  assert (Hy : valid_input cfg
    {| shape := (batchsize, blocksize cfg);
       rows := (λ i, Script.slice data (i + 1) (i + blocksize cfg + 1)) <$> ix |}).
  { apply Hvalid. intros i Hi. split; [rewrite slice_length; lia|].
    unfold Script.slice. by apply Forall_drop, Forall_take. }
  eexists _, _, _, _, _. split; [exact Hget|].
  split; [exact Hx|]. split; [exact Hy|].
  by rewrite (forward_Some_Ok cfg m Hinit Hcfg _ _ Hx Hy eq_refl).
Qed.

Lemma forward_on_get_batch_witness :
  ∃ x y g' L loss,
    Script.get_batch unit last_start tiny_cfg 2 [0; 1; 0; 1; 1]%Z [1; 0; 1]%Z
      "train" tt = Ok (x, y, g') ∧
    valid_input tiny_cfg x ∧ valid_input tiny_cfg y ∧
    Bigram_Language_Model.forward tiny_model x (Some y) =
      Ok (Tensor2 (2 * 2, 2) L, Some loss).
Proof.
  refine (forward_on_get_batch unit last_start tiny_cfg tiny_model 2
            [0; 1; 0; 1; 1]%Z [1; 0; 1]%Z "train" tt last_start_contract
            tiny_model_init_shape tiny_cfg_valid _ _ _).
  - lia.
  - simpl. lia.
  - simpl. by apply (bool_decide_unpack _).
Defined.

End BatchProperties.

(** ** Layers *)

Section HeadMore.
Context (cfg : config) (hs : nat) (h : Head.t).
Hypothesis Hinit : Head.init_shape cfg hs h.

Lemma value_width (x : matrix) :
  x ≠ [] → width (Linear.forward (Head.value h) x) = hs.
Proof using Hinit.
  destruct Hinit as (_ & _ & Hv & _). intros Hne.
  destruct x as [|x0 x]; [done|]. simpl. by eapply Linear_apply_length.
Qed.

Lemma Head_out_width (x : matrix) :
  Forall (λ r : vec, length r = hs) (Head_out h x).
Proof using Hinit.
  destruct x as [|x0 x]; [constructor|].
  unfold Head_out, matmul. apply Forall_fmap, Forall_forall. intros a _.
  cbv [compose]. by rewrite length_fmap, transpose_length, value_width.
Qed.

Lemma tril_mask_length (T : nat) :
  length (torch.eq_zero (torch.slice2 T
            (torch.tril (torch.ones (blocksize cfg) (blocksize cfg))))) =
  T `min` blocksize cfg.
Proof.
  unfold torch.eq_zero, torch.slice2, torch.tril, torch.ones.
  by rewrite length_fmap, length_take, length_fmap, length_imap, length_replicate.
Qed.

Lemma masked_first (T : nat) (r : vec) (a : R) :
  0 < T → r !! 0 = Some a →
  take 1 (F.softmax (masked 0 T r)) = [1%R] ∧
  Forall (λ w, w = 0%R) (drop 1 (F.softmax (masked 0 T r))).
Proof.
  intros HT Ha.
  assert (Htail : Forall (λ a, a = neg_inf) (drop 1 (masked 0 T r)))
    by (apply masked_tail; lia).
  split; [|by apply softmax_tail].
  rewrite <- softmax_take by done.
  rewrite <- masked_take. replace (1 `min` T) with 1 by lia.
  destruct r as [|a' r]; [done|]. injection Ha as ->.
  unfold masked, F.softmax. simpl.
  f_equal. field. pose proof (exp_pos a). lra.
Qed.

Lemma Head_out_first (x0 : vec) (x : matrix) :
  0 < hs →
  Head_out h (x0 :: x) !! 0 = Some (Linear.apply (Head.value h) x0).
Proof using Hinit.
  intros Hhs.
  destruct (lookup_lt_is_Some_2 (Head.affinity h (x0 :: x)) 0) as [r Hr];
    [rewrite affinity_length; simpl; lia|].
  pose proof (affinity_row_length cfg hs h _ r 0 Hinit Hhs Hr) as Hlen.
  destruct (lookup_lt_is_Some_2 r 0) as [a Ha]; [rewrite Hlen; simpl; lia|].
  destruct (masked_first (length (x0 :: x)) r a) as [Hone Hzero];
    [simpl; lia|done|].
  unfold Head_out, Head_weights, matmul.
  rewrite list_lookup_fmap, list_lookup_imap, Hr.
  cbn [fmap option_fmap option_map]. f_equal.
  set (v := Linear.forward (Head.value h) (x0 :: x)).
  set (w := F.softmax (masked 0 (length (x0 :: x)) r)) in *.
  transitivity ((λ c, nth c (Linear.apply (Head.value h) x0) 0%R) <$>
                seq 0 (length (Linear.apply (Head.value h) x0)));
    [|apply fmap_nth_seq].
  unfold transpose. rewrite <- list_fmap_compose.
  replace (width v) with (length (Linear.apply (Head.value h) x0)) by done.
  apply list_fmap_ext. intros _ c _. cbv [compose].
  rewrite <- (dot_take w (column c v) 1) by done.
  rewrite Hone. unfold column, v, Linear.forward. rewrite fmap_cons.
  unfold dot. simpl. lra.
Qed.

End HeadMore.

Section HeadProperties.

Lemma tiny_head_init_shape : Head.init_shape tiny_cfg 4 tiny_head.
Proof. by apply (bool_decide_unpack _). Qed.

(** X9. Called on a sequence longer than [blocksize], a head raises
    RuntimeError at the mask (the sliced [tril] has only [blocksize] rows
    and does not broadcast), whenever [blocksize] is not 1. *)
Theorem Head_forward_rejects_long (cfg : config) (hs : nat) (h : Head.t)
    (x : matrix) :
  Head.init_shape cfg hs h →
  blocksize cfg < length x → blocksize cfg ≠ 1 →
  Head.forward h x = Err RuntimeError.
Proof.
  intros (_ & _ & _ & Htril) Hlong Hne.
  unfold Head.forward, torch.masked_fill.
  rewrite Htril, tril_mask_length.
  unfold mscale, matmul, Linear.forward. rewrite !length_fmap.
  destruct (Nat.eqb_spec (length x `min` blocksize cfg) (length x)); [lia|].
  destruct (Nat.eqb_spec (length x `min` blocksize cfg) 1); [lia|]. done.
Qed.

Lemma Head_forward_rejects_long_witness :
  Head.forward tiny_head [[1; 2; 3; 4]; [4; 3; 2; 1]; [0; 0; 0; 0]]%R =
  Err RuntimeError.
Proof.
  refine (Head_forward_rejects_long tiny_cfg 4 tiny_head _
            tiny_head_init_shape _ _); simpl; lia.
Defined.

(** X10. The first position can only attend to itself: on an input of
    [n_embd] features within the context length, the output of a head at
    position 0 is the value projection of the input at position 0. *)
Theorem Head_forward_first_position (cfg : config) (hs : nat) (h : Head.t)
    (x0 : vec) (x : matrix) :
  Head.init_shape cfg hs h → 0 < hs →
  length (x0 :: x) ≤ blocksize cfg →
  Forall (λ r : vec, length r = n_embd cfg) (x0 :: x) →
  ∃ out, Head.forward h (x0 :: x) = Ok out ∧
         out !! 0 = Some (Linear.apply (Head.value h) x0).
Proof.
  intros Hinit Hhs HT _. exists (Head_out h (x0 :: x)). split.
  - by apply (Head_forward_Ok cfg hs h (x0 :: x) Hinit HT).
  - by apply (Head_out_first cfg hs).
Qed.

Lemma Head_forward_first_position_witness :
  ∃ out, Head.forward tiny_head [[1; 2; 3; 4]; [4; 3; 2; 1]]%R = Ok out ∧
         out !! 0 = Some (Linear.apply (Head.value tiny_head) [1; 2; 3; 4]%R).
Proof.
  refine (Head_forward_first_position tiny_cfg 4 tiny_head [1; 2; 3; 4]%R
            [[4; 3; 2; 1]%R] tiny_head_init_shape _ _ _).
  - lia.
  - simpl. lia.
  - by repeat constructor.
Defined.

(** X11. On an input of [n_embd] features within the context length a head
    returns one row of [head_size] features per position, and it is causal:
    on the first n positions of the input it returns the first n rows of
    its output. *)
Theorem Head_forward_causal (cfg : config) (hs : nat) (h : Head.t) (x : matrix) :
  Head.init_shape cfg hs h → length x ≤ blocksize cfg →
  Forall (λ r : vec, length r = n_embd cfg) x →
  ∃ out, Head.forward h x = Ok out ∧
         length out = length x ∧
         Forall (λ r : vec, length r = hs) out ∧
         ∀ n, Head.forward h (take n x) = Ok (take n out).
Proof.
  intros Hinit HT _. exists (Head_out h x). split; [|split; [|split]].
  - by apply (Head_forward_Ok cfg hs h x Hinit HT).
  - apply Head_out_length.
  - by apply (Head_out_width cfg).
  - intros n. rewrite <- Head_out_take.
    apply (Head_forward_Ok cfg hs h (take n x) Hinit).
    rewrite length_take. lia.
Qed.

Lemma Head_forward_causal_witness :
  ∃ out, Head.forward tiny_head [[1; 2; 3; 4]; [4; 3; 2; 1]]%R = Ok out ∧
         length out = 2 ∧
         Forall (λ r : vec, length r = 4) out ∧
         ∀ n, Head.forward tiny_head (take n [[1; 2; 3; 4]; [4; 3; 2; 1]]%R) =
              Ok (take n out).
Proof.
  refine (Head_forward_causal tiny_cfg 4 tiny_head _ tiny_head_init_shape _ _).
  - simpl. lia.
  - by repeat constructor.
Defined.

End HeadProperties.

Section LayerShapes.

Lemma cat_rows_lookup (ms : list matrix) (T t : nat) :
  ms ≠ [] → Forall (λ m, length m = T) ms → t < T →
  torch.cat_rows ms !! t = Some (concat ((λ m, nth t m []) <$> ms)).
Proof.
  intros Hne Hall Ht. induction Hall as [|m ms Hm Hms IH]; [done|].
  destruct (lookup_lt_is_Some_2 m t) as [r Hr]; [lia|].
  destruct ms as [|m' ms].
  - simpl. rewrite Hr, (nth_lookup_Some _ _ _ _ Hr). by rewrite app_nil_r.
  - change (zip_with app m (torch.cat_rows (m' :: ms)) !! t =
            Some (nth t m [] ++ concat ((λ m, nth t m []) <$> m' :: ms))).
    rewrite lookup_zip_with, Hr, IH by done. simpl.
    by rewrite (nth_lookup_Some _ _ _ _ Hr).
Qed.

Lemma concat_slice {A} (ls : list (list A)) (w i : nat) (l : list A) :
  Forall (λ l, length l = w) ls → ls !! i = Some l →
  take w (drop (i * w) (concat ls)) = l.
Proof.
  intros Hall. revert i. induction Hall as [|l0 ls Hl0 _ IH]; intros i Hi; [done|].
  destruct i as [|i]; simpl in Hi.
  - injection Hi as ->. change (0 * w) with 0. rewrite drop_0.
    change (concat (l :: ls)) with (l ++ concat ls).
    rewrite <- Hl0. by rewrite take_app_length.
  - change (concat (l0 :: ls)) with (l0 ++ concat ls).
    replace (S i * w) with (length l0 + i * w) by lia.
    rewrite drop_app_add. by apply IH.
Qed.

Lemma concat_length_rows {A} (ls : list (list A)) (w : nat) :
  Forall (λ l, length l = w) ls → length (concat ls) = length ls * w.
Proof. apply concat_length_uniform. Qed.

Lemma Linear_forward_width (l : Linear.t) (i o : nat) (b : bool) (x : matrix) :
  Linear.init_shape i o b l →
  Forall (λ r : vec, length r = o) (Linear.forward l x).
Proof.
  intros Hl. unfold Linear.forward. apply Forall_fmap, Forall_forall.
  intros r _. cbv [compose]. by eapply Linear_apply_length.
Qed.

Lemma madd_width (n : nat) (A B : matrix) :
  Forall (λ r : vec, length r = n) A → Forall (λ r : vec, length r = n) B →
  Forall (λ r : vec, length r = n) (madd A B).
Proof.
  intros HA HB. rewrite Forall_lookup in HA. rewrite Forall_lookup in HB.
  apply Forall_lookup. intros t r. unfold madd. rewrite lookup_zip_with.
  destruct (A !! t) as [a|] eqn:Ha; simpl; [|done].
  destruct (B !! t) as [b|] eqn:Hb; simpl; [|done].
  intros [= <-]. unfold vadd.
  rewrite length_zip_with, (HA t a Ha), (HB t b Hb). lia.
Qed.

Lemma FeedFoward_forward_width (n : nat) (f : FeedFoward.t) (x : matrix) :
  FeedFoward.init_shape n f →
  Forall (λ r : vec, length r = n) (FeedFoward.forward f x).
Proof.
  intros [_ H2]. unfold FeedFoward.forward, Dropout.
  by eapply Linear_forward_width.
Qed.

Lemma MultiHeadAttention_out_width cfg nh hs (a : MultiHeadAttention.t)
    (x : matrix) :
  MultiHeadAttention.init_shape cfg nh hs a →
  Forall (λ r : vec, length r = n_embd cfg) (MultiHeadAttention_out a x).
Proof.
  intros (_ & _ & Hproj). unfold MultiHeadAttention_out.
  by eapply Linear_forward_width.
Qed.

Lemma Block_out_width cfg (b : Block.t) (x : matrix) :
  Block.init_shape cfg b →
  Forall (λ r : vec, length r = n_embd cfg) x →
  Forall (λ r : vec, length r = n_embd cfg) (Block_out b x).
Proof.
  intros (Hsa & Hff & _) Hx. unfold Block_out.
  apply madd_width; [apply madd_width; [done|]|].
  - by eapply MultiHeadAttention_out_width.
  - by apply FeedFoward_forward_width.
Qed.

(** X12. The heads fill the concatenation in order: when the heads
    together have the [n_embd] features that [proj] expects, on an input of
    [n_embd] features within the context length, at every position the row
    that [proj] reads has [num_heads * head_size] features, and its slice
    [i*head_size, (i+1)*head_size) is the output of head i. *)
Theorem MultiHeadAttention_feature_slices (cfg : config) (nh hs : nat)
    (a : MultiHeadAttention.t) (x : matrix) (t i : nat) (h : Head.t) :
  MultiHeadAttention.init_shape cfg nh hs a →
  0 < n_embd cfg → nh * hs = n_embd cfg →
  length x ≤ blocksize cfg → Forall (λ r : vec, length r = n_embd cfg) x →
  t < length x →
  MultiHeadAttention.heads a !! i = Some h →
  ∃ outs cat out_h row_h row,
    comprehension (λ h, Head.forward h x) (MultiHeadAttention.heads a) = Ok outs ∧
    torch.cat_last outs = Ok cat ∧
    MultiHeadAttention.forward a x =
      Ok (Linear.forward (MultiHeadAttention.proj a) cat) ∧
    Head.forward h x = Ok out_h ∧
    out_h !! t = Some row_h ∧ cat !! t = Some row ∧
    length row = nh * hs ∧
    take hs (drop (i * hs) row) = row_h.
Proof.
  intros (Hlen & Hheads & Hproj) _ _ HT _ Ht Hh.
  set (outs := (λ h, Head_out h x) <$> MultiHeadAttention.heads a).
  assert (Houts : comprehension (λ h, Head.forward h x)
                    (MultiHeadAttention.heads a) = Ok outs).
  { apply comprehension_all_Ok. eapply Forall_impl; [exact Hheads|].
    intros h' Hh'. by apply (Head_forward_Ok cfg hs h' x Hh' HT). }
  assert (Hne : outs ≠ []).
  { unfold outs. intros Hnil. apply fmap_nil_inv in Hnil.
    by rewrite Hnil in Hh. }
  assert (Hrows : Forall (λ m : matrix, length m = length x) outs).
  { apply Forall_fmap, Forall_forall. intros h' _. apply Head_out_length. }
  assert (Hinit_h : Head.init_shape cfg hs h).
  { rewrite Forall_lookup in Hheads. by eapply Hheads. }
  destruct (lookup_lt_is_Some_2 (Head_out h x) t) as [row_h Hrow_h];
    [by rewrite Head_out_length|].
  exists outs, (torch.cat_rows outs), (Head_out h x), row_h,
    (concat ((λ m, nth t m []) <$> outs)).
  split; [done|]. split; [by destruct outs|]. split.
  { unfold MultiHeadAttention.forward. rewrite Houts. simpl.
    by destruct outs. }
  split; [by apply (Head_forward_Ok cfg hs h x Hinit_h HT)|].
  split; [done|]. split; [by apply (cat_rows_lookup _ (length x))|].
  assert (Hw : Forall (λ l : vec, length l = hs) ((λ m, nth t m []) <$> outs)).
  { unfold outs. rewrite <- list_fmap_compose. apply Forall_fmap.
    eapply Forall_impl; [exact Hheads|]. intros h' Hh'. cbv [compose].
    destruct (lookup_lt_is_Some_2 (Head_out h' x) t) as [r Hr];
      [by rewrite Head_out_length|].
    rewrite (nth_lookup_Some _ _ _ _ Hr).
    pose proof (Head_out_width cfg hs h' Hh' x) as Hwd.
    rewrite Forall_lookup in Hwd. by eapply Hwd. }
  split.
  - rewrite (concat_length_uniform _ hs) by done.
    unfold outs. by rewrite !length_fmap, Hlen.
  - apply concat_slice; [done|]. unfold outs.
    rewrite <- list_fmap_compose, list_lookup_fmap, Hh. simpl.
    by rewrite (nth_lookup_Some _ _ _ _ Hrow_h).
Qed.

Lemma MultiHeadAttention_feature_slices_witness :
  ∃ outs cat out_h row_h row,
    comprehension (λ h, Head.forward h [[1; 2; 3; 4]; [4; 3; 2; 1]]%R)
      (MultiHeadAttention.heads duo_attention) = Ok outs ∧
    torch.cat_last outs = Ok cat ∧
    MultiHeadAttention.forward duo_attention
      [[1; 2; 3; 4]; [4; 3; 2; 1]]%R =
      Ok (Linear.forward (MultiHeadAttention.proj duo_attention) cat) ∧
    Head.forward (duo_head 2) [[1; 2; 3; 4]; [4; 3; 2; 1]]%R = Ok out_h ∧
    out_h !! 1 = Some row_h ∧ cat !! 1 = Some row ∧
    length row = 2 * 2 ∧
    take 2 (drop (1 * 2) row) = row_h.
Proof.
  refine (MultiHeadAttention_feature_slices duo_cfg 2 2 duo_attention
            [[1; 2; 3; 4]; [4; 3; 2; 1]]%R 1 1 (duo_head 2) _ _ _ _ _ _ _).
  - by apply (bool_decide_unpack _).
  - simpl. lia.
  - reflexivity.
  - simpl. lia.
  - by repeat constructor.
  - simpl. lia.
  - reflexivity.
Defined.

End LayerShapes.

(** ** The transformer block *)

Section BlockProperties.

Lemma tiny_block_init_shape : Block.init_shape tiny_cfg tiny_block.
Proof. by apply (bool_decide_unpack _). Qed.

Lemma duo_block_init_shape : Block.init_shape duo_cfg duo_block.
Proof. by apply (bool_decide_unpack _). Qed.

Lemma duo_cfg_valid : valid_config duo_cfg.
Proof. by apply (bool_decide_unpack _). Qed.

Lemma nth_madd (n : nat) (A B : matrix) (t j : nat) :
  length B = length A →
  Forall (λ r : vec, length r = n) A → Forall (λ r : vec, length r = n) B →
  t < length A → j < n →
  nth j (nth t (madd A B) []) 0%R =
  (nth j (nth t A []) 0%R + nth j (nth t B []) 0%R)%R.
Proof.
  intros Hlen HA HB Ht Hj.
  destruct (lookup_lt_is_Some_2 A t) as [a Ha]; [done|].
  destruct (lookup_lt_is_Some_2 B t) as [b Hb]; [lia|].
  rewrite Forall_lookup in HA. rewrite Forall_lookup in HB.
  pose proof (HA t a Ha) as Hla. pose proof (HB t b Hb) as Hlb.
  simpl in Hla, Hlb.
  destruct (lookup_lt_is_Some_2 a j) as [aj Haj]; [lia|].
  destruct (lookup_lt_is_Some_2 b j) as [bj Hbj]; [lia|].
  rewrite (nth_lookup_Some A t [] a Ha), (nth_lookup_Some B t [] b Hb).
  rewrite (nth_lookup_Some (madd A B) t [] (vadd a b)).
  2:{ unfold madd. by rewrite lookup_zip_with, Ha, Hb. }
  rewrite (nth_lookup_Some a j 0%R aj Haj), (nth_lookup_Some b j 0%R bj Hbj).
  apply nth_lookup_Some. unfold vadd. by rewrite lookup_zip_with, Haj, Hbj.
Qed.

(** C8. On an input x of shape (T, n_embd) within the context length a
    block computes a = sa(ln1(x)) and x1 = x + a, then f = ffwd(ln2(x1)),
    and returns y = x1 + f.  All four have the shape of x, and the sums are
    sums of numbers, feature by feature: x1[t][j] = x[t][j] + a[t][j] and
    y[t][j] = x[t][j] + a[t][j] + f[t][j].  Each sub-layer reads the
    normalised input, and its result is added to what the sub-layer was
    given. *)
Theorem Block_forward_residual (cfg : config) (b : Block.t) (x : matrix) :
  Block.init_shape cfg b → valid_config cfg →
  length x ≤ blocksize cfg →
  Forall (λ r : vec, length r = n_embd cfg) x →
  ∃ a x1 f y,
    MultiHeadAttention.forward (Block.sa b)
      (LayerNorm.forward (Block.ln1 b) x) = Ok a ∧
    f = FeedFoward.forward (Block.ffwd b) (LayerNorm.forward (Block.ln2 b) x1) ∧
    Block.forward b x = Ok y ∧
    Forall (λ M : matrix, length M = length x ∧
                          Forall (λ r : vec, length r = n_embd cfg) M)
      [a; x1; f; y] ∧
    ∀ t j, t < length x → j < n_embd cfg →
      nth j (nth t x1 []) 0%R =
        (nth j (nth t x []) 0%R + nth j (nth t a []) 0%R)%R ∧
      nth j (nth t y []) 0%R =
        (nth j (nth t x []) 0%R + nth j (nth t a []) 0%R +
         nth j (nth t f []) 0%R)%R.
Proof.
  intros Hb (_ & Hnh & _) HT Hx. pose proof Hb as (Hsa & Hff & _).
  set (a := MultiHeadAttention_out (Block.sa b) (LayerNorm.forward (Block.ln1 b) x)).
  assert (Ha : length a = length x).
  { unfold a. by rewrite (MultiHeadAttention_out_length cfg _ _ _ Hsa Hnh),
      LayerNorm_forward_length. }
  assert (Haw : Forall (λ r : vec, length r = n_embd cfg) a)
    by (by eapply MultiHeadAttention_out_width).
  set (x1 := madd x a).
  assert (Hx1 : length x1 = length x) by (by apply madd_length).
  assert (Hx1w : Forall (λ r : vec, length r = n_embd cfg) x1)
    by (by apply madd_width).
  set (f := FeedFoward.forward (Block.ffwd b) (LayerNorm.forward (Block.ln2 b) x1)).
  assert (Hf : length f = length x1).
  { unfold f. by rewrite FeedFoward_forward_length, LayerNorm_forward_length. }
  assert (Hfw : Forall (λ r : vec, length r = n_embd cfg) f)
    by (by apply FeedFoward_forward_width).
  assert (Hy : length (madd x1 f) = length x).
  { rewrite madd_length; [done|]. by rewrite Hf. }
  assert (Hyw : Forall (λ r : vec, length r = n_embd cfg) (madd x1 f))
    by (by apply madd_width).
  exists a, x1, f, (madd x1 f). split; [|split; [done|split; [|split]]].
  - apply (MultiHeadAttention_forward_Ok cfg _ _ _ Hsa Hnh).
    by rewrite LayerNorm_forward_length.
  - by rewrite (Block_forward_Ok cfg Hnh b x Hb HT).
  - rewrite Hx1 in Hf. by repeat constructor.
  - intros t j Ht Hj.
    assert (E1 : nth j (nth t x1 []) 0%R =
                 (nth j (nth t x []) 0%R + nth j (nth t a []) 0%R)%R)
      by (by apply (nth_madd (n_embd cfg))).
    split; [done|]. rewrite <- E1.
    apply (nth_madd (n_embd cfg)); try done. lia.
Qed.

Lemma Block_forward_residual_witness :
  ∃ a x1 f y,
    MultiHeadAttention.forward (Block.sa duo_block)
      (LayerNorm.forward (Block.ln1 duo_block)
         [[1; 2; 3; 4]; [4; 3; 2; 1]]%R) = Ok a ∧
    f = FeedFoward.forward (Block.ffwd duo_block)
          (LayerNorm.forward (Block.ln2 duo_block) x1) ∧
    Block.forward duo_block [[1; 2; 3; 4]; [4; 3; 2; 1]]%R = Ok y ∧
    Forall (λ M : matrix, length M = 2 ∧ Forall (λ r : vec, length r = 4) M)
      [a; x1; f; y] ∧
    ∀ t j, t < 2 → j < 4 →
      nth j (nth t x1 []) 0%R =
        (nth j (nth t [[1; 2; 3; 4]; [4; 3; 2; 1]]%R []) 0%R +
         nth j (nth t a []) 0%R)%R ∧
      nth j (nth t y []) 0%R =
        (nth j (nth t [[1; 2; 3; 4]; [4; 3; 2; 1]]%R []) 0%R +
         nth j (nth t a []) 0%R + nth j (nth t f []) 0%R)%R.
Proof.
  refine (Block_forward_residual duo_cfg duo_block
            [[1; 2; 3; 4]; [4; 3; 2; 1]]%R duo_block_init_shape
            duo_cfg_valid _ _).
  - simpl. lia.
  - by repeat constructor.
Defined.

(** X13. Under a configuration whose heads fill the embedding width, a
    block keeps the shape (T, n_embd) of an input within the context length
    and is causal: on the first n positions of the input it returns the
    first n rows of its output. *)
Theorem Block_forward_causal (cfg : config) (b : Block.t) (x : matrix) :
  Block.init_shape cfg b → valid_config cfg →
  length x ≤ blocksize cfg →
  Forall (λ r : vec, length r = n_embd cfg) x →
  ∃ y, Block.forward b x = Ok y ∧
       length y = length x ∧
       Forall (λ r : vec, length r = n_embd cfg) y ∧
       ∀ n, Block.forward b (take n x) = Ok (take n y).
Proof.
  intros Hb (_ & Hnh & _) HT Hx. exists (Block_out b x). split; [|split; [|split]].
  - by apply (Block_forward_Ok cfg Hnh).
  - by apply (Block_out_length cfg Hnh).
  - by apply Block_out_width.
  - intros n. rewrite <- Block_out_take.
    apply (Block_forward_Ok cfg Hnh); [done|]. rewrite length_take. lia.
Qed.

Lemma Block_forward_causal_witness :
  ∃ y, Block.forward duo_block [[1; 2; 3; 4]; [4; 3; 2; 1]]%R = Ok y ∧
       length y = 2 ∧
       Forall (λ r : vec, length r = 4) y ∧
       ∀ n, Block.forward duo_block (take n [[1; 2; 3; 4]; [4; 3; 2; 1]]%R) =
            Ok (take n y).
Proof.
  refine (Block_forward_causal duo_cfg duo_block _ duo_block_init_shape
            duo_cfg_valid _ _).
  - simpl. lia.
  - by repeat constructor.
Defined.

(** X14. The feed-forward layer works position by position: on an input of
    [n_embd] features its output at a position is the output it gives on
    that position alone, whatever the other positions hold, and it has
    [n_embd] features. *)
Theorem FeedFoward_position_wise (n : nat) (f : FeedFoward.t) (x : matrix)
    (t : nat) (xt : vec) :
  FeedFoward.init_shape n f → Forall (λ r : vec, length r = n) x →
  x !! t = Some xt →
  ∃ yt, FeedFoward.forward f x !! t = Some yt ∧
        FeedFoward.forward f [xt] = [yt] ∧
        length yt = n ∧
        length (FeedFoward.forward f x) = length x.
Proof.
  intros Hf _ Ht.
  exists (Linear.apply (FeedFoward.net_2 f)
            (Rmax 0 <$> Linear.apply (FeedFoward.net_0 f) xt)).
  split; [|split; [|split]].
  - unfold FeedFoward.forward, Dropout, FeedFoward.ReLU, Linear.forward.
    by rewrite !list_lookup_fmap, Ht.
  - done.
  - destruct Hf as [_ H2]. by eapply Linear_apply_length.
  - apply FeedFoward_forward_length.
Qed.

Lemma FeedFoward_position_wise_witness :
  ∃ yt, FeedFoward.forward (Block.ffwd tiny_block)
          [[1; 2; 3; 4]; [4; 3; 2; 1]]%R !! 1 = Some yt ∧
        FeedFoward.forward (Block.ffwd tiny_block) [[4; 3; 2; 1]%R] = [yt] ∧
        length yt = 4 ∧
        length (FeedFoward.forward (Block.ffwd tiny_block)
                  [[1; 2; 3; 4]; [4; 3; 2; 1]]%R) = 2.
Proof.
  refine (FeedFoward_position_wise 4 (Block.ffwd tiny_block)
            [[1; 2; 3; 4]; [4; 3; 2; 1]]%R 1 [4; 3; 2; 1]%R _ _ _).
  - by apply (bool_decide_unpack _).
  - by repeat constructor.
  - reflexivity.
Defined.

End BlockProperties.

(** ** The forward pass: targets, loss, rows and prefixes *)

Section ForwardMore.

Lemma nll_Err_only (l : vec) (t : Z) (e : error) :
  F.nll l t = Err e → e = IndexError.
Proof.
  unfold F.nll. destruct (_ =? _)%Z; [discriminate|].
  destruct (_ && _)%bool; [discriminate|]. by intros [= <-].
Qed.

Lemma nll_Err (l : vec) (t : Z) :
  ¬ (0 ≤ t < Z.of_nat (length l))%Z → t ≠ F.ignore_index →
  F.nll l t = Err IndexError.
Proof.
  intros Ht Hig. unfold F.nll.
  destruct (Z.eqb_spec t F.ignore_index); [done|].
  destruct (Z.leb_spec 0 t); [|done].
  destruct (Z.ltb_spec t (Z.of_nat (length l))); [lia|done].
Qed.

Lemma nll_is_Ok (l : vec) (t : Z) :
  (0 ≤ t < Z.of_nat (length l))%Z ∨ t = F.ignore_index →
  ∃ o, F.nll l t = Ok o.
Proof.
  intros [Ht| ->].
  - eexists. by apply nll_Ok.
  - by exists None.
Qed.

Lemma elem_of_concat {A} (x : A) (ls : list (list A)) :
  x ∈ concat ls → ∃ l, x ∈ l ∧ l ∈ ls.
Proof.
  induction ls as [|l ls IH]; simpl; [by intros ?%elem_of_nil|].
  intros [Hl|Hls]%elem_of_app.
  - exists l. split; [done|]. by left.
  - destruct (IH Hls) as (l' & Hx & Hl'). exists l'. split; [done|]. by right.
Qed.

Lemma Exists_concat {A} (P : A → Prop) (ls : list (list A)) :
  Exists (Exists P) ls → Exists P (concat ls).
Proof.
  induction 1 as [l ls Hl|l ls _ IH]; simpl; apply Exists_app; auto.
Qed.

Lemma softmax_positive (l : vec) (t : nat) (p : R) :
  F.softmax (finite <$> l) !! t = Some p → (0 < p <= 1)%R.
Proof.
  unfold F.softmax. set (es := F.exp_inf <$> (finite <$> l)).
  rewrite list_lookup_fmap. intros Hp.
  apply fmap_Some in Hp as (e & He & ->).
  assert (Hnn : Forall (λ x, (0 <= x)%R) es).
  { apply Forall_fmap, Forall_forall. intros b _. apply exp_inf_nonneg. }
  assert (Hpos : (0 < e)%R).
  { pose proof He as He'. unfold es in He'.
    rewrite <- list_fmap_compose, list_lookup_fmap in He'.
    apply fmap_Some in He' as (a & _ & ->). cbv [compose]. simpl.
    apply exp_pos. }
  assert (Hle : (e <= Rsum es)%R).
  { rewrite <- (take_drop_middle es t e He), Rsum_app.
    change (Rsum (e :: drop (S t) es)) with (e + Rsum (drop (S t) es))%R.
    assert (0 <= Rsum (take t es))%R by (apply Rsum_nonneg; by apply Forall_take).
    assert (0 <= Rsum (drop (S t) es))%R by (apply Rsum_nonneg; by apply Forall_drop).
    lra. }
  split.
  - apply Rdiv_lt_0_compat; lra.
  - replace 1%R with (Rsum es / Rsum es)%R by (field; lra).
    unfold Rdiv. apply Rmult_le_compat_r; [|done].
    left. apply Rinv_0_lt_compat. lra.
Qed.

Lemma position_loss_nonneg (l : vec) (t : Z) :
  (0 ≤ t < Z.of_nat (length l))%Z → (0 <= position_loss l t)%R.
Proof.
  intros Ht. unfold position_loss.
  destruct (lookup_lt_is_Some_2 (F.softmax (finite <$> l)) (Z.to_nat t))
    as [p Hp]; [rewrite softmax_length, length_fmap; lia|].
  rewrite (nth_lookup_Some _ _ _ _ Hp).
  apply softmax_positive in Hp as [Hpos Hle].
  assert (ln p <= ln 1)%R.
  { destruct Hle as [Hlt| ->]; [left; by apply ln_increasing|lra]. }
  rewrite ln_1 in *. lra.
Qed.

Lemma Rsum_zip_with_nonneg {A B} (f : A → B → R) (l : list A) (k : list B) :
  (∀ i a b, l !! i = Some a → k !! i = Some b → (0 <= f a b)%R) →
  (0 <= Rsum (zip_with f l k))%R.
Proof.
  intros Hf. apply Rsum_nonneg, Forall_lookup. intros i x.
  rewrite lookup_zip_with.
  destruct (l !! i) as [a|] eqn:Ha; simpl; [|done].
  destruct (k !! i) as [b|] eqn:Hb; simpl; [|done].
  intros [= <-]. by eapply Hf.
Qed.

Lemma Rsum_zip_with_const {A B} (f : A → B → R) (l : list A) (k : list B) (c : R) :
  length k = length l →
  (∀ i a b, l !! i = Some a → k !! i = Some b → f a b = c) →
  Rsum (zip_with f l k) = (INR (length l) * c)%R.
Proof.
  revert k. induction l as [|a l IH]; intros [|b k] Hlen Hf; try done.
  - simpl. lra.
  - change (Rsum (zip_with f (a :: l) (b :: k)))
      with (f a b + Rsum (zip_with f l k))%R.
    rewrite (Hf 0 a b eq_refl eq_refl), IH.
    + change (length (a :: l)) with (S (length l)). rewrite S_INR. lra.
    + simpl in Hlen. lia.
    + intros i a' b' Ha' Hb'. by apply (Hf (S i)).
Qed.

Lemma position_loss_uniform (V : nat) (c : R) (t : Z) :
  (0 ≤ t < Z.of_nat V)%Z →
  position_loss (replicate V c) t = ln (INR V).
Proof.
  intros Ht. unfold position_loss, F.softmax.
  rewrite !fmap_replicate. simpl F.exp_inf.
  assert (Hsum : ∀ n a, Rsum (replicate n a) = (INR n * a)%R).
  { induction n as [|n IH]; intros a; [simpl; lra|].
    change (Rsum (replicate (S n) a)) with (a + Rsum (replicate n a))%R.
    rewrite IH, S_INR. lra. }
  rewrite Hsum.
  rewrite (nth_lookup_Some _ (Z.to_nat t) _ (exp c / (INR V * exp c))%R).
  - assert (HV : (0 < INR V)%R) by (apply lt_0_INR; lia).
    pose proof (exp_pos c).
    replace (exp c / (INR V * exp c))%R with (/ INR V)%R by (field; lra).
    rewrite ln_Rinv by done. lra.
  - apply lookup_replicate_2. lia.
Qed.

Lemma mean_cross_entropy_nonneg (V B T : nat) (L : list matrix)
    (targets : list (list Z)) :
  0 < B * T →
  Forall (Forall (λ v : vec, length v = V)) L →
  Forall (Forall (λ t, (0 ≤ t < Z.of_nat V)%Z)) targets →
  (0 <= mean_cross_entropy B T L targets)%R.
Proof.
  intros Hpos HL Hvocab. unfold mean_cross_entropy. apply Rmult_le_pos.
  - apply Rsum_zip_with_nonneg. intros b M ts HM Hts.
    apply Rsum_zip_with_nonneg. intros t l c Hl Hc.
    apply position_loss_nonneg.
    rewrite Forall_lookup in HL. specialize (HL b M HM).
    rewrite Forall_lookup in HL. rewrite (HL t l Hl).
    rewrite Forall_lookup in Hvocab. specialize (Hvocab b ts Hts).
    rewrite Forall_lookup in Hvocab. by apply (Hvocab t c).
  - left. apply Rinv_0_lt_compat, lt_0_INR. done.
Qed.

Lemma softmax_distribution (l : vec) :
  l ≠ [] →
  length (F.softmax (finite <$> l)) = length l ∧
  Forall (λ p, (0 < p)%R) (F.softmax (finite <$> l)) ∧
  Rsum (F.softmax (finite <$> l)) = 1%R.
Proof.
  intros Hne. split; [by rewrite softmax_length, length_fmap|]. split.
  - apply Forall_lookup. intros t p Hp. by apply softmax_positive in Hp as [? _].
  - unfold F.softmax. rewrite Rsum_div.
    set (es := F.exp_inf <$> (finite <$> l)).
    assert (Hpos : (0 < Rsum es)%R).
    { destruct l as [|a l]; [done|].
      apply (Rsum_pos_lookup es 0 (exp a)); [|done|apply exp_pos].
      apply Forall_fmap, Forall_forall. intros b _. apply exp_inf_nonneg. }
    field. lra.
Qed.

End ForwardMore.

Section ForwardProperties.

(** X15. With a valid batch, targets whose number of elements is not B*T
    are refused at the [view] (RuntimeError).  Targets of the shape of a
    batch that is not empty are refused by the cross-entropy (IndexError)
    exactly when they hold a class outside [0, vocab_size) other than
    [ignore_index]: the sentinel -100 is skipped by the cross-entropy, not
    refused. *)
Theorem forward_rejects_targets (cfg : config) (m : Bigram_Language_Model.t)
    (idx targets : LongTensor) :
  Bigram_Language_Model.init_shape cfg m → valid_config cfg →
  valid_input cfg idx →
  ((shape targets).1 * (shape targets).2 ≠ (shape idx).1 * (shape idx).2 →
   Bigram_Language_Model.forward m idx (Some targets) = Err RuntimeError) ∧
  (well_shaped targets → shape targets = shape idx →
   0 < (shape idx).1 * (shape idx).2 →
   (Bigram_Language_Model.forward m idx (Some targets) = Err IndexError ↔
    Exists (Exists (λ t, ¬ in_vocab cfg t ∧ t ≠ F.ignore_index))
      (rows targets))).
Proof.
  intros Hinit Hcfg Hvalid.
  pose proof (logits_3d_Ok cfg m Hinit Hcfg idx Hvalid) as Hlogits.
  destruct (row_logits_shape cfg m Hinit Hcfg idx Hvalid) as (HlenL & HL).
  split.
  - intros Hnumel. rewrite forward_stages, Hlogits. simpl.
    destruct (shape idx) as [B T]. simpl in *.
    unfold Bigram_Language_Model.view1.
    destruct (Nat.eqb_spec ((shape targets).1 * (shape targets).2) (B * T));
      [lia|done].
  - intros (HBt & HTt) Hshape _. rewrite forward_stages, Hlogits. simpl.
    rewrite Hshape in HBt, HTt.
    destruct (shape idx) as [B T] eqn:Hidx. simpl in *.
    unfold Bigram_Language_Model.view1. rewrite Hshape. simpl.
    rewrite Nat.eqb_refl. simpl.
    assert (HlenC : length (concat (row_logits m <$> rows idx)) = B * T).
    { rewrite (concat_length_uniform _ T), HlenL; [done|].
      eapply Forall_impl; [exact HL|]. by intros M [HM _]. }
    assert (HlenT : length (concat (rows targets)) = B * T).
    { rewrite (concat_length_uniform _ T) by done. lia. }
    assert (HF : Forall (λ v : vec, length v = vocab_size cfg)
                   (concat (row_logits m <$> rows idx))).
    { apply Forall_concat. eapply Forall_impl; [exact HL|].
      by intros M [_ HM]. }
    unfold F.cross_entropy. rewrite HlenC, HlenT, Nat.eqb_refl.
    split.
    + intros Herr.
      destruct (decide (Exists (Exists (λ t, ¬ in_vocab cfg t ∧
                  t ≠ F.ignore_index)) (rows targets))) as [|Hnone]; [done|].
      exfalso.
      assert (Hall : Forall (λ lt : vec * Z, ∃ o, F.nll lt.1 lt.2 = Ok o)
                       (zip (concat (row_logits m <$> rows idx))
                            (concat (rows targets)))).
      { apply Forall_forall. intros [l t] Hin. simpl.
        apply elem_of_zip_with in Hin as (l' & t' & [= <- <-] & Hl & Ht).
        apply nll_is_Ok. rewrite Forall_forall in HF. rewrite (HF l Hl).
        destruct (decide (in_vocab cfg t)) as [|Hout]; [by left|].
        destruct (decide (t = F.ignore_index)) as [|Hig]; [by right|].
        exfalso. apply Hnone.
        apply elem_of_concat in Ht as (r & Ht & Hr).
        apply Exists_exists. exists r. split; [done|].
        apply Exists_exists. by exists t. }
      apply comprehension_Ok_iff in Hall as [os Hos].
      rewrite Hos in Herr. discriminate.
    + intros Hbad.
      rewrite (comprehension_Exists_Err _ _ IndexError); [done| |].
      * intros [l t] e He. by apply nll_Err_only in He.
      * apply Exists_concat in Hbad.
        apply Exists_exists in Hbad as (t & Hin & Ht & Hig).
        apply list_elem_of_lookup in Hin as [k Hk].
        destruct (lookup_lt_is_Some_2 (concat (row_logits m <$> rows idx)) k)
          as [l Hl]; [apply lookup_lt_Some in Hk; lia|].
        apply Exists_exists. exists (l, t). split.
        -- apply list_elem_of_lookup. exists k.
           by apply lookup_zip_Some.
        -- exists IndexError. simpl. apply nll_Err; [|done].
           rewrite Forall_lookup in HF. by rewrite (HF k l Hl).
Qed.

Lemma forward_rejects_targets_witness :
  Bigram_Language_Model.forward tiny_model tiny_idx
    (Some {| shape := (1, 3); rows := [[1; 0; 1]%Z] |}) = Err RuntimeError ∧
  Bigram_Language_Model.forward tiny_model tiny_idx
    (Some {| shape := (1, 2); rows := [[1; 2]%Z] |}) = Err IndexError ∧
  Bigram_Language_Model.forward tiny_model tiny_idx
    (Some {| shape := (1, 2); rows := [[1; -100]%Z] |}) ≠ Err IndexError.
Proof.
  split; [|split].
  - apply (proj1 (forward_rejects_targets tiny_cfg tiny_model tiny_idx
                    {| shape := (1, 3); rows := [[1; 0; 1]%Z] |}
                    tiny_model_init_shape tiny_cfg_valid tiny_idx_valid)).
    simpl. lia.
  - apply (proj2 (forward_rejects_targets tiny_cfg tiny_model tiny_idx
                    {| shape := (1, 2); rows := [[1; 2]%Z] |}
                    tiny_model_init_shape tiny_cfg_valid tiny_idx_valid)).
    + by apply (bool_decide_unpack _).
    + reflexivity.
    + simpl. lia.
    + by apply (bool_decide_unpack _).
  - intros Herr.
    apply (proj2 (forward_rejects_targets tiny_cfg tiny_model tiny_idx
                    {| shape := (1, 2); rows := [[1; -100]%Z] |}
                    tiny_model_init_shape tiny_cfg_valid tiny_idx_valid))
      in Herr.
    + by apply (bool_decide_pack _) in Herr.
    + by apply (bool_decide_unpack _).
    + reflexivity.
    + simpl. lia.
Defined.

(** X16. On a valid, non-empty batch with valid targets the loss is never
    negative. *)
Theorem forward_loss_nonneg (cfg : config) (m : Bigram_Language_Model.t)
    (idx targets : LongTensor) :
  Bigram_Language_Model.init_shape cfg m → valid_config cfg →
  valid_input cfg idx → valid_input cfg targets → shape targets = shape idx →
  0 < (shape idx).1 * (shape idx).2 →
  ∃ logits loss,
    Bigram_Language_Model.forward m idx (Some targets) = Ok (logits, Some loss) ∧
    (0 <= loss)%R.
Proof.
  intros Hinit Hcfg Hvalid Htargets Hshape Hpos.
  eexists _, _. split; [by apply forward_Some_Ok|].
  destruct (row_logits_shape cfg m Hinit Hcfg idx Hvalid) as (HlenL & HL).
  destruct Htargets as ((HBt & HTt) & _ & Hvocab).
  unfold mean_cross_entropy. apply Rmult_le_pos.
  - apply Rsum_zip_with_nonneg. intros b M ts HM Hts.
    apply Rsum_zip_with_nonneg. intros t l c Hl Hc.
    apply position_loss_nonneg.
    rewrite Forall_lookup in HL. destruct (HL b M HM) as [_ HMw].
    rewrite Forall_lookup in HMw. rewrite (HMw t l Hl).
    rewrite Forall_lookup in Hvocab. specialize (Hvocab b ts Hts).
    rewrite Forall_lookup in Hvocab. by apply (Hvocab t c).
  - left. apply Rinv_0_lt_compat, lt_0_INR. done.
Qed.

Lemma forward_loss_nonneg_witness :
  ∃ logits loss,
    Bigram_Language_Model.forward tiny_model tiny_idx (Some tiny_targets) =
      Ok (logits, Some loss) ∧
    (0 <= loss)%R.
Proof.
  refine (forward_loss_nonneg tiny_cfg tiny_model tiny_idx tiny_targets
            tiny_model_init_shape tiny_cfg_valid tiny_idx_valid
            tiny_targets_valid eq_refl _).
  simpl. lia.
Defined.

(** X17. When the logits of every position are constant over the
    vocabulary (the model predicts uniformly), the loss is exactly
    ln(vocab_size), whatever the targets. *)
Theorem forward_loss_uniform (cfg : config) (m : Bigram_Language_Model.t)
    (idx targets : LongTensor) (L : list matrix) :
  Bigram_Language_Model.init_shape cfg m → valid_config cfg →
  valid_input cfg idx → valid_input cfg targets → shape targets = shape idx →
  0 < (shape idx).1 * (shape idx).2 →
  Bigram_Language_Model.forward m idx None =
    Ok (Tensor3 ((shape idx).1, (shape idx).2, vocab_size cfg) L, None) →
  Forall (Forall (λ l : vec, ∃ c, l = replicate (vocab_size cfg) c)) L →
  ∃ logits,
    Bigram_Language_Model.forward m idx (Some targets) =
      Ok (logits, Some (ln (INR (vocab_size cfg)))).
Proof.
  intros Hinit Hcfg Hvalid Htargets Hshape Hpos Hnone Hconst.
  rewrite (forward_None_Ok cfg m Hinit Hcfg idx Hvalid) in Hnone.
  injection Hnone as <-.
  eexists. rewrite (forward_Some_Ok cfg m Hinit Hcfg idx targets) by done.
  do 3 f_equal.
  destruct (row_logits_shape cfg m Hinit Hcfg idx Hvalid) as (HlenL & HL).
  destruct Htargets as ((HBt & HTt) & _ & Hvocab). rewrite Hshape in HBt, HTt.
  unfold mean_cross_entropy.
  rewrite (Rsum_zip_with_const _ _ _
             (INR (shape idx).2 * ln (INR (vocab_size cfg)))%R).
  - rewrite HlenL, mult_INR.
    assert (0 < INR (shape idx).1)%R by (apply lt_0_INR; lia).
    assert (0 < INR (shape idx).2)%R by (apply lt_0_INR; lia).
    field. lra.
  - lia.
  - intros b M ts HM Hts.
    rewrite Forall_lookup in HL. destruct (HL b M HM) as [HMlen HMw].
    rewrite Forall_lookup in HTt. specialize (HTt b ts Hts). simpl in HTt.
    rewrite (Rsum_zip_with_const _ _ _ (ln (INR (vocab_size cfg))));
      [by rewrite HMlen|lia|].
    intros t l c Hl Hc.
    rewrite Forall_lookup in Hconst. specialize (Hconst b M HM).
    rewrite Forall_lookup in Hconst. destruct (Hconst t l Hl) as [c0 ->].
    apply position_loss_uniform.
    rewrite Forall_lookup in Hvocab. specialize (Hvocab b ts Hts).
    rewrite Forall_lookup in Hvocab. by apply (Hvocab t c).
Qed.

End ForwardProperties.

Section ForwardRows.

Lemma uniform_model_init_shape :
  Bigram_Language_Model.init_shape tiny_cfg uniform_model.
Proof. by apply (bool_decide_unpack _). Qed.

Lemma forward_loss_uniform_witness :
  ∃ logits,
    Bigram_Language_Model.forward uniform_model tiny_idx (Some tiny_targets) =
      Ok (logits, Some (ln (INR 2))).
Proof.
  refine (forward_loss_uniform tiny_cfg uniform_model tiny_idx tiny_targets
            (row_logits uniform_model <$> rows tiny_idx)
            uniform_model_init_shape tiny_cfg_valid tiny_idx_valid
            tiny_targets_valid eq_refl _ _ _).
  - simpl. lia.
  - exact (forward_None_Ok tiny_cfg uniform_model uniform_model_init_shape
             tiny_cfg_valid tiny_idx tiny_idx_valid).
  - apply Forall_fmap, Forall_forall. intros r _. cbv [compose].
    unfold row_logits, Linear.forward. apply Forall_fmap, Forall_forall.
    intros y _. cbv [compose]. exists (0 + 0)%R.
    unfold Linear.apply.
    cbn [uniform_model constant_linear Bigram_Language_Model.lm_head
         Linear.weight Linear.bias].
    by rewrite fmap_replicate, dot_zeros_r.
Defined.

Lemma keyed_model_init_shape :
  Bigram_Language_Model.init_shape tiny_cfg keyed_model.
Proof. by apply (bool_decide_unpack _). Qed.

Lemma tiny_batch_valid : valid_input tiny_cfg tiny_batch.
Proof. by apply (bool_decide_unpack _). Qed.

(** X18. The rows of a batch do not influence each other: the logits of a
    row are the logits the forward pass gives on that row alone. *)
Theorem forward_row_independent (cfg : config) (m : Bigram_Language_Model.t)
    (idx : LongTensor) (b : nat) (r : list Z) :
  Bigram_Language_Model.init_shape cfg m → valid_config cfg →
  valid_input cfg idx → rows idx !! b = Some r →
  ∃ L l,
    Bigram_Language_Model.forward m idx None =
      Ok (Tensor3 ((shape idx).1, (shape idx).2, vocab_size cfg) L, None) ∧
    L !! b = Some l ∧
    Bigram_Language_Model.forward m (single_row (shape idx).2 r) None =
      Ok (Tensor3 (1, (shape idx).2, vocab_size cfg) [l], None).
Proof.
  intros Hinit Hcfg Hvalid Hr.
  exists (row_logits m <$> rows idx), (row_logits m r).
  split; [by apply forward_None_Ok|]. split.
  - by rewrite list_lookup_fmap, Hr.
  - destruct Hvalid as ((HB & HT) & Hbs & Hvocab).
    rewrite Forall_lookup in HT. rewrite Forall_lookup in Hvocab.
    rewrite (forward_None_Ok cfg m Hinit Hcfg (single_row (shape idx).2 r));
      [done|].
    unfold valid_input, well_shaped, single_row. simpl.
    repeat split; [|done|].
    + constructor; [by eapply HT|constructor].
    + constructor; [by eapply Hvocab|constructor].
Qed.

Lemma forward_row_independent_witness :
  ∃ L l,
    Bigram_Language_Model.forward keyed_model tiny_batch None =
      Ok (Tensor3 (2, 2, 2) L, None) ∧
    L !! 1 = Some l ∧
    Bigram_Language_Model.forward keyed_model (single_row 2 [1; 0]%Z) None =
      Ok (Tensor3 (1, 2, 2) [l], None).
Proof.
  exact (forward_row_independent tiny_cfg keyed_model tiny_batch 1 [1; 0]%Z
           keyed_model_init_shape tiny_cfg_valid tiny_batch_valid eq_refl).
Defined.

(** X19. The logits of a prefix are the prefix of the logits: on the first n
    columns of a valid batch the forward pass returns the first n positions
    of the logits of the whole batch. *)
Theorem forward_prefix (cfg : config) (m : Bigram_Language_Model.t)
    (idx : LongTensor) (n : nat) :
  Bigram_Language_Model.init_shape cfg m → valid_config cfg →
  valid_input cfg idx →
  ∃ L,
    Bigram_Language_Model.forward m idx None =
      Ok (Tensor3 ((shape idx).1, (shape idx).2, vocab_size cfg) L, None) ∧
    Bigram_Language_Model.forward m (first_columns n idx) None =
      Ok (Tensor3 ((shape idx).1, n `min` (shape idx).2, vocab_size cfg)
            (take n <$> L), None).
Proof.
  intros Hinit Hcfg Hvalid.
  exists (row_logits m <$> rows idx). split; [by apply forward_None_Ok|].
  destruct Hvalid as ((HB & HT) & Hbs & Hvocab).
  rewrite (forward_None_Ok cfg m Hinit Hcfg (first_columns n idx)).
  - unfold first_columns. simpl. do 3 f_equal.
    rewrite <- !list_fmap_compose. apply list_fmap_ext.
    intros _ r _. cbv [compose]. apply row_logits_take.
  - unfold valid_input, well_shaped, first_columns. simpl.
    rewrite length_fmap. repeat split; [done| |lia|].
    + apply Forall_fmap. eapply Forall_impl; [exact HT|].
      intros r Hr. cbv [compose]. simpl in Hr. rewrite length_take. lia.
    + apply Forall_fmap. eapply Forall_impl; [exact Hvocab|].
      intros r Hr. cbv [compose]. by apply Forall_take.
Qed.

Lemma forward_prefix_witness :
  ∃ L,
    Bigram_Language_Model.forward tiny_model tiny_idx None =
      Ok (Tensor3 (1, 2, 2) L, None) ∧
    Bigram_Language_Model.forward tiny_model (first_columns 1 tiny_idx) None =
      Ok (Tensor3 (1, 1, 2) (take 1 <$> L), None).
Proof.
  exact (forward_prefix tiny_cfg tiny_model tiny_idx 1
           tiny_model_init_shape tiny_cfg_valid tiny_idx_valid).
Defined.

End ForwardRows.

(** ** Generation: probabilities and the context window *)

Section GenerateMore.
Context (rng : Type) (multinomial : matrix → rng → list Z * rng).
Context (cfg : config) (m : Bigram_Language_Model.t).
Hypothesis Hsampler : Bigram_Language_Model.multinomial_contract rng multinomial.
Hypothesis Hinit : Bigram_Language_Model.init_shape cfg m.
Hypothesis Hcfg : valid_config cfg.
Hypothesis Hbs : 0 < blocksize cfg.

Lemma crop_same_window (idx idx' : LongTensor) :
  (shape idx').1 = (shape idx).1 →
  blocksize cfg ≤ (shape idx).2 → blocksize cfg ≤ (shape idx').2 →
  Forall2 (λ r r', drop ((shape idx).2 - blocksize cfg) r =
                   drop ((shape idx').2 - blocksize cfg) r')
    (rows idx) (rows idx') →
  Bigram_Language_Model.crop (blocksize cfg) idx' =
  Bigram_Language_Model.crop (blocksize cfg) idx.
Proof using Hbs.
  intros HB HT HT' Hrows. rewrite !(crop_spec cfg Hbs). f_equal.
  - rewrite HB. f_equal. lia.
  - symmetry. apply list_eq. intros b. rewrite !list_lookup_fmap.
    destruct (rows idx !! b) as [r|] eqn:Hr.
    + destruct (Forall2_lookup_l _ _ _ _ _ Hrows Hr) as (r' & Hr' & Heq).
      rewrite Hr'. simpl. by rewrite Heq.
    + apply lookup_ge_None in Hr.
      rewrite (Forall2_length _ _ _ Hrows) in Hr.
      apply lookup_ge_None in Hr. by rewrite Hr.
Qed.

Lemma cat_next_same_window (idx idx' : LongTensor) (s : list Z) :
  well_shaped idx → well_shaped idx' →
  blocksize cfg ≤ (shape idx).2 → blocksize cfg ≤ (shape idx').2 →
  Forall2 (λ r r', drop ((shape idx).2 - blocksize cfg) r =
                   drop ((shape idx').2 - blocksize cfg) r')
    (rows idx) (rows idx') →
  Forall2 (λ r r', drop ((shape idx).2 + 1 - blocksize cfg) r =
                   drop ((shape idx').2 + 1 - blocksize cfg) r')
    (rows (Bigram_Language_Model.cat_next idx s))
    (rows (Bigram_Language_Model.cat_next idx' s)).
Proof using Hbs.
  intros (_ & HT) (_ & HT') Hge Hge' Hrows.
  unfold Bigram_Language_Model.cat_next. simpl.
  rewrite Forall_lookup in HT. rewrite Forall_lookup in HT'.
  apply Forall2_same_length_lookup_2.
  - rewrite !length_zip_with, (Forall2_length _ _ _ Hrows). done.
  - intros b o o'. rewrite !lookup_zip_with.
    destruct (rows idx !! b) as [r|] eqn:Hr; simpl; [|done].
    destruct (s !! b) as [t|] eqn:Ht; simpl; [|done].
    intros [= <-].
    destruct (Forall2_lookup_l _ _ _ _ _ Hrows Hr) as (r' & Hr' & Heq).
    rewrite Hr'. simpl. intros [= <-].
    specialize (HT b r Hr). specialize (HT' b r' Hr'). simpl in HT, HT'.
    rewrite !drop_app_le by lia. f_equal.
    replace ((shape idx).2 + 1 - blocksize cfg)
      with ((shape idx).2 - blocksize cfg + 1) by lia.
    replace ((shape idx').2 + 1 - blocksize cfg)
      with ((shape idx').2 - blocksize cfg + 1) by lia.
    rewrite <- !drop_drop. simpl in Heq. by rewrite Heq.
Qed.

Lemma generate_same_window (n : nat) : ∀ (idx idx' : LongTensor) (g : rng),
  valid_seed cfg idx → valid_seed cfg idx' →
  (shape idx').1 = (shape idx).1 →
  blocksize cfg ≤ (shape idx).2 → blocksize cfg ≤ (shape idx').2 →
  Forall2 (λ r r', drop ((shape idx).2 - blocksize cfg) r =
                   drop ((shape idx').2 - blocksize cfg) r')
    (rows idx) (rows idx') →
  ∃ out out',
    Bigram_Language_Model.generate rng multinomial cfg m idx n g = Ok out ∧
    Bigram_Language_Model.generate rng multinomial cfg m idx' n g = Ok out' ∧
    Forall2 (λ o o', drop (shape idx).2 o = drop (shape idx').2 o')
      (rows out) (rows out').
Proof using Hsampler Hinit Hcfg Hbs.
  induction n as [|n IH]; intros idx idx' g Hseed Hseed' HB HT HT' Hrows.
  - exists idx, idx'. split; [done|]. split; [done|].
    destruct Hseed as ((_ & Hlen) & _). destruct Hseed' as ((_ & Hlen') & _).
    rewrite Forall_lookup in Hlen. rewrite Forall_lookup in Hlen'.
    apply Forall2_same_length_lookup_2; [by eapply Forall2_length|].
    intros b r r' Hr Hr'.
    rewrite !drop_ge; [done| |].
    + by rewrite (Hlen' b r' Hr').
    + by rewrite (Hlen b r Hr).
  - pose proof (crop_same_window idx idx' HB HT HT' Hrows) as Hcrop.
    rewrite !(generate_step rng multinomial cfg m Hinit Hcfg Hbs) by done.
    unfold generate_probs. rewrite Hcrop. fold (generate_probs cfg m idx).
    set (s := multinomial (generate_probs cfg m idx) g).
    destruct (sampled_valid rng multinomial cfg m Hsampler Hinit Hcfg Hbs idx g
                Hseed) as (Hlen & Hnext).
    fold s in Hlen, Hnext.
    destruct (cat_next_valid cfg idx s.1 Hseed Hlen Hnext) as (Hseed1 & Hpre1).
    assert (Hlen' : length s.1 = (shape idx').1) by lia.
    destruct (cat_next_valid cfg idx' s.1 Hseed' Hlen' Hnext) as (Hseed1' & Hpre1').
    pose proof Hseed as (Hws & _). pose proof Hseed' as (Hws' & _).
    destruct (IH (Bigram_Language_Model.cat_next idx s.1)
                 (Bigram_Language_Model.cat_next idx' s.1) s.2 Hseed1 Hseed1')
      as (out & out' & Hout & Hout' & Hsame).
    + simpl. done.
    + simpl. lia.
    + simpl. lia.
    + by apply cat_next_same_window.
    + exists out, out'. split; [done|]. split; [done|].
      destruct (generate_Ok rng multinomial cfg m Hsampler Hinit Hcfg Hbs n _
                  s.2 Hseed1) as (o1 & Ho1 & _ & _ & Hp1).
      destruct (generate_Ok rng multinomial cfg m Hsampler Hinit Hcfg Hbs n _
                  s.2 Hseed1') as (o1' & Ho1' & _ & _ & Hp1').
      rewrite Hout in Ho1. injection Ho1 as <-.
      rewrite Hout' in Ho1'. injection Ho1' as <-.
      simpl in Hsame, Hp1, Hp1'.
      destruct Hws as (_ & HTl). destruct Hws' as (_ & HTl').
      rewrite Forall_lookup in HTl. rewrite Forall_lookup in HTl'.
      apply Forall2_same_length_lookup_2; [by eapply Forall2_length|].
      intros b o o' Ho Ho'.
      destruct (Forall2_lookup_r _ _ _ _ _ Hp1 Ho) as (r1 & Hr1 & Htake).
      destruct (Forall2_lookup_r _ _ _ _ _ Hp1' Ho') as (r1' & Hr1' & Htake').
      simpl in Htake, Htake'.
      rewrite lookup_zip_with in Hr1. rewrite lookup_zip_with in Hr1'.
      destruct (rows idx !! b) as [r|] eqn:Hr; simpl in Hr1; [|done].
      destruct (rows idx' !! b) as [r'|] eqn:Hr'; simpl in Hr1'; [|done].
      destruct (s.1 !! b) as [t|] eqn:Ht; simpl in Hr1, Hr1'; [|done].
      injection Hr1 as <-. injection Hr1' as <-.
      pose proof (Forall2_lookup_lr _ _ _ _ _ _ Hsame Ho Ho') as Hd.
      simpl in Hd.
      specialize (HTl b r Hr). specialize (HTl' b r' Hr'). simpl in HTl, HTl'.
      rewrite <- (take_drop ((shape idx).2 + 1) o), Htake.
      rewrite <- (take_drop ((shape idx').2 + 1) o'), Htake'.
      rewrite <- !app_assoc.
      rewrite !drop_app_length' by done.
      by rewrite Hd.
Qed.

End GenerateMore.

Section GenerateProperties.

(** X20. Generation has no memory beyond the context window: from two seeds
    of at least [blocksize] tokens whose rows end with the same [blocksize]
    tokens, and the same state of the random generator, [generate] appends
    the same new tokens. *)
Theorem generate_context_window (rng : Type)
    (multinomial : matrix → rng → list Z * rng)
    (cfg : config) (m : Bigram_Language_Model.t) (idx idx' : LongTensor)
    (n : nat) (g : rng) :
  Bigram_Language_Model.multinomial_contract rng multinomial →
  Bigram_Language_Model.init_shape cfg m → valid_config cfg →
  0 < blocksize cfg →
  valid_seed cfg idx → valid_seed cfg idx' →
  (shape idx').1 = (shape idx).1 →
  blocksize cfg ≤ (shape idx).2 → blocksize cfg ≤ (shape idx').2 →
  Forall2 (λ r r', drop ((shape idx).2 - blocksize cfg) r =
                   drop ((shape idx').2 - blocksize cfg) r')
    (rows idx) (rows idx') →
  ∃ out out',
    Bigram_Language_Model.generate rng multinomial cfg m idx n g = Ok out ∧
    Bigram_Language_Model.generate rng multinomial cfg m idx' n g = Ok out' ∧
    Forall2 (λ o o', drop (shape idx).2 o = drop (shape idx').2 o')
      (rows out) (rows out').
Proof.
  intros Hsampler Hinit Hcfg Hbs Hseed Hseed' HB HT HT' Hrows.
  by apply (generate_same_window rng multinomial cfg m Hsampler Hinit Hcfg Hbs).
Qed.

Lemma generate_context_window_witness :
  ∃ out out',
    Bigram_Language_Model.generate unit first_class tiny_cfg tiny_model
      {| shape := (1, 3); rows := [[0; 1; 0]%Z] |} 2 tt = Ok out ∧
    Bigram_Language_Model.generate unit first_class tiny_cfg tiny_model
      {| shape := (1, 2); rows := [[1; 0]%Z] |} 2 tt = Ok out' ∧
    Forall2 (λ o o', drop 3 o = drop 2 o') (rows out) (rows out').
Proof.
  refine (generate_context_window unit first_class tiny_cfg tiny_model
            {| shape := (1, 3); rows := [[0; 1; 0]%Z] |}
            {| shape := (1, 2); rows := [[1; 0]%Z] |} 2 tt
            first_class_contract tiny_model_init_shape tiny_cfg_valid
            _ _ _ _ _ _ _).
  - simpl. lia.
  - by apply (bool_decide_unpack _).
  - by apply (bool_decide_unpack _).
  - reflexivity.
  - simpl. lia.
  - simpl. lia.
  - simpl. repeat constructor.
Defined.

(** X21. What the sampler is given is a probability distribution over the
    vocabulary for every row: [vocab_size] probabilities, all positive (no
    token is excluded), summing to 1. *)
Theorem generate_probabilities (cfg : config) (m : Bigram_Language_Model.t)
    (idx : LongTensor) :
  Bigram_Language_Model.init_shape cfg m → valid_config cfg →
  0 < blocksize cfg → valid_seed cfg idx →
  ∃ out logits,
    Bigram_Language_Model.forward m
      (Bigram_Language_Model.crop (blocksize cfg) idx) None = Ok out ∧
    Bigram_Language_Model.last_step out.1 = Ok logits ∧
    length logits = (shape idx).1 ∧
    Forall (λ l : vec,
        length (F.softmax (finite <$> l)) = vocab_size cfg ∧
        Forall (λ p, (0 < p)%R) (F.softmax (finite <$> l)) ∧
        Rsum (F.softmax (finite <$> l)) = 1%R) logits.
Proof.
  intros Hinit Hcfg Hbs Hseed.
  pose proof (valid_seed_vocab_pos cfg idx Hseed) as HV.
  destruct Hseed as ((HB & HT) & HBpos & HTpos & Hvocab).
  assert (Hvalid : valid_input cfg (Bigram_Language_Model.crop (blocksize cfg) idx))
    by (by apply crop_valid).
  eexists _, _. split; [by apply forward_None_Ok|].
  rewrite (crop_spec cfg Hbs). cbn [fst snd shape rows].
  cbn [Bigram_Language_Model.last_step].
  destruct (Nat.eqb_spec ((shape idx).2 `min` blocksize cfg) 0) as [Hz|_]; [lia|].
  split; [done|]. split; [by rewrite !length_fmap|].
  rewrite <- !list_fmap_compose. apply Forall_fmap.
  eapply Forall_impl; [exact HT|]. intros r Hr. cbv [compose]. simpl in Hr.
  set (l := List.last (row_logits m (drop ((shape idx).2 - blocksize cfg) r)) []).
  assert (Hl : length l = vocab_size cfg).
  { apply (List_last_Forall (λ v : vec, length v = vocab_size cfg)).
    - intros Hnil.
      pose proof (row_logits_length cfg m Hinit Hcfg
                    (drop ((shape idx).2 - blocksize cfg) r)) as Hlen.
      rewrite Hnil, length_drop in Hlen. simpl in Hlen. lia.
    - by apply row_logits_width. }
  destruct (softmax_distribution l) as (Hlen & Hpos & Hsum).
  { intros Hnil. rewrite Hnil in Hl. simpl in Hl. lia. }
  by rewrite Hlen, Hl.
Qed.

Lemma generate_probabilities_witness :
  ∃ out logits,
    Bigram_Language_Model.forward tiny_model
      (Bigram_Language_Model.crop 2 tiny_idx) None = Ok out ∧
    Bigram_Language_Model.last_step out.1 = Ok logits ∧
    length logits = 1 ∧
    Forall (λ l : vec,
        length (F.softmax (finite <$> l)) = 2 ∧
        Forall (λ p, (0 < p)%R) (F.softmax (finite <$> l)) ∧
        Rsum (F.softmax (finite <$> l)) = 1%R) logits.
Proof.
  refine (generate_probabilities tiny_cfg tiny_model tiny_idx
            tiny_model_init_shape tiny_cfg_valid _ tiny_idx_seed).
  simpl. lia.
Defined.

End GenerateProperties.

Section Sampling.

Lemma vocab_size_pos (text : string) :
  text ≠ EmptyString → 0 < Codec.vocab_size text.
Proof.
  intros Htext. destruct text as [|c s]; [done|].
  assert (Hc : c ∈ Codec.characters (String c s)).
  { apply characters_spec. by left. }
  unfold Codec.vocab_size.
  destruct (Codec.characters (String c s)); [by apply elem_of_nil in Hc|].
  simpl. lia.
Qed.

Lemma context_valid_seed (cfg : config) :
  0 < vocab_size cfg → valid_seed cfg Script.context.
Proof.
  intros HV. repeat split; simpl; try lia.
  - by repeat constructor.
  - repeat constructor; unfold in_vocab; lia.
Qed.

(** X22. The sampling lines of the script succeed when the model's
    vocabulary is the one of a non-empty training text: they produce a
    string of [max_new_tokens + 1] characters, all of them characters of the
    text, and the first one is the smallest character of the text (the
    decoding of the start token 0). *)
Theorem sample_text_runs (rng : Type)
    (multinomial : matrix → rng → list Z * rng)
    (cfg : config) (m : Bigram_Language_Model.t) (text : string)
    (max_new_tokens : nat) (g : rng) :
  Bigram_Language_Model.multinomial_contract rng multinomial →
  Bigram_Language_Model.init_shape cfg m → valid_config cfg →
  0 < blocksize cfg →
  vocab_size cfg = Codec.vocab_size text →
  text ≠ EmptyString →
  ∃ s,
    Script.sample_text rng multinomial cfg m text max_new_tokens g = Ok s ∧
    String.length s = max_new_tokens + 1 ∧
    list_ascii_of_string s !! 0 = Codec.characters text !! 0 ∧
    Forall (λ c, In c (list_ascii_of_string text)) (list_ascii_of_string s).
Proof.
  intros Hsampler Hinit Hcfg Hbs Hvocab Htext.
  pose proof (vocab_size_pos text Htext) as HV.
  assert (Hseed : valid_seed cfg Script.context)
    by (apply context_valid_seed; lia).
  destruct (generate_Ok rng multinomial cfg m Hsampler Hinit Hcfg Hbs
              max_new_tokens Script.context g Hseed)
    as (out & Hgen & Hshape & Hout & Hprefix).
  cbn [Script.context shape rows fst snd] in Hshape, Hprefix.
  apply Forall2_cons_inv_l in Hprefix as (r & rs & Hr & Hrs & Hrows).
  apply Forall2_nil_inv_l in Hrs as ->.
  destruct Hout as ((_ & HT) & _ & _ & Hin).
  rewrite Hrows in HT, Hin. rewrite Hshape in HT.
  apply Forall_cons_1 in HT as [HT _]. apply Forall_cons_1 in Hin as [Hin _].
  cbn [fst snd] in HT.
  destruct (decode_in_vocab text r) as (cs & Hdec & Hcs).
  { eapply Forall_impl; [exact Hin|]. intros i Hi.
    unfold in_vocab in Hi. by rewrite Hvocab in Hi. }
  exists (string_of_list_ascii cs). split.
  { unfold Script.sample_text. rewrite Hgen. cbn [mbind result_mbind result_bind].
    unfold Script.first_row. rewrite Hrows. exact Hdec. }
  rewrite string_length_of_list, list_ascii_of_string_of_list_ascii.
  split; [|split].
  - apply Forall2_length in Hcs. lia.
  - destruct r as [|t r']; [simpl in HT; lia|].
    simpl in Hr. injection Hr as ->.
    apply Forall2_cons_inv_l in Hcs as (c & cs' & Hc & _ & ->).
    change (Z.to_nat 0) with 0 in Hc. by rewrite Hc.
  - apply Forall_forall. intros c Hc.
    apply list_elem_of_lookup in Hc as [i Hi].
    destruct (Forall2_lookup_r _ _ _ _ _ Hcs Hi) as (t & _ & Ht).
    apply characters_spec. by eapply list_elem_of_lookup_2.
Qed.

Lemma sample_text_runs_witness :
  ∃ s,
    Script.sample_text unit first_class tiny_cfg tiny_model "ab" 3 tt = Ok s ∧
    String.length s = 3 + 1 ∧
    list_ascii_of_string s !! 0 = Codec.characters "ab" !! 0 ∧
    Forall (λ c, In c (list_ascii_of_string "ab")) (list_ascii_of_string s).
Proof.
  refine (sample_text_runs unit first_class tiny_cfg tiny_model "ab" 3 tt
            first_class_contract tiny_model_init_shape tiny_cfg_valid _ _ _).
  - simpl. lia.
  - by vm_compute.
  - discriminate.
Defined.

End Sampling.

(** ** The evaluation loop *)

Section EstimateLoss.
Context (rng : Type) (randint : nat → nat → rng → list nat * rng).
Context (cfg : config) (batchsize eval_iters : nat).
Context (train_data test_data : list Z) (m : Bigram_Language_Model.t).
Hypothesis Hrandint : Script.randint_contract rng randint.
Hypothesis Hinit : Bigram_Language_Model.init_shape cfg m.
Hypothesis Hcfg : valid_config cfg.
Hypothesis Hbatch : 0 < batchsize.
Hypothesis Hbs : 0 < blocksize cfg.

Lemma batch_loss (split : string) (g : rng) :
  let data := if String.eqb split "train" then train_data else test_data in
  blocksize cfg < length data → Forall (in_vocab cfg) data →
  ∃ x y g' out loss,
    Script.get_batch rng randint cfg batchsize train_data test_data split g =
      Ok (x, y, g') ∧
    Bigram_Language_Model.forward m x (Some y) = Ok (out, Some loss) ∧
    (0 <= loss)%R.
Proof using Hrandint Hinit Hcfg Hbatch Hbs.
  intros data Hlen Hvocab.
  destruct (get_batch_Ok rng randint cfg batchsize train_data test_data
              Hrandint split g Hbatch Hlen) as (Hget & Hix & Hwin).
  fold data in Hget, Hix, Hwin.
  set (ix := (randint (length data - blocksize cfg) batchsize g).1) in *.
  assert (Hvalid : ∀ (f : nat → list Z),
    (∀ i, i + blocksize cfg < length data →
          length (f i) = blocksize cfg ∧ Forall (in_vocab cfg) (f i)) →
    valid_input cfg {| shape := (batchsize, blocksize cfg); rows := f <$> ix |}).
  { intros f Hf. unfold valid_input, well_shaped. simpl.
    rewrite length_fmap. repeat split; [done| |lia|].
    - apply Forall_fmap. eapply Forall_impl; [exact Hwin|].
      intros i Hi. by apply Hf.
    - apply Forall_fmap. eapply Forall_impl; [exact Hwin|].
      intros i Hi. by apply Hf. }
  assert (Hx : valid_input cfg
    {| shape := (batchsize, blocksize cfg);
       rows := (λ i, Script.slice data i (i + blocksize cfg)) <$> ix |}).
  { apply Hvalid. intros i Hi. split; [rewrite slice_length; lia|].
    unfold Script.slice. by apply Forall_drop, Forall_take. }
  assert (Hy : valid_input cfg
    {| shape := (batchsize, blocksize cfg);
       rows := (λ i, Script.slice data (i + 1) (i + blocksize cfg + 1)) <$> ix |}).
  { apply Hvalid. intros i Hi. split; [rewrite slice_length; lia|].
    unfold Script.slice. by apply Forall_drop, Forall_take. }
  eexists _, _, _, _, _. split; [exact Hget|].
  split; [by rewrite (forward_Some_Ok cfg m Hinit Hcfg _ _ Hx Hy eq_refl)|].
  cbn [shape fst snd rows].
  destruct (row_logits_shape cfg m Hinit Hcfg _ Hx) as (_ & HL).
  apply (mean_cross_entropy_nonneg (vocab_size cfg)).
  - clear - Hbatch Hbs. nia.
  - eapply Forall_impl; [exact HL|]. intros M [_ HM]. exact HM.
  - by destruct Hy as (_ & _ & Hy).
Qed.

Lemma eval_losses_Ok (split : string) (k : nat) : ∀ g : rng,
  let data := if String.eqb split "train" then train_data else test_data in
  blocksize cfg < length data → Forall (in_vocab cfg) data →
  ∃ ls g',
    Script.eval_losses rng randint cfg batchsize train_data test_data m
      k split g = Ok (ls, g') ∧
    length ls = k ∧ Forall (λ l, (0 <= l)%R) ls.
Proof using Hrandint Hinit Hcfg Hbatch Hbs.
  induction k as [|k IH]; intros g data Hlen Hvocab.
  - by exists [], g.
  - destruct (batch_loss split g Hlen Hvocab)
      as (x & y & g1 & out & loss & Hget & Hfwd & Hloss).
    destruct (IH g1 Hlen Hvocab) as (ls & g2 & Hrest & Hk & Hls).
    exists (loss :: ls), g2. split.
    + cbn [Script.eval_losses]. rewrite Hget.
      cbn [mbind result_mbind result_bind]. rewrite Hfwd.
      cbn [mbind result_mbind result_bind snd Script.item]. by rewrite Hrest.
    + split; [by rewrite <- Hk|]. by constructor.
Qed.

Lemma mean_nonneg (ls : list R) :
  ls ≠ [] → Forall (λ l, (0 <= l)%R) ls → (0 <= Script.mean ls)%R.
Proof using Type.
  intros Hne Hls. unfold Script.mean. apply Rmult_le_pos.
  - by apply Rsum_nonneg.
  - left. apply Rinv_0_lt_compat, lt_0_INR. destruct ls; [done|].
    simpl. apply Nat.lt_0_succ.
Qed.

End EstimateLoss.

Section EstimateLossProperties.

(** X23. [estimate_loss] succeeds when both splits are longer than the
    context length and hold only token ids of the vocabulary: the
    dictionary it returns has exactly the two keys "train" and "test", and
    both mean losses are non-negative. *)
Theorem estimate_loss_runs (rng : Type)
    (randint : nat → nat → rng → list nat * rng)
    (cfg : config) (batchsize eval_iters : nat)
    (train_data test_data : list Z) (m : Bigram_Language_Model.t) (g : rng) :
  Script.randint_contract rng randint →
  Bigram_Language_Model.init_shape cfg m → valid_config cfg →
  0 < batchsize → 0 < blocksize cfg → 0 < eval_iters →
  blocksize cfg < length train_data → blocksize cfg < length test_data →
  Forall (in_vocab cfg) train_data → Forall (in_vocab cfg) test_data →
  ∃ (train_loss test_loss : R) (g' : rng),
    Script.estimate_loss rng randint cfg batchsize eval_iters train_data
      test_data m g =
      Ok (<["test"%string := test_loss]> (<["train"%string := train_loss]> ∅), g') ∧
    (0 <= train_loss)%R ∧ (0 <= test_loss)%R.
Proof.
  intros Hrandint Hinit Hcfg Hbatch Hbs Hiters Htrain Htest Hvtrain Hvtest.
  destruct (eval_losses_Ok rng randint cfg batchsize train_data test_data m
              Hrandint Hinit Hcfg Hbatch Hbs "train" eval_iters g Htrain Hvtrain)
    as (ls1 & g1 & Hrun1 & Hk1 & Hls1).
  destruct (eval_losses_Ok rng randint cfg batchsize train_data test_data m
              Hrandint Hinit Hcfg Hbatch Hbs "test" eval_iters g1 Htest Hvtest)
    as (ls2 & g2 & Hrun2 & Hk2 & Hls2).
  exists (Script.mean ls1), (Script.mean ls2), g2. split; [|split].
  - unfold Script.estimate_loss. cbn [Script.estimate_splits].
    rewrite Hrun1. cbn [mbind result_mbind result_bind fst snd].
    rewrite Hrun2. by cbn [mbind result_mbind result_bind fst snd].
  - apply mean_nonneg; [|done]. intros ->. simpl in Hk1. lia.
  - apply mean_nonneg; [|done]. intros ->. simpl in Hk2. lia.
Qed.

Lemma estimate_loss_runs_witness :
  ∃ (train_loss test_loss : R) (g' : unit),
    Script.estimate_loss unit last_start tiny_cfg 2 2 [0; 1; 0; 1; 1]%Z
      [1; 0; 1]%Z tiny_model tt =
      Ok (<["test"%string := test_loss]> (<["train"%string := train_loss]> ∅), g') ∧
    (0 <= train_loss)%R ∧ (0 <= test_loss)%R.
Proof.
  refine (estimate_loss_runs unit last_start tiny_cfg 2 2 [0; 1; 0; 1; 1]%Z
            [1; 0; 1]%Z tiny_model tt last_start_contract
            tiny_model_init_shape tiny_cfg_valid _ _ _ _ _ _ _).
  - lia.
  - simpl. lia.
  - lia.
  - simpl. lia.
  - simpl. lia.
  - by apply (bool_decide_unpack _).
  - by apply (bool_decide_unpack _).
Defined.

End EstimateLossProperties.

Section SplitProperties.

(** X24. The split of lines 40-42 partitions the data: [train] followed by
    [test] is the data, [train] holds the integer part of nine tenths of
    it, and [test] is never empty for non-empty data. *)
Theorem train_test_partition (data : list Z) :
  data ≠ [] →
  Script.train data ++ Script.test data = data ∧
  length (Script.train data) = 9 * length data / 10 ∧
  length (Script.train data) + length (Script.test data) = length data ∧
  0 < length (Script.test data).
Proof.
  intros Hne. unfold Script.train, Script.test, Script.split_point.
  assert (Hlen : 0 < length data) by (destruct data; [done|simpl; lia]).
  assert (Hlt : 9 * length data / 10 < length data).
  { apply Nat.Div0.div_lt_upper_bound. lia. }
  rewrite take_drop, length_take, length_drop. repeat split; lia.
Qed.

Lemma train_test_partition_witness :
  Script.train [0; 1; 0; 1; 1]%Z ++ Script.test [0; 1; 0; 1; 1]%Z =
    [0; 1; 0; 1; 1]%Z ∧
  length (Script.train [0; 1; 0; 1; 1]%Z) = 9 * length [0; 1; 0; 1; 1]%Z / 10 ∧
  length (Script.train [0; 1; 0; 1; 1]%Z) + length (Script.test [0; 1; 0; 1; 1]%Z) =
    length [0; 1; 0; 1; 1]%Z ∧
  0 < length (Script.test [0; 1; 0; 1; 1]%Z).
Proof.
  apply (train_test_partition [0; 1; 0; 1; 1]%Z). discriminate.
Defined.

End SplitProperties.

